(** * TuneX: the caching and per-user store layer of [server.py]

    A shallow embedding of the stateful core of the music server:
    the persisted per-user record (history, search cache, likes,
    playlists), the in-memory TTL caches, the single-flight event
    protocol of [fetch_stream] and the prefetch loop.

    Conventions.
    - Wall-clock readings ([time.time()]) are exact rationals [Q].
    - The files [user_data/<username>.json] are a finite map from user
      names to records; [json.loads] after [json.dumps] is the identity.
    - A track is a JSON object. The ones the server builds in
      [_entry_to_track] and [_sync_audio_url] carry the key ["id"];
      the body of an add-track request is any object, so a stored
      track may lack it: [t.get("id")] then answers [None], and
      [t["id"]] raises [KeyError]. Identifiers are strings or [null].
      For the other keys only [.get] is used, and a missing key and a
      key holding [None] are both [None] here.
    - A string holds the UTF-8 encoding of a Python [str]: a character
      starts at every byte that is not a continuation byte. Letter
      case and blanks ([str.lower], [str.strip]) are those of ASCII;
      the search key is exact for ASCII queries.
    - A Python [dict] whose iteration order is observed (the search
      cache) is an association list in insertion order; the others are
      [gmap]s. *)

From stdpp Require Import gmap strings list fin_maps sorting.
From Stdlib Require Import QArith Lqa.
Close Scope Q_scope.

(** ** Configuration constants *)

Definition SEARCH_CACHE_TTL : Q := (60 * 30)%Q.
Definition AUDIO_URL_TTL : Q := (60 * 60 * 4)%Q.
Definition RELATED_CACHE_TTL : Q := (60 * 60)%Q.

(** ** Data model *)

(** What a track object holds under the key ["id"]. *)
Inductive IdField :=
| IdMissing
| IdNull
| IdStr (s : string).

Record Track := mkTrack {
  track_id_field : IdField;
  track_title : option string;
  track_channel : option string;
  track_duration : option Z;
  track_thumbnail : option string;
  track_url : option string;
  track_description : option string;
}.

(** [t.get("id")] *)
Definition track_id (t : Track) : option string :=
  match track_id_field t with
  | IdStr s => Some s
  | IdMissing | IdNull => None
  end.

(** Whether [t["id"]] can be read; it raises [KeyError] otherwise. *)
Definition has_id_key (t : Track) : bool :=
  match track_id_field t with
  | IdMissing => false
  | IdNull | IdStr _ => true
  end.

(** The empty object [{}]: every [.get] answers [None]. *)
Definition empty_track : Track := mkTrack IdMissing None None None None None None.

Record SearchEntry := mkSearchEntry {
  se_ts : Q;
  se_results : list Track;
}.

Record Playlist := mkPlaylist {
  pl_name : string;
  pl_tracks : list Track;
  pl_created_at : Q;
}.

Record UserData := mkUserData {
  history : list Track;
  search_cache : list (string * SearchEntry);
  liked : list string;
  playlists : gmap string Playlist;
}.

Definition set_history (h : list Track) (d : UserData) : UserData :=
  mkUserData h (search_cache d) (liked d) (playlists d).
Definition set_search_cache (c : list (string * SearchEntry)) (d : UserData) : UserData :=
  mkUserData (history d) c (liked d) (playlists d).
Definition set_liked (l : list string) (d : UserData) : UserData :=
  mkUserData (history d) (search_cache d) l (playlists d).
Definition set_playlists (p : gmap string Playlist) (d : UserData) : UserData :=
  mkUserData (history d) (search_cache d) (liked d) p.
Definition set_tracks (ts : list Track) (pl : Playlist) : Playlist :=
  mkPlaylist (pl_name pl) ts (pl_created_at pl).

(** The directory [user_data/]. *)
Abbreviation UserFiles := (gmap string UserData).

(** ** User data helpers *)

Definition load_user (fs : UserFiles) (username : string) : UserData :=
  match fs !! username with
  | Some d => d
  | None => mkUserData [] [] [] ∅
  end.

Definition save_user (fs : UserFiles) (username : string) (data : UserData) : UserFiles :=
  <[username := data]> fs.

(** [record_play]: the three assignments to [data["history"]] in turn. *)
Definition record_play (fs : UserFiles) (username : string) (track : Track) : UserFiles :=
  let data := load_user fs username in
  let data := set_history
    (filter (λ t, track_id t ≠ track_id track) (history data)) data in
  let data := set_history (track :: history data) data in
  let data := set_history (take 200 (history data)) data in
  save_user fs username data.

(** [GET /api/history] *)
Definition get_history (fs : UserFiles) (username : string) : list Track :=
  take 50 (history (load_user fs username)).

(** The history list [record_play] stores, as one expression. *)
Definition played (h : list Track) (t : Track) : list Track :=
  take 200 (t :: filter (λ x, track_id x ≠ track_id t) h).

(** Plays recorded one after the other. *)
Definition record_plays (fs : UserFiles) (username : string) (plays : list Track) : UserFiles :=
  foldl (λ fs t, record_play fs username t) fs plays.

(** ** Python values used by the handlers *)

Inductive exn :=
| DownloadError (msg : string)
| ValueError (msg : string).

(** Outcome of a call that may raise. *)
Inductive result (A : Type) :=
| Return (a : A)
| Raise (e : exn).
Arguments Return {A} a.
Arguments Raise {A} e.

(** Outcome of a route: the JSON body, or [raise HTTPException]. *)
Inductive http (A : Type) :=
| OK (body : A)
| HTTPException (status_code : Z) (detail : string).
Arguments OK {A} body.
Arguments HTTPException {A} status_code detail.

(** [str.lower] and [str.strip] on ASCII text. *)
Definition lower_char (c : Ascii.ascii) : Ascii.ascii :=
  let n := Ascii.nat_of_ascii c in
  if (65 <=? n)%nat && (n <=? 90)%nat then Ascii.ascii_of_nat (n + 32) else c.

Fixpoint str_lower (s : string) : string :=
  match s with
  | EmptyString => EmptyString
  | String c s' => String (lower_char c) (str_lower s')
  end.

Definition is_space (c : Ascii.ascii) : bool :=
  let n := Ascii.nat_of_ascii c in
  ((9 <=? n)%nat && (n <=? 13)%nat) || ((28 <=? n)%nat && (n <=? 32)%nat).

Fixpoint str_lstrip (s : string) : string :=
  match s with
  | EmptyString => EmptyString
  | String c s' => if is_space c then str_lstrip s' else s
  end.

Definition str_strip (s : string) : string :=
  String.rev (str_lstrip (String.rev (str_lstrip s))).

(** An insertion-ordered [dict] with string keys. *)
Fixpoint od_get {V} (k : string) (d : list (string * V)) : option V :=
  match d with
  | [] => None
  | (k', v) :: d' => if decide (k = k') then Some v else od_get k d'
  end.

(** [d[k] = v]: an existing key keeps its place, a new one goes last. *)
Fixpoint od_set {V} (k : string) (v : V) (d : list (string * V)) : list (string * V) :=
  match d with
  | [] => [(k, v)]
  | (k', v') :: d' =>
      if decide (k = k') then (k, v) :: d' else (k', v') :: od_set k v d'
  end.

(** [dict(items)] *)
Definition dict_of {V} (items : list (string * V)) : list (string * V) :=
  foldl (λ d kv, od_set kv.1 kv.2 d) [] items.

(** [sorted(cache.items(), key=lambda x: x[1]["ts"])]: a stable sort,
    written as the insertion sort that keeps equal keys in input order. *)
Fixpoint insert_by_ts (x : string * SearchEntry) (l : list (string * SearchEntry))
  : list (string * SearchEntry) :=
  match l with
  | [] => [x]
  | y :: l' =>
      if Qle_bool (se_ts x.2) (se_ts y.2) then x :: y :: l'
      else y :: insert_by_ts x l'
  end.

Definition sorted_by_ts (items : list (string * SearchEntry)) : list (string * SearchEntry) :=
  foldr insert_by_ts [] items.

(** [l[-n:]] for [n > 0] *)
Definition last_n {A} (n : nat) (l : list A) : list A := drop (length l - n) l.

(** ** TTL guard

    Every cached read is written
    [if cached and (time.time() - cached["ts"]) < TTL]; the entries are
    non-empty dicts, so [cached] is false exactly when the key is absent. *)
Definition fresh (now ts ttl : Q) : bool :=
  if Qlt_le_dec (now - ts)%Q ttl then true else false.

Definition ttl_lookup {E} (ts : E → Q) (ttl now : Q) (cached : option E) : option E :=
  match cached with
  | Some e => if fresh now (ts e) ttl then Some e else None
  | None => None
  end.

(** ** Search cache (per-user, persisted) *)

(** [query.lower().strip()] *)
Definition search_key (query : string) : string := str_strip (str_lower query).

(** [now] is the clock read by the guard, [ext] the outcome of
    [_sync_search] and [now'] the clock read when the entry is stored. *)
Definition cached_search (fs : UserFiles) (username query : string)
    (now : Q) (ext : result (list Track)) (now' : Q)
  : result (list Track) * UserFiles :=
  let data := load_user fs username in
  let cache := search_cache data in
  let key := search_key query in
  match ttl_lookup se_ts SEARCH_CACHE_TTL now (od_get key cache) with
  | Some entry => (Return (se_results entry), fs)
  | None =>
      match ext with
      | Raise e => (Raise e, fs)
      | Return results =>
          let cache := od_set key (mkSearchEntry now' results) cache in
          let cache :=
            if (50 <? length cache)%nat
            then dict_of (last_n 50 (sorted_by_ts cache))
            else cache in
          (Return results, save_user fs username (set_search_cache cache data))
      end
  end.

(** One search request as the environment sees it. *)
Record SearchReq := mkSearchReq {
  sr_query : string;
  sr_now : Q;
  sr_results : list Track;
  sr_stored_at : Q;
}.

(** The cache item a request stores on a miss. *)
Definition entry_of (r : SearchReq) : string * SearchEntry :=
  (search_key (sr_query r), mkSearchEntry (sr_stored_at r) (sr_results r)).

(** Items ordered by time stamp, oldest first. *)
Definition ts_le (x y : string * SearchEntry) : Prop :=
  (se_ts x.2 <= se_ts y.2)%Q.

#[export] Instance Qle_dec : RelDecision Qle :=
  λ x y, match Qlt_le_dec y x with
         | left H => right (Qlt_not_le _ _ H)
         | right H => left H
         end.

Definition run_searches (fs : UserFiles) (username : string) (reqs : list SearchReq) : UserFiles :=
  foldl (λ fs r,
    (cached_search fs username (sr_query r) (sr_now r)
       (Return (sr_results r)) (sr_stored_at r)).2) fs reqs.

(** ** Likes *)

Definition like_track (fs : UserFiles) (video_id username : string) : UserFiles :=
  let data := load_user fs username in
  let liked := liked data in
  let liked := if decide (video_id ∈ liked) then liked else video_id :: liked in
  save_user fs username (set_liked (take 500 liked) data).

Definition unlike_track (fs : UserFiles) (video_id username : string) : UserFiles :=
  let data := load_user fs username in
  save_user fs username (set_liked (filter (λ v, v ≠ video_id) (liked data)) data).

Definition get_liked (fs : UserFiles) (username : string) : list string :=
  liked (load_user fs username).

(** ** Playlist routes

    [pid] is the token drawn by [secrets.token_urlsafe(8)] and [now]
    the clock at creation. *)
Definition create_playlist (fs : UserFiles) (name username pid : string) (now : Q)
  : UserFiles :=
  let data := load_user fs username in
  save_user fs username
    (set_playlists (<[pid := mkPlaylist name [] now]> (playlists data)) data).

Definition get_playlist (fs : UserFiles) (playlist_id username : string) : http Playlist :=
  match playlists (load_user fs username) !! playlist_id with
  | None => HTTPException 404 "Playlist not found"
  | Some pl => OK pl
  end.

Definition add_to_playlist (fs : UserFiles) (playlist_id : string) (track : Track)
    (username : string) : http nat * UserFiles :=
  let data := load_user fs username in
  match playlists data !! playlist_id with
  | None => (HTTPException 404 "Playlist not found", fs)
  | Some pl =>
      let tracks := pl_tracks pl in
      (* Avoid duplicates *)
      let tracks :=
        if bool_decide (Exists (λ t, track_id t = track_id track) tracks)
        then tracks else tracks ++ [track] in
      (OK (length tracks),
       save_user fs username
         (set_playlists (<[playlist_id := set_tracks tracks pl]> (playlists data)) data))
  end.

Definition remove_from_playlist (fs : UserFiles) (playlist_id video_id username : string)
  : http nat * UserFiles :=
  let data := load_user fs username in
  match playlists data !! playlist_id with
  | None => (HTTPException 404 "Playlist not found", fs)
  | Some pl =>
      let tracks := filter (λ t, track_id t ≠ Some video_id) (pl_tracks pl) in
      (OK (length tracks),
       save_user fs username
         (set_playlists (<[playlist_id := set_tracks tracks pl]> (playlists data)) data))
  end.

(** [{t["id"]: t for t in tracks}] when every track carries the key:
    a later track replaces an earlier one under the same key. *)
Definition track_map_of (tracks : list Track) : gmap (option string) Track :=
  foldl (λ m t, <[track_id t := t]> m) ∅ tracks.

Definition reorder_playlist (fs : UserFiles) (playlist_id : string)
    (track_ids : list string) (username : string) : http nat * UserFiles :=
  let data := load_user fs username in
  match playlists data !! playlist_id with
  | None => (HTTPException 404 "Playlist not found", fs)
  | Some pl =>
      if forallb has_id_key (pl_tracks pl) then
        let track_map := track_map_of (pl_tracks pl) in
        let tracks := omap (λ tid, track_map !! Some tid) track_ids in
        (OK (length tracks),
         save_user fs username
           (set_playlists (<[playlist_id := set_tracks tracks pl]> (playlists data))
              data))
      else
        (* [t["id"]] raises [KeyError] at the first track without the
           key; nothing handles it, the request is answered with
           status 500 and nothing is saved. *)
        (HTTPException 500 "Internal Server Error", fs)
  end.

(** The stored track list of a playlist ([[]] when there is none). *)
Definition playlist_tracks (fs : UserFiles) (playlist_id username : string) : list Track :=
  match playlists (load_user fs username) !! playlist_id with
  | Some pl => pl_tracks pl
  | None => []
  end.

(** Unique by identifier. *)
Definition unique_ids (tracks : list Track) : Prop := NoDup (track_id <$> tracks).

(** ** The store as the routes leave it

    One update of the per-user store: a play recorded by the stream
    route, a search, or one of the like and playlist routes. *)
Inductive StoreOp :=
| Op_play (username : string) (track : Track)
| Op_search (username query : string) (now : Q) (ext : result (list Track)) (now' : Q)
| Op_like (video_id username : string)
| Op_unlike (video_id username : string)
| Op_create (name username pid : string) (now : Q)
| Op_add (playlist_id : string) (track : Track) (username : string)
| Op_remove (playlist_id video_id username : string)
| Op_reorder (playlist_id : string) (track_ids : list string) (username : string).

Definition apply_op (fs : UserFiles) (op : StoreOp) : UserFiles :=
  match op with
  | Op_play u t => record_play fs u t
  | Op_search u q now ext now' => (cached_search fs u q now ext now').2
  | Op_like v u => like_track fs v u
  | Op_unlike v u => unlike_track fs v u
  | Op_create name u pid now => create_playlist fs name u pid now
  | Op_add pid t u => (add_to_playlist fs pid t u).2
  | Op_remove pid v u => (remove_from_playlist fs pid v u).2
  | Op_reorder pid ids u => (reorder_playlist fs pid ids u).2
  end.

(** The caps and uniqueness the lists of a record are kept within. *)
Definition bounded (d : UserData) : Prop :=
  length (history d) ≤ 200 ∧ NoDup (track_id <$> history d)
  ∧ length (search_cache d) ≤ 50 ∧ NoDup (search_cache d).*1
  ∧ length (liked d) ≤ 500 ∧ NoDup (liked d).

(** ** In-memory caches *)

Record AudioEntry := mkAudioEntry { ae_url : string; ae_ts : Q }.
Record InfoEntry := mkInfoEntry { ie_info : Track; ie_ts : Q }.
Record RelatedEntry := mkRelatedEntry { re_related : list Track; re_ts : Q }.

(** ** Related list

    [fetch_related] has one suspension point, the call of
    [_sync_related]; [ext] is its outcome and [now'] the clock when the
    entry is stored. The third component counts the external calls. *)
Definition fetch_related (_related_cache : gmap string RelatedEntry) (video_id : string)
    (now : Q) (ext : result (list Track)) (now' : Q)
  : result (list Track) * gmap string RelatedEntry * nat :=
  match ttl_lookup re_ts RELATED_CACHE_TTL now (_related_cache !! video_id) with
  | Some cached => (Return (re_related cached), _related_cache, 0%nat)
  | None =>
      match ext with
      | Return related =>
          (Return related,
           <[video_id := mkRelatedEntry related now']> _related_cache, 1%nat)
      | Raise (DownloadError _) =>
          (Return [],
           <[video_id := mkRelatedEntry [] now']> _related_cache, 1%nat)
      | Raise e => (Raise e, _related_cache, 1%nat)
      end
  end.

(** ** Resolution with request deduplication

    Process-wide state. An [asyncio.Event] is named by its allocation
    number; [events_set] holds those whose flag is set.
    [resolve_calls] logs each submission of [_sync_audio_url] to the
    executor. *)
Record Mem := mkMem {
  _audio_url_cache : gmap string AudioEntry;
  _audio_url_inflight : gmap string nat;
  _track_info_cache : gmap string InfoEntry;
  events_set : gset nat;
  next_event : nat;
  resolve_calls : list string;
}.

(** Where a [fetch_stream] coroutine stands. *)
Inductive fs_pc :=
| FS_entry
| FS_wait (ev : nat)
| FS_run (ev : nat)
| FS_return (r : string * Track)
| FS_raise (e : exn).

(** [_track_info_cache.get(video_id, {}).get("info") or {}] *)
Definition cached_track (m : Mem) (video_id : string) : Track :=
  match _track_info_cache m !! video_id with
  | Some e => ie_info e
  | None => empty_track
  end.

(** From [event = asyncio.Event()] to the suspension in [_run]. *)
Definition begin_fetch (video_id : string) (m : Mem) : fs_pc * Mem :=
  let event := next_event m in
  (FS_run event,
   mkMem (_audio_url_cache m) (<[video_id := event]> (_audio_url_inflight m))
     (_track_info_cache m) (events_set m) (S event)
     (resolve_calls m ++ [video_id])).

(** The code after [await _audio_url_inflight[video_id].wait()]. *)
Definition after_wait (video_id : string) (m : Mem) : fs_pc * Mem :=
  match _audio_url_cache m !! video_id with
  | Some cached => (FS_return (ae_url cached, cached_track m video_id), m)
  | None => begin_fetch video_id m
  end.

(** The [finally] block. *)
Definition release (video_id : string) (event : nat) (m : Mem) : Mem :=
  mkMem (_audio_url_cache m) (delete video_id (_audio_url_inflight m))
    (_track_info_cache m) ({[event]} ∪ events_set m) (next_event m)
    (resolve_calls m).

(** The two cache assignments after a successful [_sync_audio_url];
    both read the clock within the same run. *)
Definition store_result (video_id : string) (now : Q) (audio_url : string)
    (track_info : Track) (m : Mem) : Mem :=
  mkMem (<[video_id := mkAudioEntry audio_url now]> (_audio_url_cache m))
    (_audio_url_inflight m)
    (<[video_id := mkInfoEntry track_info now]> (_track_info_cache m))
    (events_set m) (next_event m) (resolve_calls m).

(** One uninterrupted run of [fetch_stream video_id] from the point
    [pc] to its next suspension or its end; [None] when the coroutine
    cannot be resumed (the event is not set, or it has finished).
    [now] is the clock during the run, [ext] the outcome of
    [_sync_audio_url] handed back by the executor. *)
Definition fetch_stream (video_id : string) (now : Q) (ext : result (string * Track))
    (pc : fs_pc) (m : Mem) : option (fs_pc * Mem) :=
  match pc with
  | FS_entry =>
      match ttl_lookup ae_ts AUDIO_URL_TTL now (_audio_url_cache m !! video_id) with
      | Some cached => Some (FS_return (ae_url cached, cached_track m video_id), m)
      | None =>
          match _audio_url_inflight m !! video_id with
          | Some ev =>
              if decide (ev ∈ events_set m) then Some (after_wait video_id m)
              else Some (FS_wait ev, m)
          | None => Some (begin_fetch video_id m)
          end
      end
  | FS_wait ev =>
      if decide (ev ∈ events_set m) then Some (after_wait video_id m) else None
  | FS_run event =>
      match ext with
      | Return (audio_url, track_info) =>
          let m := store_result video_id now audio_url track_info m in
          Some (FS_return (audio_url, track_info), release video_id event m)
      | Raise e => Some (FS_raise e, release video_id event m)
      end
  | FS_return _ | FS_raise _ => None
  end.

(** A task of the event loop: a request awaiting [fetch_stream], or a
    [_prefetch_one] task, which swallows what [fetch_stream] raises. *)
Inductive Kind := Request | Prefetch.

Record Task := mkTask { t_kind : Kind; t_vid : string; t_pc : fs_pc }.

Record World := mkWorld { w_mem : Mem; w_tasks : list Task }.

(** The loop resumes task [a_task] at time [a_now]; [a_ext] is what
    the executor hands back if the task was awaiting it. *)
Record Action := mkAction {
  a_task : nat;
  a_now : Q;
  a_ext : result (string * Track);
}.

Definition sched_step (w : World) (a : Action) : option World :=
  match w_tasks w !! a_task a with
  | None => None
  | Some t =>
      match fetch_stream (t_vid t) (a_now a) (a_ext a) (t_pc t) (w_mem w) with
      | None => None
      | Some (pc, m) =>
          Some (mkWorld m (<[a_task a := mkTask (t_kind t) (t_vid t) pc]> (w_tasks w)))
      end
  end.

Fixpoint run (w : World) (sched : list Action) : option World :=
  match sched with
  | [] => Some w
  | a :: sched' =>
      match sched_step w a with
      | Some w' => run w' sched'
      | None => None
      end
  end.

(** What the awaiting caller gets: nothing yet, a value, or an exception. *)
Definition outcome_of (t : Task) : option (result (option (string * Track))) :=
  match t_pc t, t_kind t with
  | FS_return r, Request => Some (Return (Some r))
  | FS_raise e, Request => Some (Raise e)
  | (FS_return _ | FS_raise _), Prefetch => Some (Return None)
  | _, _ => None
  end.

(** Tasks suspended in the executor call for [video_id]. *)
Definition is_running (pc : fs_pc) : bool :=
  match pc with FS_run _ => true | _ => false end.

Definition running (video_id : string) (w : World) : list Task :=
  filter (λ t, t_vid t = video_id ∧ is_running (t_pc t) = true) (w_tasks w).

(** ** Background prefetch *)

(** [asyncio.create_task(_prefetch_one(vid))]: the task is queued and
    first runs at a later turn of the loop. *)
Definition create_prefetch_task (w : World) (vid : string) : World :=
  mkWorld (w_mem w) (w_tasks w ++ [mkTask Prefetch vid FS_entry]).

Definition prefetch_next (w : World) (video_ids : list string) : World :=
  foldl (λ w vid,
    if decide (_audio_url_cache (w_mem w) !! vid = None)
    then create_prefetch_task w vid else w) w (take 3 video_ids).

(** ** States of [K] requests for one identifier

    [tasks_of K vid pcs] is the task list in which request [i] stands
    at [pcs i]. *)
Definition tasks_of (K : nat) (vid : string) (pcs : nat → fs_pc) : list Task :=
  (λ i, mkTask Request vid (pcs i)) <$> seq 0 K.

(** The leader is in the executor, the requests in [waiting] wait on
    its event, the others have not run yet. *)
Definition joined_pcs (leader ev : nat) (waiting : list nat) : nat → fs_pc :=
  λ i, if decide (i = leader) then FS_run ev
       else if decide (i ∈ waiting) then FS_wait ev else FS_entry.

(** The leader and the requests in [served] have returned [r], the
    others still wait on the event. *)
Definition served_pcs (leader ev : nat) (r : string * Track) (served : list nat)
  : nat → fs_pc :=
  λ i, if decide (i = leader) then FS_return r
       else if decide (i ∈ served) then FS_return r else FS_wait ev.

(** Memory after the leader's call returned [r] at time [now]. *)
Definition resolved (vid : string) (r : string * Track) (now : Q) (m0 : Mem) : Mem :=
  release vid (next_event m0) (store_result vid now r.1 r.2 (begin_fetch vid m0).2).

(** * The rest of [server.py], and [manage_keys.py] *)

(** ** API keys

    [api_keys.json] holds one object under ["keys"], user name to key;
    it is kept here as its items in file order. *)

(** [del d[k]] *)
Fixpoint od_del {V} (k : string) (d : list (string * V)) : list (string * V) :=
  match d with
  | [] => []
  | (k', v) :: d' => if decide (k = k') then d' else (k', v) :: od_del k d'
  end.

(** The start-up block of [server.py]: a missing key file is created
    with one key, [key] being the token drawn for it. *)
Definition startup_keys (file : option (list (string * string))) (key : string)
  : list (string * string) :=
  match file with
  | Some keys => keys
  | None => [("admin", key)]
  end.

(** [next(u for u, k in keys.items() if k == api_key)] *)
Fixpoint next_user (api_key : string) (keys : list (string * string)) : option string :=
  match keys with
  | [] => None
  | (u, k) :: keys' => if decide (k = api_key) then Some u else next_user api_key keys'
  end.

(** [get_user]; [api_key] is [None] when the request has no
    [X-API-Key] header. An exhausted generator ([StopIteration]) is
    shown as status 500. *)
Definition get_user (keys : list (string * string)) (api_key : option string) : http string :=
  if bool_decide (api_key ∈ Some <$> keys.*2) then
    match api_key ≫= λ k, next_user k keys with
    | Some u => OK u
    | None => HTTPException 500 "StopIteration"
    end
  else HTTPException 403 "Invalid API key".

(** What [manage_keys.py] prints, and the messages it exits with. *)
Inductive mk_line :=
| L_doc
| L_usage_add
| L_usage_gen
| L_usage_remove
| L_saved
| L_added (u : string)
| L_generated (u key : string)
| L_removed (u : string)
| L_not_found
| L_no_keys
| L_entry (u key : string).

(** One run of the tool. *)
Record mk_run := mkRun {
  mk_file : option (list (string * string));
  mk_printed : list mk_line;
  mk_exit : option mk_line;
}.

(** [main] of [manage_keys.py] on the arguments [args], the key file
    ([None] when it does not exist); [token] is what
    [secrets.token_urlsafe(24)] draws for [gen]. *)
Definition manage_keys_main (args : list string)
    (file : option (list (string * string))) (token : string) : mk_run :=
  match args with
  | [] => mkRun file [] (Some L_doc)
  | cmd :: rest =>
      let keys := default [] file in
      if decide (cmd = "list") then
        mkRun file
          ((if bool_decide (keys = []) then [L_no_keys] else [])
           ++ ((λ uk, L_entry uk.1 uk.2) <$> keys)) None
      else if decide (cmd = "add") then
        match rest with
        | u :: k :: _ => mkRun (Some (od_set u k keys)) [L_saved; L_added u] None
        | _ => mkRun file [] (Some L_usage_add)
        end
      else if decide (cmd = "gen") then
        match rest with
        | u :: _ => mkRun (Some (od_set u token keys)) [L_saved; L_generated u token] None
        | [] => mkRun file [] (Some L_usage_gen)
        end
      else if decide (cmd = "remove") then
        match rest with
        | u :: _ =>
            match od_get u keys with
            | Some _ => mkRun (Some (od_del u keys)) [L_saved; L_removed u] None
            | None => mkRun file [L_not_found] None
            end
        | [] => mkRun file [] (Some L_usage_remove)
        end
      else mkRun file [] (Some L_doc)
  end.

(** ** What yt-dlp returns *)

Record Entry := mkEntry {
  e_id : option string;
  e_title : option string;
  e_uploader : option string;
  e_channel : option string;
  e_duration : option Z;
  e_thumbnail : option string;
}.

Record Format := mkFormat {
  f_abr : option Q;
  f_acodec : option string;
  f_url : option string;
}.

Record Info := mkInfo {
  i_id : option string;
  i_title : option string;
  i_uploader : option string;
  i_duration : option Z;
  i_thumbnail : option string;
  i_description : option string;
  i_entries : option (list Entry);
  i_formats : option (list Format);
}.

(** [raw if isinstance(raw, dict) else {}] *)
Definition info_of (raw : option Info) : Info :=
  match raw with
  | Some info => info
  | None => mkInfo None None None None None None None None
  end.

(** Truth value of a string or [None], and [a or b]. *)
Definition truthy (v : option string) : bool :=
  match v with
  | Some s => negb (bool_decide (s = ""))
  | None => false
  end.

Definition py_or (a b : option string) : option string :=
  if truthy a then a else b.

(** [v or ""] *)
Definition or_empty (v : option string) : string :=
  match py_or v (Some "") with Some s => s | None => "" end.

Definition _entry_to_track (e : Entry) : Track :=
  let vid_id := or_empty (e_id e) in
  mkTrack (IdStr vid_id) (e_title e) (py_or (e_uploader e) (e_channel e))
    (e_duration e)
    (py_or (e_thumbnail e)
       (Some ("https://i.ytimg.com/vi/" +:+ vid_id +:+ "/mqdefault.jpg")))
    (Some ("https://www.youtube.com/watch?v=" +:+ vid_id))
    None.

(** [ext] is what [ydl.extract_info] returns or raises. *)
Definition _sync_search (ext : result (option Info)) : result (list Track) :=
  match ext with
  | Raise e => Raise e
  | Return raw =>
      let entries := default [] (i_entries (info_of raw)) in
      Return (_entry_to_track <$> filter (λ e, truthy (e_id e) = true) entries)
  end.

Definition _sync_related (video_id : string) (ext : result (option Info))
  : result (list Track) :=
  match ext with
  | Raise e => Raise e
  | Return raw =>
      let entries := default [] (i_entries (info_of raw)) in
      Return (take 12
                (_entry_to_track <$>
                   filter (λ e, truthy (e_id e) = true ∧ e_id e ≠ Some video_id) entries))
  end.

(** [x.get("abr") or 0] *)
Definition abr_key (x : Format) : Q :=
  match f_abr x with
  | Some q => q
  | None => 0%Q
  end.

(** [sorted(formats, key=..., reverse=True)]: descending, equal keys
    in input order. *)
Fixpoint insert_by_abr (x : Format) (l : list Format) : list Format :=
  match l with
  | [] => [x]
  | y :: l' =>
      if Qle_bool (abr_key y) (abr_key x) then x :: y :: l'
      else y :: insert_by_abr x l'
  end.

Definition sorted_by_abr (formats : list Format) : list Format :=
  foldr insert_by_abr [] formats.

(** [fmt.get("acodec") != "none" and fmt.get("url")] *)
Definition usable (fmt : Format) : bool :=
  negb (bool_decide (f_acodec fmt = Some "none")) && truthy (f_url fmt).

(** A continuation byte [10xxxxxx] of a UTF-8 sequence. *)
Definition is_continuation (c : Ascii.ascii) : bool :=
  let n := Ascii.nat_of_ascii c in
  (128 <=? n)%nat && (n <? 192)%nat.

(** [len(s)]: the number of characters. *)
Fixpoint str_len (s : string) : nat :=
  match s with
  | EmptyString => 0
  | String c s' => (if is_continuation c then 0 else 1) + str_len s'
  end.

(** [s[:n]]: the first [n] characters, each with all its bytes. *)
Fixpoint str_prefix (n : nat) (s : string) : string :=
  match s with
  | EmptyString => EmptyString
  | String c s' =>
      if is_continuation c then String c (str_prefix n s')
      else match n with
           | 0 => EmptyString
           | S n' => String c (str_prefix n' s')
           end
  end.

(** ["id": info.get("id")]: the key is there, whatever it holds. *)
Definition id_of_get (v : option string) : IdField :=
  match v with
  | Some s => IdStr s
  | None => IdNull
  end.

Definition _sync_audio_url (ext : result (option Info)) : result (string * Track) :=
  match ext with
  | Raise e => Raise e
  | Return raw =>
      let info := info_of raw in
      let formats := default [] (i_formats info) in
      match head (filter (λ fmt, usable fmt = true) (sorted_by_abr formats)) with
      | None => Raise (ValueError "No audio format found")
      | Some fmt =>
          let audio_url := or_empty (f_url fmt) in
          let desc := or_empty (i_description info) in
          Return (audio_url,
                  mkTrack (id_of_get (i_id info)) (i_title info) (i_uploader info)
                    (i_duration info) (i_thumbnail info) None
                    (Some (str_prefix 300 desc)))
      end
  end.

(** ** Track metadata

    Where a [fetch_track_info] coroutine stands: before its guard, or
    inside the [fetch_stream] it awaits. *)
Inductive fti_pc :=
| FTI_entry
| FTI_stream (pc : fs_pc)
| FTI_return (info : Track)
| FTI_raise (e : exn).

(** [_, info = await fetch_stream(video_id); return info] *)
Definition fti_of (pc : fs_pc) : fti_pc :=
  match pc with
  | FS_return (_, info) => FTI_return info
  | FS_raise e => FTI_raise e
  | _ => FTI_stream pc
  end.

Definition fetch_track_info (video_id : string) (now : Q)
    (ext : result (string * Track)) (pc : fti_pc) (m : Mem) : option (fti_pc * Mem) :=
  match pc with
  | FTI_entry =>
      match ttl_lookup ie_ts AUDIO_URL_TTL now (_track_info_cache m !! video_id) with
      | Some cached => Some (FTI_return (ie_info cached), m)
      | None =>
          match fetch_stream video_id now ext FS_entry m with
          | Some (pc', m') => Some (fti_of pc', m')
          | None => None
          end
      end
  | FTI_stream pc =>
      match fetch_stream video_id now ext pc m with
      | Some (pc', m') => Some (fti_of pc', m')
      | None => None
      end
  | FTI_return _ | FTI_raise _ => None
  end.

(** ** The stream route *)

(** [s.split(",")] *)
Fixpoint split_comma (s : string) : list string :=
  match s with
  | EmptyString => [EmptyString]
  | String c s' =>
      if decide (c = Ascii.ascii_of_nat 44) then EmptyString :: split_comma s'
      else match split_comma s' with
           | piece :: pieces => String c piece :: pieces
           | [] => [String c EmptyString]
           end
  end.

(** [str(exc)] *)
Definition exn_message (e : exn) : string :=
  match e with
  | DownloadError msg => msg
  | ValueError msg => msg
  end.

(** [stream_audio] from the point where [fetch_stream] has returned or
    raised [res]; nothing suspends from there to the response. *)
Definition stream_audio (username next_ids : string) (res : result (string * Track))
    (fs : UserFiles) (w : World) : http (string * Track) * UserFiles * World :=
  match res with
  | Return (audio_url, track_info) =>
      let fs := record_play fs username track_info in
      let w :=
        if bool_decide (next_ids = "") then w
        else prefetch_next w (filter (λ v, v ≠ "") (split_comma next_ids)) in
      (OK (audio_url, track_info), fs, w)
  | Raise e => (HTTPException 500 (exn_message e), fs, w)
  end.

(** ** Suggestions

    [related] is what [await fetch_related(seed["id"])] gives, an
    exception raised on the way being [Raise]; [now], [ext], [now']
    belong to the [cached_search] call, if one is made.
    The answer pairs the suggestions with ["based_on"]. *)
Definition suggestions (fs : UserFiles) (username : string)
    (related : result (list Track)) (now : Q) (ext : result (list Track)) (now' : Q)
  : result (list Track * option string) * UserFiles :=
  match history (load_user fs username) with
  | [] =>
      match cached_search fs username "trending music 2025" now ext now' with
      | (Return results, fs') => (Return (results, Some "trending"), fs')
      | (Raise e, fs') => (Raise e, fs')
      end
  | seed :: _ =>
      match related with
      | Raise e => (Raise e, fs)
      | Return [] =>
          let channel := or_empty (py_or (track_channel seed) (Some "music")) in
          match cached_search fs username (channel +:+ " music") now ext now' with
          | (Return results, fs') => (Return (results, track_title seed), fs')
          | (Raise e, fs') => (Raise e, fs')
          end
      | Return related => (Return (related, track_title seed), fs)
      end
  end.

(** ** More playlist routes *)

Definition delete_playlist (fs : UserFiles) (playlist_id username : string)
  : http bool * UserFiles :=
  let data := load_user fs username in
  match playlists data !! playlist_id with
  | None => (HTTPException 404 "Playlist not found", fs)
  | Some _ =>
      (OK true,
       save_user fs username (set_playlists (delete playlist_id (playlists data)) data))
  end.

Definition rename_playlist (fs : UserFiles) (playlist_id name username : string)
  : http (string * string) * UserFiles :=
  let data := load_user fs username in
  match playlists data !! playlist_id with
  | None => (HTTPException 404 "Playlist not found", fs)
  | Some pl =>
      (OK (playlist_id, name),
       save_user fs username
         (set_playlists
            (<[playlist_id := mkPlaylist name (pl_tracks pl) (pl_created_at pl)]>
               (playlists data)) data))
  end.

(** ** Bookkeeping for the properties *)

(** Whose record a store operation works on. *)
Definition op_user (op : StoreOp) : string :=
  match op with
  | Op_play u _ | Op_search u _ _ _ _ | Op_like _ u | Op_unlike _ u
  | Op_create _ u _ _ | Op_add _ _ u | Op_remove _ _ u | Op_reorder _ _ u => u
  end.

(** Events are handed out in order, and an in-flight entry names an
    event that is not set and belongs to a call still in the executor;
    no two calls share an event. *)
Definition events_ok (w : World) : Prop :=
  (∀ ev, ev ∈ events_set (w_mem w) → ev < next_event (w_mem w))
  ∧ (∀ i t ev, w_tasks w !! i = Some t → t_pc t = FS_run ev →
       ev < next_event (w_mem w) ∧ ev ∉ events_set (w_mem w))
  ∧ (∀ i t ev, w_tasks w !! i = Some t → t_pc t = FS_wait ev →
       ev < next_event (w_mem w))
  ∧ (∀ i j t t' ev, w_tasks w !! i = Some t → w_tasks w !! j = Some t' →
       t_pc t = FS_run ev → t_pc t' = FS_run ev → i = j)
  ∧ (∀ vid ev, _audio_url_inflight (w_mem w) !! vid = Some ev →
       ∃ i t, w_tasks w !! i = Some t ∧ t_vid t = vid ∧ t_pc t = FS_run ev).

(** The URL cache and the metadata cache hold the same identifiers. *)
Definition caches_paired (m : Mem) : Prop :=
  ∀ vid, is_Some (_audio_url_cache m !! vid) ↔ is_Some (_track_info_cache m !! vid).

(** One request to a route that can write a user's file: the store
    operations above, the two remaining playlist routes and the
    suggestions route (which may store a search). *)
Inductive Route :=
| Rt_op (op : StoreOp)
| Rt_delete (playlist_id username : string)
| Rt_rename (playlist_id name username : string)
| Rt_suggestions (username : string) (related : result (list Track))
    (now : Q) (ext : result (list Track)) (now' : Q).

(** [Depends(get_user)]: the user the request runs as. *)
Definition route_user (r : Route) : string :=
  match r with
  | Rt_op op => op_user op
  | Rt_delete _ u | Rt_rename _ _ u | Rt_suggestions u _ _ _ _ => u
  end.

Definition handle (fs : UserFiles) (r : Route) : UserFiles :=
  match r with
  | Rt_op op => apply_op fs op
  | Rt_delete pid u => (delete_playlist fs pid u).2
  | Rt_rename pid name u => (rename_playlist fs pid name u).2
  | Rt_suggestions u related now ext now' => (suggestions fs u related now ext now').2
  end.

(** ** [cached_search] around its suspension

    [cached_search] reads the user's file, suspends in [_run] on a
    miss, and, when [_sync_search] is back, writes the record it read
    with the new cache; the loop serves other requests in between.
    The other routes go from [load_user] to [save_user] without an
    [await]. *)
Inductive cs_pc :=
| CS_return (results : list Track)
| CS_run (data : UserData) (key : string).

(** Up to [await _run(_sync_search, query)]. *)
Definition cached_search_begin (fs : UserFiles) (username query : string) (now : Q)
  : cs_pc :=
  let data := load_user fs username in
  let cache := search_cache data in
  let key := search_key query in
  match ttl_lookup se_ts SEARCH_CACHE_TTL now (od_get key cache) with
  | Some entry => CS_return (se_results entry)
  | None => CS_run data key
  end.

(** From there on; [data] and [key] are the coroutine's locals, [fs]
    the files as they are by then. *)
Definition cached_search_resume (fs : UserFiles) (username : string) (data : UserData)
    (key : string) (ext : result (list Track)) (now' : Q)
  : result (list Track) * UserFiles :=
  match ext with
  | Raise e => (Raise e, fs)
  | Return results =>
      let cache := od_set key (mkSearchEntry now' results) (search_cache data) in
      let cache :=
        if (50 <? length cache)%nat
        then dict_of (last_n 50 (sorted_by_ts cache))
        else cache in
      (Return results, save_user fs username (set_search_cache cache data))
  end.

(** A search suspended in [_run]. *)
Record Pending := mkPending { p_user : string; p_data : UserData; p_key : string }.

(** What the loop does next: serve a request from start to end, start
    a search, or resume the suspended search number [i]. *)
Inductive Step :=
| St_route (r : Route)
| St_search_begin (username query : string) (now : Q)
| St_search_end (i : nat) (ext : result (list Track)) (now' : Q).

Definition step (s : UserFiles * list Pending) (e : Step) : UserFiles * list Pending :=
  let '(fs, pending) := s in
  match e with
  | St_route r => (handle fs r, pending)
  | St_search_begin u q now =>
      match cached_search_begin fs u q now with
      | CS_return _ => (fs, pending)
      | CS_run data key => (fs, pending ++ [mkPending u data key])
      end
  | St_search_end i ext now' =>
      match pending !! i with
      | None => (fs, pending)
      | Some p =>
          ((cached_search_resume fs (p_user p) (p_data p) (p_key p) ext now').2,
           delete i pending)
      end
  end.

(** ** Queries up to letter case and surrounding blanks

    What it is for two ASCII queries to differ in the case of their
    letters and in leading and trailing blanks only, said without
    [search_key]. *)
Fixpoint all_chars (P : Ascii.ascii → bool) (s : string) : bool :=
  match s with
  | EmptyString => true
  | String c s' => P c && all_chars P s'
  end.

Definition ascii_text (s : string) : bool :=
  all_chars (λ c, (Ascii.nat_of_ascii c <? 128)%nat) s.

(** Python's white space among the ASCII characters: tab to carriage
    return, the four separators, and the space. *)
Definition blank_text (s : string) : bool :=
  all_chars (λ c, let n := Ascii.nat_of_ascii c in
                  ((9 <=? n) && (n <=? 13) || (28 <=? n) && (n <=? 32))%nat) s.

(** The same character, or a letter [A]..[Z] and its small letter. *)
Definition same_letter (a b : Ascii.ascii) : bool :=
  let m := Ascii.nat_of_ascii a in
  let n := Ascii.nat_of_ascii b in
  ((m =? n) || (65 <=? m) && (m <=? 90) && (n =? m + 32)
   || (65 <=? n) && (n <=? 90) && (m =? n + 32))%nat.

Fixpoint same_letters (s1 s2 : string) : bool :=
  match s1, s2 with
  | EmptyString, EmptyString => true
  | String a s1', String b s2' => same_letter a b && same_letters s1' s2'
  | _, _ => false
  end.

Definition same_query (q1 q2 : string) : Prop :=
  ascii_text q1 = true ∧ ascii_text q2 = true
  ∧ ∃ l1 c1 r1 l2 c2 r2,
      q1 = l1 +:+ c1 +:+ r1 ∧ q2 = l2 +:+ c2 +:+ r2
      ∧ blank_text l1 = true ∧ blank_text r1 = true
      ∧ blank_text l2 = true ∧ blank_text r2 = true
      ∧ same_letters c1 c2 = true.

(** * Properties *)

(** ** The definitions at work *)

Example search_key_normalizes : search_key "  Daft PUNK " = "daft punk".
Proof. reflexivity. Qed.

Example sorted_by_ts_is_stable :
  sorted_by_ts [("c", mkSearchEntry 3 []); ("a", mkSearchEntry 1 []);
                ("b", mkSearchEntry 1 []); ("d", mkSearchEntry 2 [])]
  = [("a", mkSearchEntry 1 []); ("b", mkSearchEntry 1 []);
     ("d", mkSearchEntry 2 []); ("c", mkSearchEntry 3 [])].
Proof. reflexivity. Qed.

Example last_n_slice : last_n 2 [1; 2; 3] = [2; 3] ∧ last_n 5 [1; 2; 3] = [1; 2; 3].
Proof. split; reflexivity. Qed.

Example od_set_keeps_place :
  od_set "a" 9 [("a", 1); ("b", 2)] = [("a", 9); ("b", 2)]
  ∧ od_set "c" 9 [("a", 1); ("b", 2)] = [("a", 1); ("b", 2); ("c", 9)].
Proof. split; reflexivity. Qed.

Example fresh_at_the_edge :
  fresh 14399 0 AUDIO_URL_TTL = true ∧ fresh 14400 0 AUDIO_URL_TTL = false.
Proof. split; reflexivity. Qed.

Example track_map_last_wins :
  track_map_of [mkTrack (IdStr "A") (Some "old") None None None None None;
                mkTrack (IdStr "A") (Some "new") None None None None None]
    !! Some "A"
  = Some (mkTrack (IdStr "A") (Some "new") None None None None None).
Proof. reflexivity. Qed.


(** ** Play history *)

Section history.
Implicit Types (fs : UserFiles) (h plays : list Track) (t : Track).

Lemma load_save_user fs u d : load_user (save_user fs u d) u = d.
Proof. unfold load_user, save_user. by rewrite lookup_insert_eq. Qed.

Lemma load_save_user_ne fs u u' d :
  u ≠ u' → load_user (save_user fs u d) u' = load_user fs u'.
Proof. intros. unfold load_user, save_user. by rewrite lookup_insert_ne. Qed.

Lemma record_play_history fs u t :
  history (load_user (record_play fs u t) u) = played (history (load_user fs u)) t.
Proof. unfold record_play. by rewrite load_save_user. Qed.

Lemma record_plays_history fs u plays :
  history (load_user (record_plays fs u plays) u)
  = foldl played (history (load_user fs u)) plays.
Proof.
  unfold record_plays. revert fs.
  induction plays as [|t plays IH]; intros fs; [done|].
  simpl. by rewrite IH, record_play_history.
Qed.

Lemma filter_other_ids h t :
  track_id t ∉ track_id <$> h →
  filter (λ x, track_id x ≠ track_id t) h = h.
Proof.
  induction h as [|x h IH]; [done|].
  rewrite fmap_cons, not_elem_of_cons. intros [Hx Hh].
  rewrite filter_cons_True by done. by rewrite IH.
Qed.

(** Distinct plays pile up in reverse order in front of what is
    left of the earlier history. *)
Lemma played_distinct plays h :
  length h ≤ 200 →
  NoDup (track_id <$> plays) →
  ∃ rest, foldl played h plays = take 200 (reverse plays ++ rest).
Proof.
  intros Hh. induction plays as [|t plays IH] using rev_ind; intros Hnd.
  - exists h. simpl. by rewrite take_ge.
  - rewrite fmap_app in Hnd. apply NoDup_app in Hnd as (Hnd & Hnot & _).
    destruct (IH Hnd) as [rest Hrest].
    assert (track_id t ∉ track_id <$> reverse plays) as Ht.
    { rewrite fmap_reverse, elem_of_reverse. intros Hin.
      apply (Hnot _ Hin). simpl. left. }
    rewrite foldl_snoc, Hrest, reverse_snoc. unfold played at 1.
    destruct (decide (200 ≤ length (reverse plays))) as [Hlen|Hlen].
    + exists []. rewrite (take_app_le _ rest) by done.
      rewrite filter_other_ids.
      2:{ intros Hin. apply Ht. eapply list_elem_of_fmap in Hin as (x & -> & Hx).
          apply list_elem_of_fmap. exists x. split; [done|].
          by eapply subseteq_take. }
      simpl. rewrite take_take. rewrite app_nil_r. by rewrite Nat.min_l by lia.
    + exists (filter (λ x, track_id x ≠ track_id t)
                (take (200 - length (reverse plays)) rest)).
      rewrite take_app_ge by lia. rewrite filter_app, filter_other_ids by done.
      done.
Qed.

Lemma played_length h t : length (played h t) ≤ 200.
Proof. unfold played. rewrite length_take. lia. Qed.

Lemma played_many h plays :
  NoDup (track_id <$> plays) → length plays = 201 →
  foldl played h plays = reverse (drop 1 plays).
Proof.
  destruct plays as [|t0 plays]; [done|]. intros Hnd Hlen.
  simpl in *. rewrite drop_0.
  apply NoDup_cons in Hnd as [_ Hnd].
  destruct (played_distinct plays (played h t0) (played_length h t0) Hnd)
    as [rest ->].
  rewrite take_app_le by (rewrite length_reverse; lia).
  apply take_ge. rewrite length_reverse. lia.
Qed.

Lemma played_abac a b c :
  track_id a ≠ track_id b → track_id a ≠ track_id c → track_id b ≠ track_id c →
  foldl played [] [a; b; a; c] = [c; a; b].
Proof.
  intros Hab Hac Hbc. simpl. unfold played.
  repeat (simpl; rewrite ?filter_nil, ?filter_cons; repeat case_decide; try done).
Qed.
End history.

(** C2. [record_play] removes every history entry carrying the played
    track's identifier, puts the track in front and keeps the first 200
    entries. Playing A, B, A, C on an empty history leaves [C; A; B];
    201 plays with distinct identifiers leave exactly the last 200, most
    recent first, the first one played being gone. *)
Theorem record_play_dedup_prepend_cap :
  (∀ (fs : UserFiles) u t,
     history (load_user (record_play fs u t) u)
     = take 200 (t :: filter (λ x, track_id x ≠ track_id t)
                        (history (load_user fs u))))
  ∧ (∀ (fs : UserFiles) u a b c,
       history (load_user fs u) = [] →
       track_id a ≠ track_id b → track_id a ≠ track_id c →
       track_id b ≠ track_id c →
       history (load_user (record_plays fs u [a; b; a; c]) u) = [c; a; b])
  ∧ (∀ (fs : UserFiles) u plays,
       NoDup (track_id <$> plays) → length plays = 201 →
       let h := history (load_user (record_plays fs u plays) u) in
       h = reverse (drop 1 plays) ∧ length h = 200
       ∧ ∀ t0, plays !! 0 = Some t0 → track_id t0 ∉ track_id <$> h).
Proof.
  split; [|split].
  - intros. apply record_play_history.
  - intros fs u a b c Hh Hab Hac Hbc.
    rewrite record_plays_history, Hh. by apply played_abac.
  - intros fs u plays Hnd Hlen. cbv zeta.
    rewrite record_plays_history, played_many by done.
    split; [done|]. split.
    + rewrite length_reverse, length_drop. lia.
    + intros t0 Ht0. destruct plays as [|t plays]; [done|].
      simpl in Ht0. injection Ht0 as ->. simpl. rewrite drop_0.
      rewrite fmap_reverse, elem_of_reverse.
      simpl in Hnd. by apply NoDup_cons in Hnd as [? _].
Qed.

Lemma record_play_dedup_prepend_cap_witness :
  let A := mkTrack (IdStr "A") None None None None None None in
  let B := mkTrack (IdStr "B") None None None None None None in
  let C := mkTrack (IdStr "C") None None None None None None in
  let many := (λ n, mkTrack (IdStr (String (Ascii.ascii_of_nat n) EmptyString))
                      None None None None None None) <$> seq 0 201 in
  history (load_user (record_plays ∅ "alice" [A; B; A; C]) "alice") = [C; A; B]
  ∧ length (history (load_user (record_plays ∅ "alice" many) "alice")) = 200.
Proof.
  intros A B C many. split.
  - apply (proj1 (proj2 record_play_dedup_prepend_cap));
      [reflexivity | discriminate | discriminate | discriminate].
  - apply (proj2 (proj2 record_play_dedup_prepend_cap) ∅ "alice" many).
    + apply (bool_decide_unpack _). vm_compute. exact I.
    + reflexivity.
Defined.

(** C10. [GET /api/history] answers with the first 50 entries of the
    stored history, never more, while [record_play] keeps up to 200 of
    them on file: an entry at position 50 or beyond stays stored and is
    not part of the answer. *)
Theorem get_history_first_50 :
  (∀ (fs : UserFiles) u,
     get_history fs u = take 50 (history (load_user fs u))
     ∧ length (get_history fs u) ≤ 50
     ∧ ∀ i, 50 ≤ i → get_history fs u !! i = None)
  ∧ (∀ (fs : UserFiles) u t,
       length (history (load_user (record_play fs u t) u)) ≤ 200)
  ∧ (∀ (fs : UserFiles) u plays,
       NoDup (track_id <$> plays) → length plays = 201 →
       let fs' := record_plays fs u plays in
       length (history (load_user fs' u)) = 200
       ∧ length (get_history fs' u) = 50
       ∧ get_history fs' u = take 50 (reverse plays)
       ∧ ∀ i, 50 ≤ i < 200 → is_Some (history (load_user fs' u) !! i)
                              ∧ get_history fs' u !! i = None).
Proof.
  split; [|split].
  - intros fs u. split; [done|]. unfold get_history. split.
    + rewrite length_take. lia.
    + intros i Hi. apply lookup_take_ge. lia.
  - intros fs u t. rewrite record_play_history. apply played_length.
  - intros fs u plays Hnd Hlen. cbv zeta. unfold get_history.
    rewrite record_plays_history, played_many by done.
    assert (length (reverse (drop 1 plays)) = 200) as Hl.
    { rewrite length_reverse, length_drop. lia. }
    split; [done|]. split; [rewrite length_take; lia|]. split.
    + rewrite reverse_drop, take_take, Hlen. done.
    + intros i Hi. split.
      * apply lookup_lt_is_Some. lia.
      * apply lookup_take_ge. lia.
Qed.

Lemma get_history_first_50_witness :
  let many := (λ n, mkTrack (IdStr (String (Ascii.ascii_of_nat n) EmptyString))
                      None None None None None None) <$> seq 0 201 in
  let fs' := record_plays ∅ "alice" many in
  length (history (load_user fs' "alice")) = 200
  ∧ length (get_history fs' "alice") = 50.
Proof.
  intros many fs'.
  destruct (proj2 (proj2 get_history_first_50) ∅ "alice" many) as (H1 & H2 & _).
  - apply (bool_decide_unpack _). vm_compute. exact I.
  - reflexivity.
  - split; [exact H1 | exact H2].
Defined.

(** ** Likes *)

Section likes.
Implicit Types (fs : UserFiles) (l : list string) (v u : string).

Lemma get_liked_like fs v u :
  get_liked (like_track fs v u) u
  = take 500 (if decide (v ∈ get_liked fs u) then get_liked fs u
              else v :: get_liked fs u).
Proof. unfold get_liked, like_track. by rewrite load_save_user. Qed.

Lemma get_liked_unlike fs v u :
  get_liked (unlike_track fs v u) u = filter (λ x, x ≠ v) (get_liked fs u).
Proof. unfold get_liked, unlike_track. by rewrite load_save_user. Qed.

Lemma get_liked_like_absent fs v u :
  v ∉ get_liked fs u →
  get_liked (like_track fs v u) u = v :: take 499 (get_liked fs u).
Proof. intros Hv. rewrite get_liked_like. by rewrite decide_False. Qed.

Lemma get_liked_like_present fs v u :
  v ∈ get_liked fs u → length (get_liked fs u) ≤ 500 →
  get_liked (like_track fs v u) u = get_liked fs u.
Proof.
  intros Hv Hlen. rewrite get_liked_like, decide_True by done.
  by apply take_ge.
Qed.

(** Saving the same record twice is saving it once. *)
Lemma like_track_fixpoint fs v u :
  get_liked (like_track fs v u) u = get_liked fs u →
  like_track fs v u = fs.
Proof.
  rewrite get_liked_like.
  unfold get_liked, like_track, save_user, load_user.
  destruct (fs !! u) as [d|] eqn:Hd; simpl; [|done].
  intros Heq. apply insert_id. rewrite Hd. f_equal.
  destruct d; simpl in *. unfold set_liked. simpl. by rewrite Heq.
Qed.

(** What [like_track] and [unlike_track] write is unique and capped. *)
Lemma like_track_invariant fs v u u' :
  NoDup (get_liked fs u') ∧ length (get_liked fs u') ≤ 500 →
  NoDup (get_liked (like_track fs v u) u')
  ∧ length (get_liked (like_track fs v u) u') ≤ 500.
Proof.
  intros [Hnd Hlen]. destruct (decide (u = u')) as [<-|Hne].
  - rewrite get_liked_like. split; [|rewrite length_take; lia].
    eapply sublist_NoDup; [|apply sublist_take].
    case_decide; [done|]. by apply NoDup_cons.
  - unfold get_liked, like_track. by rewrite load_save_user_ne.
Qed.

Lemma unlike_track_invariant fs v u u' :
  NoDup (get_liked fs u') ∧ length (get_liked fs u') ≤ 500 →
  NoDup (get_liked (unlike_track fs v u) u')
  ∧ length (get_liked (unlike_track fs v u) u') ≤ 500.
Proof.
  intros [Hnd Hlen]. destruct (decide (u = u')) as [<-|Hne].
  - rewrite get_liked_unlike. split; [by apply NoDup_filter|].
    etrans; [apply length_filter|done].
  - unfold get_liked, unlike_track. by rewrite load_save_user_ne.
Qed.

Lemma filter_eq_absent l v : v ∉ l → filter (λ x, x = v) l = [].
Proof.
  induction l as [|x l IH]; [done|]. intros [Hx Hl]%not_elem_of_cons.
  rewrite filter_cons_False by congruence. auto.
Qed.

End likes.

(** C9. Liking an identifier that is not in the liked list puts it in
    front and keeps the first 500 entries; liking it a second time
    changes nothing, neither the list nor the rest of the record, and
    the identifier is then in the list exactly once, in front. This
    holds of every record, whatever its liked list holds. *)
Theorem like_track_idempotent :
  ∀ (fs : UserFiles) v u,
    v ∉ get_liked fs u →
    let once := like_track fs v u in
    let twice := like_track once v u in
    get_liked once u = take 500 (v :: get_liked fs u)
    ∧ get_liked once u = v :: take 499 (get_liked fs u)
    ∧ length (get_liked once u) ≤ 500
    ∧ twice = once
    ∧ get_liked twice u = get_liked once u
    ∧ filter (λ x, x = v) (get_liked twice u) = [v]
    ∧ head (get_liked twice u) = Some v.
Proof.
  intros fs v u Hv once twice.
  assert (get_liked once u = v :: take 499 (get_liked fs u)) as Honce.
  { by apply get_liked_like_absent. }
  assert (length (get_liked once u) ≤ 500) as Hlen.
  { rewrite Honce. simpl. rewrite length_take. lia. }
  assert (twice = once) as Htwice.
  { apply like_track_fixpoint. apply get_liked_like_present; [|done].
    rewrite Honce. left. }
  rewrite Htwice. split; [|split; [done|split; [done|split; [done|split; [done|]]]]].
  - subst once. by rewrite get_liked_like, decide_False.
  - rewrite Honce. split; [|done].
    rewrite filter_cons_True by done. f_equal. apply filter_eq_absent.
    intros Hin. by apply subseteq_take in Hin.
Qed.

Lemma like_track_idempotent_witness :
  let fs := like_track ∅ "a" "bob" in
  like_track (like_track fs "v" "bob") "v" "bob" = like_track fs "v" "bob"
  ∧ get_liked (like_track (like_track fs "v" "bob") "v" "bob") "bob" = ["v"; "a"].
Proof.
  intros fs.
  destruct (like_track_idempotent fs "v" "bob") as (_ & H2 & _ & H4 & H5 & _).
  - apply (bool_decide_unpack _). vm_compute. exact I.
  - split; [exact H4|]. rewrite H5, H2. vm_compute. reflexivity.
Defined.

(** ** Playlists *)

Section playlists.
Implicit Types (fs : UserFiles) (pl : Playlist) (tracks : list Track)
  (t : Track) (pid u : string).

Lemma playlist_tracks_saved fs u pid pl tracks :
  playlist_tracks
    (save_user fs u
       (set_playlists (<[pid := set_tracks tracks pl]> (playlists (load_user fs u)))
          (load_user fs u))) pid u = tracks.
Proof.
  unfold playlist_tracks. rewrite load_save_user. simpl.
  by rewrite lookup_insert_eq.
Qed.

Lemma playlist_tracks_lookup fs u pid pl :
  playlists (load_user fs u) !! pid = Some pl →
  playlist_tracks fs pid u = pl_tracks pl.
Proof. unfold playlist_tracks. by intros ->. Qed.

(** The key [k] of the comprehension holds the last track carrying it. *)
Lemma track_map_of_lookup tracks k :
  track_map_of tracks !! k = last (filter (λ t, track_id t = k) tracks).
Proof.
  unfold track_map_of.
  induction tracks as [|t tracks IH] using rev_ind; [done|].
  rewrite foldl_snoc, filter_app, last_app.
  destruct (decide (track_id t = k)) as [<-|Hne].
  - rewrite lookup_insert_eq. by rewrite filter_cons_True.
  - rewrite lookup_insert_ne by done. by rewrite filter_cons_False.
Qed.

Lemma track_map_of_Some tracks k t :
  track_map_of tracks !! k = Some t → t ∈ tracks ∧ track_id t = k.
Proof.
  rewrite track_map_of_lookup. intros Hlast%last_Some_elem_of.
  by apply list_elem_of_filter in Hlast as [? ?].
Qed.

Lemma track_map_of_is_Some tracks k :
  is_Some (track_map_of tracks !! k) ↔ k ∈ track_id <$> tracks.
Proof.
  split.
  - intros [t [Ht <-]%track_map_of_Some]. by apply list_elem_of_fmap_2.
  - intros (t & -> & Ht)%list_elem_of_fmap.
    rewrite track_map_of_lookup.
    destruct (last _) eqn:Hl; [by eexists|].
    apply last_None in Hl.
    destruct (filter_nil_not_elem_of _ _ t Hl eq_refl Ht).
Qed.

Lemma omap_cons_lookup {A B} (f : A → option B) x l :
  omap f (x :: l) = match f x with Some y => y :: omap f l | None => omap f l end.
Proof. done. Qed.

Lemma reorder_ids tracks (track_ids : list string) :
  track_id <$> omap (λ tid, track_map_of tracks !! Some tid) track_ids
  = Some <$> filter (λ tid, Some tid ∈ track_id <$> tracks) track_ids.
Proof.
  induction track_ids as [|tid track_ids IH]; [done|].
  rewrite omap_cons_lookup.
  destruct (track_map_of tracks !! Some tid) as [t|] eqn:Ht.
  - rewrite filter_cons_True.
    2:{ apply track_map_of_is_Some. by eexists. }
    rewrite !fmap_cons, IH. f_equal.
    by apply track_map_of_Some in Ht as [_ ?].
  - rewrite filter_cons_False; [done|].
    rewrite <-track_map_of_is_Some, Ht. by intros [? ?].
Qed.

Lemma reorder_members tracks (track_ids : list string) t :
  t ∈ omap (λ tid, track_map_of tracks !! Some tid) track_ids → t ∈ tracks.
Proof.
  intros (tid & _ & Ht)%list_elem_of_omap.
  by apply track_map_of_Some in Ht as [? _].
Qed.

Lemma reorder_playlist_tracks fs pid (track_ids : list string) u pl :
  playlists (load_user fs u) !! pid = Some pl →
  forallb has_id_key (pl_tracks pl) = true →
  reorder_playlist fs pid track_ids u
  = (OK (length (omap (λ tid, track_map_of (pl_tracks pl) !! Some tid) track_ids)),
     save_user fs u
       (set_playlists
          (<[pid := set_tracks
                      (omap (λ tid, track_map_of (pl_tracks pl) !! Some tid) track_ids)
                      pl]> (playlists (load_user fs u)))
          (load_user fs u))).
Proof. unfold reorder_playlist. by intros -> ->. Qed.

(** A stored track without the key ["id"] makes the comprehension
    raise: the answer is a 500 and nothing is written. *)
Lemma reorder_playlist_KeyError fs pid (track_ids : list string) u pl :
  playlists (load_user fs u) !! pid = Some pl →
  forallb has_id_key (pl_tracks pl) = false →
  reorder_playlist fs pid track_ids u
  = (HTTPException 500 "Internal Server Error", fs).
Proof. unfold reorder_playlist. by intros -> ->. Qed.

Lemma has_id_key_id t v : track_id t = Some v → has_id_key t = true.
Proof. unfold track_id, has_id_key. by destruct (track_id_field t). Qed.

(** Tracks that have an identifier carry the key. *)
Lemma has_id_key_all tracks :
  Forall (λ t, is_Some (track_id t)) tracks → forallb has_id_key tracks = true.
Proof.
  induction 1 as [|t tracks [v Hv] _ IH]; [done|].
  cbn [forallb]. by rewrite (has_id_key_id t v Hv), IH.
Qed.

Lemma add_to_playlist_tracks fs pid t u pl :
  playlists (load_user fs u) !! pid = Some pl →
  playlist_tracks (add_to_playlist fs pid t u).2 pid u
  = (if bool_decide (Exists (λ x, track_id x = track_id t) (pl_tracks pl))
     then pl_tracks pl else pl_tracks pl ++ [t])
  ∧ (add_to_playlist fs pid t u).1
    = OK (length (playlist_tracks (add_to_playlist fs pid t u).2 pid u)).
Proof.
  unfold add_to_playlist. intros ->. cbn [fst snd].
  by rewrite playlist_tracks_saved.
Qed.

Lemma remove_from_playlist_tracks fs pid v u pl :
  playlists (load_user fs u) !! pid = Some pl →
  playlist_tracks (remove_from_playlist fs pid v u).2 pid u
  = filter (λ x, track_id x ≠ Some v) (pl_tracks pl).
Proof.
  unfold remove_from_playlist. intros ->. cbn [fst snd].
  by rewrite playlist_tracks_saved.
Qed.

(** Adding keeps the identifiers unique. *)
Lemma add_to_playlist_unique fs pid t u pl :
  playlists (load_user fs u) !! pid = Some pl →
  unique_ids (pl_tracks pl) →
  unique_ids (playlist_tracks (add_to_playlist fs pid t u).2 pid u).
Proof.
  intros Hpl Hnd. rewrite (proj1 (add_to_playlist_tracks fs pid t u pl Hpl)).
  case_bool_decide as Hex; [done|]. unfold unique_ids.
  rewrite fmap_app. apply NoDup_app. split; [done|]. split.
  - intros k (x & -> & Hx)%list_elem_of_fmap [Hk|[]%elem_of_nil]%elem_of_cons.
    apply Hex, Exists_exists. eauto.
  - apply NoDup_singleton.
Qed.

(** Adding a track whose identifier is present changes nothing. *)
Lemma add_to_playlist_present fs pid t u pl :
  playlists (load_user fs u) !! pid = Some pl →
  track_id t ∈ track_id <$> pl_tracks pl →
  playlist_tracks (add_to_playlist fs pid t u).2 pid u = pl_tracks pl
  ∧ (add_to_playlist fs pid t u).1 = OK (length (pl_tracks pl)).
Proof.
  intros Hpl (x & Hid & Hx)%list_elem_of_fmap.
  destruct (add_to_playlist_tracks fs pid t u pl Hpl) as [Ht Hr].
  rewrite Hr, Ht. rewrite bool_decide_eq_true_2; [done|].
  apply Exists_exists. eauto.
Qed.

Lemma remove_from_playlist_unique fs pid v u pl :
  playlists (load_user fs u) !! pid = Some pl →
  unique_ids (pl_tracks pl) →
  unique_ids (playlist_tracks (remove_from_playlist fs pid v u).2 pid u).
Proof.
  intros Hpl Hnd. rewrite (remove_from_playlist_tracks fs pid v u pl Hpl).
  unfold unique_ids. eapply sublist_NoDup; [exact Hnd|].
  apply fmap_sublist, sublist_filter.
Qed.

(** Reordering keeps them unique when no identifier is requested twice. *)
Lemma reorder_playlist_unique fs pid (track_ids : list string) u pl :
  playlists (load_user fs u) !! pid = Some pl →
  unique_ids (pl_tracks pl) →
  NoDup track_ids →
  unique_ids (playlist_tracks (reorder_playlist fs pid track_ids u).2 pid u).
Proof.
  intros Hpl Huniq Hnd. destruct (forallb has_id_key (pl_tracks pl)) eqn:Hkeys.
  - rewrite (reorder_playlist_tracks fs pid track_ids u pl Hpl Hkeys).
    cbn [snd]. rewrite playlist_tracks_saved. unfold unique_ids.
    rewrite reorder_ids. apply NoDup_fmap; [by intros ?? [=]|].
    by apply NoDup_filter.
  - rewrite (reorder_playlist_KeyError fs pid track_ids u pl Hpl Hkeys).
    cbn [snd]. by rewrite (playlist_tracks_lookup fs u pid pl Hpl).
Qed.
End playlists.

(** On a playlist whose tracks all carry the key ["id"], reordering
    leaves exactly the requested identifiers that are identifiers of
    member tracks, in request order, each filled with a member track;
    a foreign identifier is skipped and a member that is not requested
    is gone. [A; B; C] reordered by [C; A], or by [C; A; Z] with Z
    foreign, becomes [C; A]. *)
Lemma reorder_playlist_request_order :
  ∀ (fs : UserFiles) pid (track_ids : list string) u pl,
    playlists (load_user fs u) !! pid = Some pl →
    forallb has_id_key (pl_tracks pl) = true →
    let reordered ids := playlist_tracks (reorder_playlist fs pid ids u).2 pid u in
    (reorder_playlist fs pid track_ids u).1 = OK (length (reordered track_ids))
    ∧ track_id <$> reordered track_ids
      = Some <$> filter (λ tid, Some tid ∈ track_id <$> pl_tracks pl) track_ids
    ∧ (∀ t, t ∈ reordered track_ids → t ∈ pl_tracks pl)
    ∧ (∀ a b c ia ib ic z,
         pl_tracks pl = [a; b; c] →
         track_id a = Some ia → track_id b = Some ib → track_id c = Some ic →
         NoDup [ia; ib; ic; z] →
         reordered [ic; ia] = [c; a] ∧ reordered [ic; ia; z] = [c; a]).
Proof.
  intros fs pid track_ids u pl Hpl Hkeys reordered.
  assert (∀ ids, reordered ids
                 = omap (λ tid, track_map_of (pl_tracks pl) !! Some tid) ids) as Hre.
  { intros ids. unfold reordered.
    rewrite (reorder_playlist_tracks fs pid ids u pl Hpl Hkeys). cbn [snd].
    apply playlist_tracks_saved. }
  split; [|split; [|split]].
  - rewrite Hre, (reorder_playlist_tracks fs pid track_ids u pl Hpl Hkeys). done.
  - rewrite Hre. apply reorder_ids.
  - intros t. rewrite Hre. apply reorder_members.
  - intros a b c ia ib ic z Htr Ha Hb Hc Hnd. rewrite !Hre, Htr.
    unfold track_map_of. simpl. rewrite Ha, Hb, Hc.
    apply NoDup_cons in Hnd as [Hia Hnd]. apply NoDup_cons in Hnd as [Hib Hnd].
    apply NoDup_cons in Hnd as [Hic _].
    assert (ia ≠ ib ∧ ia ≠ ic ∧ ia ≠ z ∧ ib ≠ ic ∧ ib ≠ z ∧ ic ≠ z)
      as (? & ? & ? & ? & ? & ?) by set_solver.
    assert (∀ x y : string, x ≠ y → Some x ≠ Some y) as Hinj by (intros ?? ? [=]; done).
    rewrite lookup_insert_eq.
    rewrite !(lookup_insert_ne _ (Some ic) (Some ia)) by auto.
    rewrite !(lookup_insert_ne _ (Some ib) (Some ia)) by auto.
    rewrite lookup_insert_eq.
    rewrite !(lookup_insert_ne _ _ (Some z)) by auto.
    by rewrite lookup_empty.
Qed.

Lemma reorder_playlist_three_tracks :
  let A := mkTrack (IdStr "A") None None None None None None in
  let B := mkTrack (IdStr "B") None None None None None None in
  let C := mkTrack (IdStr "C") None None None None None None in
  let fs := (add_to_playlist
               (add_to_playlist
                  (add_to_playlist (create_playlist ∅ "mix" "ann" "p1" 0)
                     "p1" A "ann").2 "p1" B "ann").2 "p1" C "ann").2 in
  playlist_tracks (reorder_playlist fs "p1" ["C"; "A"] "ann").2 "p1" "ann" = [C; A]
  ∧ playlist_tracks (reorder_playlist fs "p1" ["C"; "A"; "Z"] "ann").2 "p1" "ann" = [C; A].
Proof.
  intros A B C fs.
  eapply (proj2 (proj2 (proj2
      (reorder_playlist_request_order fs "p1" [] "ann" (mkPlaylist "mix" [A; B; C] 0)
         _ _)))
      A B C "A" "B" "C" "Z").
  - reflexivity.
  - reflexivity.
  - reflexivity.
  - reflexivity.
  - apply (bool_decide_unpack _). vm_compute. exact I.
  Unshelve. all: vm_compute; reflexivity.
Defined.

(** C5 fails on a playlist that holds a track without the key ["id"],
    which the add-track route stores from a request body such as [{}]
    (it reads the identifier with [.get]). Reordering that playlist,
    here with the empty request, is answered with status 500 and
    leaves the playlist as it was, where the claim has it emptied;
    the remove-track route serves the same playlist. *)
Theorem reorder_playlist_keyless_track :
  let fs := (add_to_playlist (create_playlist ∅ "mix" "ann" "p1" 0)
               "p1" empty_track "ann").2 in
  add_to_playlist (create_playlist ∅ "mix" "ann" "p1" 0) "p1" empty_track "ann"
  = (OK 1, fs)
  ∧ playlist_tracks fs "p1" "ann" = [empty_track]
  ∧ reorder_playlist fs "p1" [] "ann" = (HTTPException 500 "Internal Server Error", fs)
  ∧ playlist_tracks (reorder_playlist fs "p1" [] "ann").2 "p1" "ann" = [empty_track]
  ∧ (remove_from_playlist fs "p1" "A" "ann").1 = OK 1.
Proof.
  intros fs.
  assert (playlists (load_user fs "ann") !! "p1"
          = Some (mkPlaylist "mix" [empty_track] 0)) as Hpl.
  { vm_compute. reflexivity. }
  assert (reorder_playlist fs "p1" [] "ann"
          = (HTTPException 500 "Internal Server Error", fs)) as Hre.
  { by apply (reorder_playlist_KeyError fs "p1" [] "ann" _ Hpl). }
  split; [reflexivity|]. split; [by rewrite (playlist_tracks_lookup _ _ _ _ Hpl)|].
  split; [exact Hre|]. split.
  - rewrite Hre. cbn [snd]. by rewrite (playlist_tracks_lookup _ _ _ _ Hpl).
  - unfold remove_from_playlist. by rewrite Hpl.
Qed.

(** C8 holds for add-track and remove-track and fails for reorder: a
    request naming a member twice stores it twice. Playlist [A]
    reordered by [A; A] becomes [A; A], two tracks with one identifier. *)
Theorem reorder_playlist_repeats_member :
  let A := mkTrack (IdStr "A") None None None None None None in
  let fs := (add_to_playlist (create_playlist ∅ "mix" "ann" "p1" 0) "p1" A "ann").2 in
  unique_ids (playlist_tracks fs "p1" "ann")
  ∧ reorder_playlist fs "p1" ["A"; "A"] "ann"
    = (OK 2, (reorder_playlist fs "p1" ["A"; "A"] "ann").2)
  ∧ playlist_tracks (reorder_playlist fs "p1" ["A"; "A"] "ann").2 "p1" "ann" = [A; A]
  ∧ ¬ unique_ids (playlist_tracks (reorder_playlist fs "p1" ["A"; "A"] "ann").2 "p1" "ann").
Proof.
  intros A fs.
  assert (playlist_tracks (reorder_playlist fs "p1" ["A"; "A"] "ann").2 "p1" "ann"
          = [A; A]) as Heq by (vm_compute; reflexivity).
  split; [|split; [|split]].
  - apply (bool_decide_unpack _). vm_compute. exact I.
  - vm_compute. reflexivity.
  - exact Heq.
  - rewrite Heq. unfold unique_ids. simpl. intros Hnd.
    apply NoDup_cons in Hnd as [Hnot _]. apply Hnot. left.
Qed.

(** ** TTL caches *)

Section ttl.
Lemma fresh_true now ts ttl : fresh now ts ttl = true ↔ (now - ts < ttl)%Q.
Proof.
  unfold fresh. destruct (Qlt_le_dec _ _) as [Hlt|Hle]; split; try done.
  intros Hlt. destruct (Qle_not_lt _ _ Hle Hlt).
Qed.

Lemma fresh_false now ts ttl : fresh now ts ttl = false ↔ (ttl <= now - ts)%Q.
Proof.
  unfold fresh. destruct (Qlt_le_dec _ _) as [Hlt|Hle]; split; try done.
  intros Hle. destruct (Qle_not_lt _ _ Hle Hlt).
Qed.

Lemma ttl_lookup_Some {E} (ts : E → Q) ttl now cached e :
  ttl_lookup ts ttl now cached = Some e
  ↔ cached = Some e ∧ (now - ts e < ttl)%Q.
Proof.
  unfold ttl_lookup. destruct cached as [e'|]; [|by split; [|intros []]].
  destruct (fresh now (ts e') ttl) eqn:Hf.
  - apply fresh_true in Hf. split; [by intros [= ->]|by intros [[= ->] _]].
  - apply fresh_false in Hf. split; [done|].
    intros [[= ->] Hlt]. destruct (Qle_not_lt _ _ Hf Hlt).
Qed.

Lemma ttl_lookup_None {E} (ts : E → Q) ttl now cached :
  ttl_lookup ts ttl now cached = None
  ↔ cached = None ∨ ∃ e, cached = Some e ∧ (ttl <= now - ts e)%Q.
Proof.
  unfold ttl_lookup. destruct cached as [e'|]; [|naive_solver].
  destruct (fresh now (ts e') ttl) eqn:Hf.
  - apply fresh_true in Hf. split; [done|].
    intros [|(e & [= <-] & Hle)]; [done|]. destruct (Qle_not_lt _ _ Hle Hf).
  - apply fresh_false in Hf. naive_solver.
Qed.

(** An entry stamped [t0] just before and just after its TTL. *)
Lemma ttl_lookup_before {E} (ts : E → Q) ttl e ε :
  (0 < ε)%Q → ttl_lookup ts ttl (ts e + ttl - ε)%Q (Some e) = Some e.
Proof. intros Hε. apply ttl_lookup_Some. split; [done|]. lra. Qed.

Lemma ttl_lookup_after {E} (ts : E → Q) ttl e ε :
  (0 <= ε)%Q → ttl_lookup ts ttl (ts e + ttl + ε)%Q (Some e) = None.
Proof. intros Hε. apply ttl_lookup_None. right. exists e. split; [done|]. lra. Qed.
End ttl.

(** The guarded reads. A read written
    [cached and (time.time() - cached["ts"]) < TTL] answers from the
    cache exactly when the key has an entry and
    [now - inserted_at < ttl]: [fetch_related] and the entry of
    [fetch_stream] then return the stored value without an external
    call and without touching the caches; with no entry, or with one
    for which [now - inserted_at >= ttl], they go on as for a key never
    seen. An entry stored at [t0] is served at [t0 + ttl - ε] and not
    at [t0 + ttl + ε]. *)
Lemma ttl_hit_iff_fresh :
  (∀ E (ts : E → Q) ttl now cached e,
     ttl_lookup ts ttl now cached = Some e
     ↔ cached = Some e ∧ (now - ts e < ttl)%Q)
  ∧ (∀ E (ts : E → Q) ttl now cached,
       ttl_lookup ts ttl now cached = None
       ↔ cached = None ∨ ∃ e, cached = Some e ∧ (ttl <= now - ts e)%Q)
  ∧ (∀ (c : gmap string RelatedEntry) vid now ext now' e,
       c !! vid = Some e → (now - re_ts e < RELATED_CACHE_TTL)%Q →
       fetch_related c vid now ext now' = (Return (re_related e), c, 0))
  ∧ (∀ (c : gmap string RelatedEntry) vid now related now',
       c !! vid = None
       ∨ (∃ e, c !! vid = Some e ∧ (RELATED_CACHE_TTL <= now - re_ts e)%Q) →
       fetch_related c vid now (Return related) now'
       = (Return related, <[vid := mkRelatedEntry related now']> c, 1))
  ∧ (∀ m vid now ext e,
       _audio_url_cache m !! vid = Some e → (now - ae_ts e < AUDIO_URL_TTL)%Q →
       fetch_stream vid now ext FS_entry m
       = Some (FS_return (ae_url e,
                          match _track_info_cache m !! vid with
                          | Some i => ie_info i
                          | None => empty_track
                          end), m))
  ∧ (∀ m vid now ext,
       _audio_url_cache m !! vid = None
       ∨ (∃ e, _audio_url_cache m !! vid = Some e
               ∧ (AUDIO_URL_TTL <= now - ae_ts e)%Q) →
       _audio_url_inflight m !! vid = None →
       fetch_stream vid now ext FS_entry m = Some (begin_fetch vid m)
       ∧ resolve_calls (begin_fetch vid m).2 = resolve_calls m ++ [vid])
  ∧ (∀ (c : gmap string RelatedEntry) vid related t0 ε ext now',
       (0 < ε)%Q →
       let c' := <[vid := mkRelatedEntry related t0]> c in
       fetch_related c' vid (t0 + RELATED_CACHE_TTL - ε)%Q ext now'
       = (Return related, c', 0)
       ∧ (fetch_related c' vid (t0 + RELATED_CACHE_TTL + ε)%Q ext now').2 = 1).
Proof.
  split; [intros; apply ttl_lookup_Some|].
  split; [intros; apply ttl_lookup_None|].
  split; [|split; [|split; [|split]]].
  - intros c vid now ext now' e Hc Hlt. unfold fetch_related.
    by rewrite (proj2 (ttl_lookup_Some re_ts _ now (c !! vid) e)).
  - intros c vid now related now' Hc. unfold fetch_related.
    by rewrite (proj2 (ttl_lookup_None re_ts _ now (c !! vid))).
  - intros m vid now ext e Hc Hlt. unfold fetch_stream.
    by rewrite (proj2 (ttl_lookup_Some ae_ts _ now (_audio_url_cache m !! vid) e)).
  - intros m vid now ext Hc Hin. unfold fetch_stream.
    rewrite (proj2 (ttl_lookup_None ae_ts _ now (_audio_url_cache m !! vid))) by done.
    by rewrite Hin.
  - intros c vid related t0 ε ext now' Hε c'. unfold fetch_related. subst c'.
    rewrite lookup_insert_eq.
    rewrite (ttl_lookup_before re_ts _ (mkRelatedEntry related t0)) by done.
    split; [done|].
    rewrite (ttl_lookup_after re_ts _ (mkRelatedEntry related t0)) by lra.
    destruct ext as [?|[]]; done.
Qed.

Lemma ttl_hit_iff_fresh_witness :
  let c := <[ "v1" := mkRelatedEntry [] 100 ]> (∅ : gmap string RelatedEntry) in
  fetch_related c "v1" (100 + RELATED_CACHE_TTL - 1)%Q (Raise (ValueError "")) 0
  = (Return [], c, 0)
  ∧ (fetch_related c "v1" (100 + RELATED_CACHE_TTL + 1)%Q (Raise (ValueError "")) 0).2 = 1.
Proof.
  intros c.
  apply (proj2 (proj2 (proj2 (proj2 (proj2 (proj2 ttl_hit_iff_fresh)))))
           ∅ "v1" [] 100%Q 1%Q).
  reflexivity.
Defined.

(** A caller woken from the wait is handed the cache entry as it is:
    the read after [await ... .wait()] tests presence only. *)
Lemma fetch_stream_after_wait m vid now ext ev e :
  ev ∈ events_set m →
  _audio_url_cache m !! vid = Some e →
  fetch_stream vid now ext (FS_wait ev) m
  = Some (FS_return (ae_url e, cached_track m vid), m).
Proof.
  intros Hev He. unfold fetch_stream, after_wait.
  by rewrite decide_True, He by done.
Qed.

(** C3 fails at the second read of [fetch_stream]. The cache holds an
    entry for ["v"] that is older than the TTL. The guard at the entry
    treats it as absent, for the first request, which submits the
    external call, and for the second, which waits for the first. The
    call fails; the second request wakes, reads the cache again without
    looking at the age, and answers with the stale URL and metadata,
    at a time when a lookup has to miss. No other external call is
    made and the entry stays. *)
Theorem fetch_stream_wait_serves_stale :
  let old := mkAudioEntry "https://cdn/old" 0 in
  let info := mkTrack (IdStr "v") (Some "Song") None None None None None in
  let m0 := mkMem {[ "v" := old ]} ∅ {[ "v" := mkInfoEntry info 0 ]} ∅ 0 [] in
  let w0 := mkWorld m0 (replicate 2 (mkTask Request "v" FS_entry)) in
  let sched := [mkAction 0 20000 (Return ("", empty_track));
                mkAction 1 20000 (Return ("", empty_track));
                mkAction 0 20001 (Raise (DownloadError "unavailable"));
                mkAction 1 20002 (Return ("", empty_track))] in
  (AUDIO_URL_TTL <= 20000 - ae_ts old)%Q
  ∧ ttl_lookup ae_ts AUDIO_URL_TTL 20000 (_audio_url_cache m0 !! "v") = None
  ∧ ttl_lookup ae_ts AUDIO_URL_TTL 20002 (_audio_url_cache m0 !! "v") = None
  ∧ (∃ w, run w0 (take 2 sched) = Some w
          ∧ t_pc <$> w_tasks w = [FS_run 0; FS_wait 0]
          ∧ resolve_calls (w_mem w) = ["v"])
  ∧ ∃ w, run w0 sched = Some w
         ∧ outcome_of <$> w_tasks w
           = [Some (Raise (DownloadError "unavailable"));
              Some (Return (Some ("https://cdn/old", info)))]
         ∧ resolve_calls (w_mem w) = ["v"]
         ∧ _audio_url_cache (w_mem w) !! "v" = Some old.
Proof.
  intros old info m0 w0 sched.
  split; [vm_compute; discriminate|].
  split; [vm_compute; reflexivity|]. split; [vm_compute; reflexivity|].
  split.
  - eexists. split; [vm_compute; reflexivity|]. split; vm_compute; reflexivity.
  - eexists. split; [vm_compute; reflexivity|].
    split; [vm_compute; reflexivity|]. split; vm_compute; reflexivity.
Qed.

(** C6, amended. When [_sync_related] fails with [DownloadError], the
    exception the handler catches, the lookup answers with the empty
    list and stores it under the identifier; the next lookup within
    the TTL answers from that entry, empty, without a further external
    call. Any other exception of the call is passed on to the caller:
    nothing is stored, and the next lookup calls again. *)
Theorem fetch_related_failure_cached :
  ∀ (c : gmap string RelatedEntry) vid now t0,
    ttl_lookup re_ts RELATED_CACHE_TTL now (c !! vid) = None →
    (∀ msg,
       let first := fetch_related c vid now (Raise (DownloadError msg)) t0 in
       first = (Return [], <[vid := mkRelatedEntry [] t0]> c, 1)
       ∧ ∀ now2 ext t2,
           (now2 - t0 < RELATED_CACHE_TTL)%Q →
           fetch_related first.1.2 vid now2 ext t2 = (Return [], first.1.2, 0))
    ∧ (∀ e, (∀ msg, e ≠ DownloadError msg) →
         let first := fetch_related c vid now (Raise e) t0 in
         first = (Raise e, c, 1)
         ∧ ∀ related t2,
             fetch_related first.1.2 vid now (Return related) t2
             = (Return related, <[vid := mkRelatedEntry related t2]> c, 1)).
Proof.
  intros c vid now t0 Hmiss. split.
  - intros msg first.
    assert (first = (Return [], <[vid := mkRelatedEntry [] t0]> c, 1)) as ->.
    { subst first. unfold fetch_related. by rewrite Hmiss. }
    split; [done|].
    intros now2 ext t2 Hlt. cbn [fst snd]. unfold fetch_related.
    rewrite lookup_insert_eq.
    assert (ttl_lookup re_ts RELATED_CACHE_TTL now2 (Some (mkRelatedEntry [] t0))
            = Some (mkRelatedEntry [] t0)) as ->; [|done].
    by apply ttl_lookup_Some.
  - intros e He first.
    assert (first = (Raise e, c, 1)) as ->.
    { subst first. unfold fetch_related. rewrite Hmiss.
      destruct e as [msg|msg]; [by destruct (He msg)|done]. }
    split; [done|]. intros related t2. cbn [fst snd].
    unfold fetch_related. by rewrite Hmiss.
Qed.

Lemma fetch_related_failure_cached_witness :
  let first := fetch_related ∅ "X" 10 (Raise (DownloadError "unavailable")) 11 in
  first = (Return [], <[ "X" := mkRelatedEntry [] 11 ]> ∅, 1)
  ∧ fetch_related first.1.2 "X" 3000 (Return [empty_track]) 3001
    = (Return [], first.1.2, 0).
Proof.
  intros first.
  destruct (fetch_related_failure_cached ∅ "X" 10%Q 11%Q) as [H _]; [reflexivity|].
  destruct (H "unavailable") as [H1 H2].
  split; [exact H1|]. apply H2. reflexivity.
Defined.

(** C6, as stated, fails: a failure of the call that is no
    [DownloadError] gives no empty list, leaves the identifier
    uncached, and the next lookup, a moment later, makes a second
    external call. *)
Lemma fetch_related_other_failure_not_cached :
  let first := fetch_related ∅ "X" 10 (Raise (ValueError "malformed")) 11 in
  first = (Raise (ValueError "malformed"), ∅, 1)
  ∧ first.1.1 ≠ Return []
  ∧ first.1.2 !! "X" = None
  ∧ (fetch_related first.1.2 "X" 12 (Return [empty_track]) 13).2 = 1.
Proof.
  intros first. split; [reflexivity|]. split; [discriminate|].
  split; reflexivity.
Qed.

(** ** Prefetch *)

Section prefetch.
Implicit Types (w : World) (vid : string) (video_ids : list string).

Lemma prefetch_loop w (hints : list string) :
  let w' := foldl (λ w vid,
              if decide (_audio_url_cache (w_mem w) !! vid = None)
              then create_prefetch_task w vid else w) w hints in
  w_mem w' = w_mem w
  ∧ w_tasks w'
    = w_tasks w ++ ((λ vid, mkTask Prefetch vid FS_entry)
                    <$> filter (λ vid, _audio_url_cache (w_mem w) !! vid = None) hints).
Proof.
  revert w. induction hints as [|vid hints IH]; intros w.
  { simpl. by rewrite app_nil_r. }
  cbn zeta in *. cbn [foldl].
  case_decide as Hc.
  - destruct (IH (create_prefetch_task w vid)) as [-> ->].
    split; [done|]. simpl. rewrite filter_cons_True by done.
    by rewrite <-app_assoc.
  - destruct (IH w) as [-> ->]. split; [done|].
    by rewrite filter_cons_False.
Qed.
End prefetch.

(** What the code does: [prefetch_next] looks at the first three
    hints only and queues one [_prefetch_one] task for each of them
    that has no entry in [_audio_url_cache], in hint order; a hint with
    an entry, whatever its age, is skipped. The caches are not touched. *)
Lemma prefetch_next_launches :
  ∀ w (video_ids : list string),
    let launched :=
      filter (λ vid, _audio_url_cache (w_mem w) !! vid = None) (take 3 video_ids) in
    w_mem (prefetch_next w video_ids) = w_mem w
    ∧ w_tasks (prefetch_next w video_ids)
      = w_tasks w ++ ((λ vid, mkTask Prefetch vid FS_entry) <$> launched)
    ∧ length launched ≤ 3
    ∧ (∀ vid, vid ∈ launched ↔
         vid ∈ take 3 video_ids ∧ _audio_url_cache (w_mem w) !! vid = None).
Proof.
  intros w video_ids launched. unfold prefetch_next.
  destruct (prefetch_loop w (take 3 video_ids)) as [Hm Ht].
  split; [done|]. split; [done|]. split.
  - subst launched. etrans; [apply length_filter|].
    rewrite length_take. lia.
  - intros vid. subst launched. rewrite list_elem_of_filter. tauto.
Qed.

(** A hint whose cached entry has outlived the TTL is not fresh, yet
    no resolution is launched for it. *)
Lemma prefetch_next_skips_stale :
  ¬ ∀ w (video_ids : list string) (now : Q),
      w_tasks (prefetch_next w video_ids)
      = w_tasks w
        ++ ((λ vid, mkTask Prefetch vid FS_entry)
            <$> filter (λ vid, ¬ is_Some (ttl_lookup ae_ts AUDIO_URL_TTL now
                                             (_audio_url_cache (w_mem w) !! vid)))
                  (take 3 video_ids)).
Proof.
  intros H.
  specialize (H (mkWorld (mkMem {[ "x" := mkAudioEntry "https://cdn/x" 0 ]} ∅ ∅ ∅ 0 []) [])
                ["x"] 20000%Q).
  vm_compute in H. discriminate H.
Qed.

(** C7 fails on a hint whose cache entry is stale. The entry of ["x"]
    is older than the TTL: the read at the entry of [fetch_stream]
    treats it as absent, and a stream request for ["x"] goes to the
    external call. [prefetch_next] tests membership only, finds the
    entry and queues nothing, so the cache is not warmed for the
    track; for a hint without entry it queues the task. *)
Theorem prefetch_next_stale_not_warmed :
  let old := mkAudioEntry "https://cdn/x" 0 in
  let m := mkMem {[ "x" := old ]} ∅ {[ "x" := mkInfoEntry empty_track 0 ]} ∅ 0 [] in
  let w := mkWorld m [] in
  (AUDIO_URL_TTL <= 20000 - ae_ts old)%Q
  ∧ ttl_lookup ae_ts AUDIO_URL_TTL 20000 (_audio_url_cache m !! "x") = None
  ∧ fetch_stream "x" 20000 (Return ("", empty_track)) FS_entry m
    = Some (begin_fetch "x" m)
  ∧ prefetch_next w ["x"] = w
  ∧ w_tasks (prefetch_next w ["x"; "y"]) = [mkTask Prefetch "y" FS_entry].
Proof.
  intros old m w.
  split; [vm_compute; discriminate|].
  split; [vm_compute; reflexivity|]. split; [vm_compute; reflexivity|].
  split; vm_compute; reflexivity.
Qed.

(** ** Search cache *)

Section search_cache.
Implicit Types (d items : list (string * SearchEntry)) (x y : string * SearchEntry)
(k : string) (fs : UserFiles).

Lemma Qle_bool_ts_le x y : Qle_bool (se_ts x.2) (se_ts y.2) = true ↔ ts_le x y.
Proof. apply Qle_bool_iff. Qed.

Lemma ts_le_total x y : ts_le x y ∨ ts_le y x.
Proof.
unfold ts_le. destruct (Qlt_le_dec (se_ts y.2) (se_ts x.2)) as [H|H]; [|by left].
right. by apply Qlt_le_weak.
Qed.

#[local] Instance ts_le_trans : Transitive ts_le.
Proof. intros x y z. unfold ts_le. apply Qle_trans. Qed.

Lemma insert_by_ts_perm x items : insert_by_ts x items ≡ₚ x :: items.
Proof.
induction items as [|y items IH]; [done|]. simpl.
destruct (Qle_bool _ _); [done|].
rewrite IH. apply Permutation_swap.
Qed.

Lemma sorted_by_ts_perm items : sorted_by_ts items ≡ₚ items.
Proof.
induction items as [|x items IH]; [done|]. simpl.
by rewrite insert_by_ts_perm, IH.
Qed.

Lemma insert_by_ts_sorted x items :
StronglySorted ts_le items → StronglySorted ts_le (insert_by_ts x items).
Proof.
induction 1 as [|y items Hs IH Hy]; simpl.
{ by repeat constructor. }
destruct (Qle_bool _ _) eqn:Hle.
- apply Qle_bool_ts_le in Hle. constructor; [by constructor|].
  constructor; [done|]. eapply Forall_impl; [exact Hy|].
  intros z Hz. by trans y.
- constructor; [done|]. rewrite insert_by_ts_perm. constructor; [|done].
  destruct (ts_le_total x y) as [Hxy|Hyx]; [|done].
  apply Qle_bool_ts_le in Hxy. congruence.
Qed.

Lemma sorted_by_ts_sorted items : StronglySorted ts_le (sorted_by_ts items).
Proof.
induction items as [|x items IH]; [constructor|].
simpl. by apply insert_by_ts_sorted.
Qed.

(** Sorting leaves a sorted list as it is: equal stamps keep their order. *)
Lemma sorted_by_ts_id items : StronglySorted ts_le items → sorted_by_ts items = items.
Proof.
induction 1 as [|x items Hs IH Hx]; [done|]. simpl. rewrite IH.
destruct items as [|y items]; [done|]. simpl.
apply Forall_cons in Hx as [Hxy _].
apply Qle_bool_ts_le in Hxy. by rewrite Hxy.
Qed.

Lemma od_get_None {V} k (d : list (string * V)) : od_get k d = None ↔ k ∉ d.*1.
Proof.
induction d as [|[k' v] d IH]; simpl.
{ split; [intros _; apply not_elem_of_nil|done]. }
rewrite not_elem_of_cons. case_decide as Hk.
- split; [done|]. by intros [? _].
- rewrite IH. split; [done|]. by intros [_ ?].
Qed.

Lemma od_set_fst {V} k (v : V) (d : list (string * V)) :
(od_set k v d).*1 = if decide (k ∈ d.*1) then d.*1 else d.*1 ++ [k].
Proof.
induction d as [|[k' v'] d IH]; [done|].
cbn [od_set fmap list_fmap fst].
destruct (decide (k = k')) as [->|Hne].
- cbn [fmap list_fmap fst]. rewrite (decide_True (P := k' ∈ k' :: d.*1)) by left. done.
- cbn [fmap list_fmap fst]. rewrite IH. destruct (decide (k ∈ d.*1)).
  + by rewrite (decide_True (P := k ∈ k' :: d.*1)) by by right.
  + rewrite (decide_False (P := k ∈ k' :: d.*1)); [done|].
    rewrite not_elem_of_cons. done.
Qed.

Lemma od_set_new {V} k (v : V) (d : list (string * V)) :
k ∉ d.*1 → od_set k v d = d ++ [(k, v)].
Proof.
induction d as [|[k' v'] d IH]; [done|]. simpl.
rewrite not_elem_of_cons. intros [Hne Hk].
rewrite decide_False by done. by rewrite IH.
Qed.

Lemma od_set_NoDup {V} k (v : V) (d : list (string * V)) :
NoDup d.*1 → NoDup (od_set k v d).*1.
Proof.
intros Hnd. rewrite od_set_fst. case_decide; [done|].
apply NoDup_app. split; [done|]. split; [|apply NoDup_singleton].
intros k' Hk' ->%list_elem_of_singleton. done.
Qed.

(** [dict(items)] of items with distinct keys is those items, in order. *)
Lemma dict_of_NoDup {V} (items : list (string * V)) :
NoDup items.*1 → dict_of items = items.
Proof.
unfold dict_of. intros Hnd.
enough (∀ acc, NoDup (acc ++ items).*1 →
          foldl (λ a kv, od_set kv.1 kv.2 a) acc items = acc ++ items) as H.
{ by apply (H []). }
clear Hnd. induction items as [|[k v] items IH]; intros acc Hnd.
{ simpl. by rewrite app_nil_r. }
simpl. rewrite od_set_new.
- rewrite IH; rewrite <-app_assoc; done.
- rewrite fmap_app in Hnd. apply NoDup_app in Hnd as (_ & Hnot & _).
  intros Hk. apply (Hnot k Hk). simpl. left.
Qed.

Lemma last_n_length {A} n (l : list A) : length (last_n n l) = length l `min` n.
Proof. unfold last_n. rewrite length_drop. lia. Qed.

Lemma last_n_all {A} n (l : list A) : length l ≤ n → last_n n l = l.
Proof. unfold last_n. intros H. by replace (length l - n) with 0 by lia. Qed.

Lemma last_n_snoc {A} n (l : list A) (a : A) :
0 < n → last_n n (last_n n l ++ [a]) = last_n n (l ++ [a]).
Proof.
intros Hn. unfold last_n. rewrite !length_app, length_drop. simpl.
rewrite !drop_app_le by (rewrite ?length_drop; lia).
rewrite drop_drop. f_equal. f_equal. lia.
Qed.

(** What a miss stores: the new item, then the 50 latest stamps if
  the cache has grown beyond 50 items. *)
Lemma cached_search_miss fs u q now results now' :
ttl_lookup se_ts SEARCH_CACHE_TTL now
  (od_get (search_key q) (search_cache (load_user fs u))) = None →
let stored := od_set (search_key q) (mkSearchEntry now' results)
                (search_cache (load_user fs u)) in
cached_search fs u q now (Return results) now'
= (Return results,
   save_user fs u
     (set_search_cache
        (if (50 <? length stored)%nat
         then dict_of (last_n 50 (sorted_by_ts stored)) else stored)
        (load_user fs u))).
Proof. intros Hmiss. unfold cached_search. by rewrite Hmiss. Qed.

Lemma evicted_kept_NoDup d :
NoDup d.*1 → NoDup (last_n 50 (sorted_by_ts d)).*1.
Proof.
intros Hnd. eapply sublist_NoDup; [|apply fmap_sublist, sublist_drop].
by rewrite sorted_by_ts_perm.
Qed.

Lemma search_cache_saved fs u c :
  search_cache (load_user (save_user fs u (set_search_cache c (load_user fs u))) u) = c.
Proof. by rewrite load_save_user. Qed.

(** Distinct queries stored at non-decreasing times leave the last 50. *)
Lemma run_searches_fifo reqs fs u :
  search_cache (load_user fs u) = [] →
  NoDup (search_key ∘ sr_query <$> reqs) →
  StronglySorted (λ a b, (sr_stored_at a <= sr_stored_at b)%Q) reqs →
  search_cache (load_user (run_searches fs u reqs) u) = last_n 50 (entry_of <$> reqs).
Proof.
  intros Hempty. induction reqs as [|r reqs IH] using rev_ind; intros Hnd Hs.
  { done. }
  assert (NoDup (entry_of <$> reqs ++ [r]).*1) as Hkeys.
  { by rewrite <-list_fmap_compose. }
  assert (StronglySorted ts_le (entry_of <$> reqs ++ [r])) as Hsorted.
  { eapply StronglySorted_fmap; [|exact Hs]. done. }
  rewrite fmap_app in Hnd. apply NoDup_app in Hnd as (Hnd & _ & _).
  apply StronglySorted_app_1_l in Hs. specialize (IH Hnd Hs).
  unfold run_searches in *. rewrite foldl_snoc.
  set (fs1 := foldl _ fs reqs) in *.
  set (E := entry_of <$> reqs) in *.
  rewrite fmap_app in Hkeys, Hsorted. fold E in Hkeys, Hsorted.
  change (entry_of <$> [r]) with [entry_of r] in *.
  assert (E = take (length E - 50) E ++ last_n 50 E) as HE.
  { unfold last_n. by rewrite take_drop. }
  assert (search_key (sr_query r) ∉ (last_n 50 E).*1) as Hnew.
  { rewrite fmap_app in Hkeys. apply NoDup_app in Hkeys as (_ & Hnot & _).
    intros Hin. apply (Hnot (search_key (sr_query r))); [|left].
    eapply list_elem_of_fmap in Hin as (x & -> & Hx).
    apply list_elem_of_fmap. exists x. split; [done|].
    by eapply subseteq_drop. }
  rewrite cached_search_miss; rewrite IH.
  2:{ apply od_get_None in Hnew. by rewrite Hnew. }
  cbn [snd]. rewrite search_cache_saved. rewrite od_set_new by done.
  change (search_key (sr_query r), _) with (entry_of r).
  rewrite HE, <-app_assoc in Hkeys, Hsorted.
  rewrite fmap_app in Hkeys. apply NoDup_app in Hkeys as (_ & _ & Hkeys).
  apply StronglySorted_app_1_r in Hsorted.
  destruct (50 <? length (last_n 50 E ++ [entry_of r])) eqn:Hlen.
  - rewrite sorted_by_ts_id by done.
    rewrite dict_of_NoDup.
    + rewrite fmap_app. apply last_n_snoc. lia.
    + eapply sublist_NoDup; [exact Hkeys|]. apply fmap_sublist, sublist_drop.
  - apply Nat.ltb_ge in Hlen. rewrite length_app, last_n_length in Hlen.
    simpl in Hlen. assert (length E ≤ 50) as HlenE by lia.
    rewrite (last_n_all 50 E HlenE).
    rewrite fmap_app. fold E. symmetry. apply last_n_all.
    rewrite length_app. simpl. lia.
Qed.
End search_cache.

(** C4. When a stored search result takes a user's cache beyond 50
    items, exactly 50 items stay, and none of the discarded ones has a
    later time stamp than a retained one; the stamps are those of
    insertion, as a cache hit writes nothing. 51 distinct queries on an
    empty cache leave the last 50, the first one stored being the one
    evicted. *)
Theorem search_cache_keeps_50_latest :
  (∀ (fs : UserFiles) u q now results now',
     NoDup (search_cache (load_user fs u)).*1 →
     ttl_lookup se_ts SEARCH_CACHE_TTL now
       (od_get (search_key q) (search_cache (load_user fs u))) = None →
     let stored := od_set (search_key q) (mkSearchEntry now' results)
                     (search_cache (load_user fs u)) in
     let kept :=
       search_cache (load_user (cached_search fs u q now (Return results) now').2 u) in
     (length stored ≤ 50 → kept = stored)
     ∧ (50 < length stored →
        length kept = 50
        ∧ ∃ discarded,
            stored ≡ₚ discarded ++ kept
            ∧ ∀ x y, x ∈ discarded → y ∈ kept → (se_ts x.2 <= se_ts y.2)%Q))
  ∧ (∀ (fs : UserFiles) u q now ext now' e,
       ttl_lookup se_ts SEARCH_CACHE_TTL now
         (od_get (search_key q) (search_cache (load_user fs u))) = Some e →
       cached_search fs u q now ext now' = (Return (se_results e), fs))
  ∧ (∀ (fs : UserFiles) u reqs,
       search_cache (load_user fs u) = [] →
       length reqs = 51 →
       NoDup (search_key ∘ sr_query <$> reqs) →
       StronglySorted (λ a b, (sr_stored_at a <= sr_stored_at b)%Q) reqs →
       let kept := search_cache (load_user (run_searches fs u reqs) u) in
       kept = entry_of <$> drop 1 reqs
       ∧ length kept = 50
       ∧ ∀ r0, reqs !! 0 = Some r0 → search_key (sr_query r0) ∉ kept.*1).
Proof.
  split; [|split].
  - intros fs u q now results now' Hnd Hmiss stored kept.
    assert (kept = if (50 <? length stored)%nat
                   then dict_of (last_n 50 (sorted_by_ts stored)) else stored) as ->.
    { subst kept. rewrite cached_search_miss by done. cbn [snd].
      apply search_cache_saved. }
    assert (NoDup stored.*1) as Hnd' by by apply od_set_NoDup.
    split.
    + intros Hle. apply Nat.ltb_ge in Hle. by rewrite Hle.
    + intros Hlt. rewrite (proj2 (Nat.ltb_lt _ _) Hlt).
      rewrite dict_of_NoDup by by apply evicted_kept_NoDup.
      split.
      { rewrite last_n_length, (Permutation_length (sorted_by_ts_perm stored)). lia. }
      exists (take (length (sorted_by_ts stored) - 50) (sorted_by_ts stored)).
      unfold last_n. rewrite take_drop. split; [by rewrite sorted_by_ts_perm|].
      intros x y Hx Hy.
      eapply (StronglySorted_app_1_elem_of ts_le); [|exact Hx|exact Hy].
      rewrite take_drop. apply sorted_by_ts_sorted.
  - intros fs u q now ext now' e Hhit. unfold cached_search. by rewrite Hhit.
  - intros fs u reqs Hempty Hlen Hnd Hs kept. subst kept.
    rewrite run_searches_fifo by done.
    assert (last_n 50 (entry_of <$> reqs) = entry_of <$> drop 1 reqs) as ->.
    { unfold last_n. rewrite length_fmap, Hlen. by rewrite fmap_drop. }
    split; [done|]. split.
    + rewrite length_fmap, length_drop. lia.
    + intros r0 Hr0. destruct reqs as [|r reqs]; [done|].
      injection Hr0 as ->. simpl. rewrite drop_0.
      simpl in Hnd. apply NoDup_cons in Hnd as [Hnot _].
      by rewrite <-list_fmap_compose.
Qed.


Lemma search_cache_keeps_50_latest_witness :
  let req n := mkSearchReq (String (Ascii.ascii_of_nat (97 + n)) EmptyString)
                 (inject_Z (Z.of_nat n)) [] (inject_Z (Z.of_nat n)) in
  let reqs := req <$> seq 0 51 in
  let fs50 := run_searches ∅ "ann" (take 50 reqs) in
  length (search_cache (load_user (run_searches ∅ "ann" reqs) "ann")) = 50
  ∧ length (search_cache (load_user
              (cached_search fs50 "ann" "zz" 60 (Return []) 61).2 "ann")) = 50.
Proof.
  intros req reqs fs50. split.
  - destruct (proj2 (proj2 search_cache_keeps_50_latest) ∅ "ann" reqs) as (_ & H & _).
    + reflexivity.
    + reflexivity.
    + apply (bool_decide_unpack _). vm_compute. exact I.
    + apply (bool_decide_unpack _). vm_compute. exact I.
    + exact H.
  - destruct (proj1 search_cache_keeps_50_latest fs50 "ann" "zz" 60%Q [] 61%Q)
      as (_ & H).
    + apply (bool_decide_unpack _). vm_compute. exact I.
    + vm_compute. reflexivity.
    + apply H. vm_compute. lia.
Defined.

(** ** The bounds hold of every record the routes store *)

Section bounds.
Implicit Types (fs : UserFiles) (d : UserData) (u : string).

Lemma bounded_empty : bounded (mkUserData [] [] [] ∅).
Proof. unfold bounded. simpl. repeat split; try lia; apply NoDup_nil_2. Qed.

Lemma played_unique h t :
  NoDup (track_id <$> h) → NoDup (track_id <$> played h t).
Proof.
  intros Hnd. unfold played.
  eapply sublist_NoDup; [|apply fmap_sublist, sublist_take].
  rewrite fmap_cons. apply NoDup_cons. split.
  - intros (x & Hid & Hx)%list_elem_of_fmap.
    by apply list_elem_of_filter in Hx as [? _].
  - eapply sublist_NoDup; [exact Hnd|]. apply fmap_sublist, sublist_filter.
Qed.

Lemma cached_search_bounded fs u q now ext now' :
  bounded (load_user fs u) →
  bounded (load_user (cached_search fs u q now ext now').2 u).
Proof.
  intros Hb. unfold cached_search.
  destruct (ttl_lookup _ _ _ _); [done|]. destruct ext as [results|e]; [|done].
  cbn [snd]. rewrite load_save_user.
  destruct Hb as (? & ? & ? & Hnd & ? & ?). unfold bounded. simpl.
  split; [done|]. split; [done|]. split; [|split; [|done]].
  - destruct (_ <? _) eqn:Hlen.
    + rewrite dict_of_NoDup by by apply evicted_kept_NoDup, od_set_NoDup.
      rewrite last_n_length. lia.
    + by apply Nat.ltb_ge in Hlen.
  - destruct (_ <? _).
    + rewrite dict_of_NoDup by by apply evicted_kept_NoDup, od_set_NoDup.
      by apply evicted_kept_NoDup, od_set_NoDup.
    + by apply od_set_NoDup.
Qed.

Lemma apply_op_bounded fs op u :
  bounded (load_user fs u) → bounded (load_user (apply_op fs op) u).
Proof.
  intros Hb. destruct op as [u' t|u' q now ext now'|v u'|v u'|name u' pid now
                            |pid t u'|pid v u'|pid ids u']; simpl.
  - unfold record_play. destruct (decide (u' = u)) as [->|Hne].
    + rewrite load_save_user. destruct Hb as (? & ? & ?). unfold bounded. simpl.
      split; [apply played_length|]. split; [by apply played_unique|done].
    + by rewrite load_save_user_ne.
  - destruct (decide (u' = u)) as [->|Hne]; [by apply cached_search_bounded|].
    unfold cached_search. destruct (ttl_lookup _ _ _ _); [done|].
    destruct ext; [|done]. cbn [snd]. by rewrite load_save_user_ne.
  - destruct (like_track_invariant fs v u' u) as [? ?].
    { by destruct Hb as (_ & _ & _ & _ & ? & ?). }
    unfold like_track in *. destruct (decide (u' = u)) as [->|Hne].
    + rewrite load_save_user in *. destruct Hb as (? & ? & ? & ? & _).
      unfold get_liked in *. rewrite load_save_user in *. done.
    + by rewrite load_save_user_ne.
  - destruct (unlike_track_invariant fs v u' u) as [? ?].
    { by destruct Hb as (_ & _ & _ & _ & ? & ?). }
    unfold unlike_track in *. destruct (decide (u' = u)) as [->|Hne].
    + rewrite load_save_user in *. destruct Hb as (? & ? & ? & ? & _).
      unfold get_liked in *. rewrite load_save_user in *. done.
    + by rewrite load_save_user_ne.
  - unfold create_playlist. destruct (decide (u' = u)) as [->|Hne].
    + by rewrite load_save_user.
    + by rewrite load_save_user_ne.
  - unfold add_to_playlist. destruct (_ !! pid); [|done]. cbn [snd].
    destruct (decide (u' = u)) as [->|Hne].
    + by rewrite load_save_user.
    + by rewrite load_save_user_ne.
  - unfold remove_from_playlist. destruct (_ !! pid); [|done]. cbn [snd].
    destruct (decide (u' = u)) as [->|Hne].
    + by rewrite load_save_user.
    + by rewrite load_save_user_ne.
  - unfold reorder_playlist. destruct (_ !! pid); [|done].
    destruct (forallb _ _); [|done]. cbn [snd].
    destruct (decide (u' = u)) as [->|Hne].
    + by rewrite load_save_user.
    + by rewrite load_save_user_ne.
Qed.

(** Starting with no files, every record stays within the bounds. *)
Lemma apply_ops_bounded (ops : list StoreOp) u :
  bounded (load_user (foldl apply_op ∅ ops) u).
Proof.
  induction ops as [|op ops IH] using rev_ind.
  - apply bounded_empty.
  - rewrite foldl_snoc. by apply apply_op_bounded.
Qed.
End bounds.

(** ** Request deduplication in [fetch_stream] *)

(** C1 fails when the shared call fails. Three requests for ["v"] start
    before any completes; the first submits the external call, the other
    two wait on its event. The call raises; each waiter wakes, finds no
    cache entry and submits a call of its own: three external calls, two
    of them in the executor at the same time, and the callers end with
    different outcomes. *)
Theorem fetch_stream_failure_not_coalesced :
  let w0 := mkWorld (mkMem ∅ ∅ ∅ ∅ 0 [])
              (replicate 3 (mkTask Request "v" FS_entry)) in
  let info := mkTrack (IdStr "v") (Some "Song") None None None None None in
  let starts := [mkAction 0 1 (Return ("", empty_track));
                 mkAction 1 1 (Return ("", empty_track));
                 mkAction 2 1 (Return ("", empty_track))] in
  let failure := [mkAction 0 2 (Raise (DownloadError "unavailable"))] in
  let wakeups := [mkAction 1 3 (Return ("", empty_track));
                  mkAction 2 3 (Return ("", empty_track))] in
  let finish := [mkAction 1 4 (Return ("https://cdn/v", info));
                 mkAction 2 5 (Raise (DownloadError "unavailable"))] in
  (∃ w, run w0 starts = Some w
        ∧ resolve_calls (w_mem w) = ["v"]
        ∧ t_pc <$> w_tasks w = [FS_run 0; FS_wait 0; FS_wait 0])
  ∧ (∃ w, run w0 (starts ++ failure ++ wakeups) = Some w
          ∧ resolve_calls (w_mem w) = ["v"; "v"; "v"]
          ∧ length (running "v" w) = 2)
  ∧ (∃ w, run w0 (starts ++ failure ++ wakeups ++ finish) = Some w
          ∧ resolve_calls (w_mem w) = ["v"; "v"; "v"]
          ∧ outcome_of <$> w_tasks w
            = [Some (Raise (DownloadError "unavailable"));
               Some (Return (Some ("https://cdn/v", info)));
               Some (Raise (DownloadError "unavailable"))]).
Proof.
  intros w0 info starts failure wakeups finish.
  split; [|split]; eexists; (split; [vm_compute; reflexivity|]);
    split; vm_compute; reflexivity.
Qed.

(** On the same path a waiter is handed whatever entry is in the cache,
    however old: the re-check after the wait tests presence only. *)
Lemma fetch_stream_join_serves_stale :
  let old := mkAudioEntry "https://cdn/old" 0 in
  let w0 := mkWorld (mkMem {[ "v" := old ]} ∅ ∅ ∅ 0 [])
              (replicate 2 (mkTask Request "v" FS_entry)) in
  let sched := [mkAction 0 20000 (Return ("", empty_track));
                mkAction 1 20000 (Return ("", empty_track));
                mkAction 0 20001 (Raise (DownloadError "unavailable"));
                mkAction 1 20002 (Return ("", empty_track))] in
  ttl_lookup ae_ts AUDIO_URL_TTL 20002 (Some old) = None
  ∧ ∃ w, run w0 sched = Some w
         ∧ outcome_of <$> w_tasks w
           = [Some (Raise (DownloadError "unavailable"));
              Some (Return (Some ("https://cdn/old", empty_track)))].
Proof.
  intros old w0 sched. split; [vm_compute; reflexivity|].
  eexists. split; vm_compute; reflexivity.
Qed.

(** When the shared call succeeds the requests are coalesced. *)
Section task_lists.
Variables (K : nat) (vid : string).
Implicit Types (pcs : nat → fs_pc) (a : Action) (w : World).

Lemma tasks_of_lookup pcs i :
  i < K → tasks_of K vid pcs !! i = Some (mkTask Request vid (pcs i)).
Proof.
  intros Hi. unfold tasks_of. by rewrite list_lookup_fmap, lookup_seq_lt.
Qed.

Lemma tasks_of_lookup_ge pcs i : K ≤ i → tasks_of K vid pcs !! i = None.
Proof.
  intros Hi. unfold tasks_of. by rewrite list_lookup_fmap, lookup_seq_ge.
Qed.

Lemma tasks_of_ext pcs pcs' :
  (∀ i, i < K → pcs i = pcs' i) → tasks_of K vid pcs = tasks_of K vid pcs'.
Proof.
  intros Hext. apply list_eq. intros i. destruct (decide (i < K)).
  - rewrite !tasks_of_lookup by done. by rewrite Hext.
  - rewrite !tasks_of_lookup_ge by lia. done.
Qed.

Lemma tasks_of_insert pcs i pc :
  <[i := mkTask Request vid pc]> (tasks_of K vid pcs)
  = tasks_of K vid (λ j, if decide (j = i) then pc else pcs j).
Proof.
  apply list_eq. intros j. destruct (decide (j < K)) as [Hj|Hj].
  - rewrite tasks_of_lookup by done. destruct (decide (j = i)) as [->|Hne].
    + rewrite list_lookup_insert_eq; [done|]. unfold tasks_of.
      by rewrite length_fmap, length_seq.
    + rewrite list_lookup_insert_ne by done. by apply tasks_of_lookup.
  - rewrite tasks_of_lookup_ge by lia. apply lookup_ge_None.
    rewrite length_insert. unfold tasks_of. rewrite length_fmap, length_seq. lia.
Qed.

Lemma replicate_tasks_of :
  replicate K (mkTask Request vid FS_entry) = tasks_of K vid (λ _, FS_entry).
Proof.
  apply list_eq. intros i. destruct (decide (i < K)).
  - rewrite tasks_of_lookup by done. by apply lookup_replicate_2.
  - rewrite tasks_of_lookup_ge by lia. apply lookup_replicate_None. lia.
Qed.

(** A step of the loop on such a task list. *)
Lemma sched_step_tasks_of m pcs a :
  sched_step (mkWorld m (tasks_of K vid pcs)) a
  = if decide (a_task a < K) then
      match fetch_stream vid (a_now a) (a_ext a) (pcs (a_task a)) m with
      | Some (pc, m') =>
          Some (mkWorld m'
                  (tasks_of K vid (λ j, if decide (j = a_task a) then pc else pcs j)))
      | None => None
      end
    else None.
Proof.
  unfold sched_step. cbn [w_tasks w_mem]. case_decide as Hi.
  - rewrite tasks_of_lookup by done. cbn [t_vid t_pc t_kind].
    destruct (fetch_stream _ _ _ _ _) as [[pc m']|]; [|done].
    by rewrite tasks_of_insert.
  - by rewrite tasks_of_lookup_ge by lia.
Qed.

End task_lists.

Section single_flight.
Variables (K : nat) (vid : string) (m0 : Mem) (leader : nat).
Hypothesis Hcache : _audio_url_cache m0 !! vid = None.
Hypothesis Hinflight : _audio_url_inflight m0 !! vid = None.
Hypothesis Hevent : next_event m0 ∉ events_set m0.

Implicit Types (pcs : nat → fs_pc) (a : Action) (w : World).

(** The runs of one request in the states that occur. *)
Lemma fetch_stream_leads now ext :
  fetch_stream vid now ext FS_entry m0 = Some (begin_fetch vid m0).
Proof using Hcache Hinflight. unfold fetch_stream. by rewrite Hcache, Hinflight. Qed.

Lemma fetch_stream_joins now ext :
  fetch_stream vid now ext FS_entry (begin_fetch vid m0).2
  = Some (FS_wait (next_event m0), (begin_fetch vid m0).2).
Proof using Hcache Hevent.
  unfold fetch_stream, begin_fetch. cbn. rewrite Hcache. cbn.
  rewrite lookup_insert_eq. by rewrite decide_False.
Qed.

Lemma fetch_stream_blocked now ext :
  fetch_stream vid now ext (FS_wait (next_event m0)) (begin_fetch vid m0).2 = None.
Proof using Hevent. unfold fetch_stream, begin_fetch. cbn. by rewrite decide_False. Qed.




(** Requests arriving while the leader is in the executor join it. *)
Lemma run_joining (acts : list Action) waiting :
  NoDup (a_task <$> acts) →
  Forall (λ i, i < K ∧ i ≠ leader ∧ i ∉ waiting) (a_task <$> acts) →
  run (mkWorld (begin_fetch vid m0).2
         (tasks_of K vid (joined_pcs leader (next_event m0) waiting))) acts
  = Some (mkWorld (begin_fetch vid m0).2
            (tasks_of K vid
               (joined_pcs leader (next_event m0) ((a_task <$> acts) ++ waiting)))).
Proof using Hcache Hevent.
  revert waiting. induction acts as [|a acts IH]; intros waiting Hnd Hall; [done|].
  rewrite fmap_cons in Hnd, Hall.
  apply NoDup_cons in Hnd as [Ha Hnd]. apply Forall_cons in Hall as [(Hi & Hl & Hw) Hall].
  cbn [run]. rewrite sched_step_tasks_of, decide_True by done.
  unfold joined_pcs at 1. rewrite decide_False, decide_False by done.
  rewrite fetch_stream_joins.
  rewrite (tasks_of_ext K vid _ (joined_pcs leader (next_event m0) (a_task a :: waiting))).
  2:{ intros j _. unfold joined_pcs. destruct (decide (j = a_task a)) as [->|Hne].
      - rewrite decide_False by done. by rewrite decide_True by left.
      - destruct (decide (j = leader)); [done|].
        destruct (decide (j ∈ waiting)).
        + by rewrite decide_True by by right.
        + rewrite decide_False; [done|]. rewrite not_elem_of_cons. done. }
  rewrite IH; [|done|].
  - f_equal. f_equal. apply tasks_of_ext. intros j _. unfold joined_pcs.
    destruct (decide (j = leader)); [done|].
    assert (j ∈ (a_task <$> acts) ++ a_task a :: waiting
            ↔ j ∈ (a_task <$> a :: acts) ++ waiting) as Hiff.
    { rewrite fmap_cons. rewrite !elem_of_app, !elem_of_cons. tauto. }
    destruct (decide (j ∈ (a_task <$> acts) ++ a_task a :: waiting)) as [Hin|Hin].
    + by rewrite decide_True by by apply Hiff.
    + rewrite decide_False; [done|]. by rewrite <-Hiff.
  - eapply Forall_impl.
    { apply Forall_and. split; [exact Hall|].
      apply Forall_forall. intros j Hj. instantiate (1 := λ j, j ≠ a_task a).
      simpl. intros ->. done. }
    simpl. intros j [(? & ? & ?) ?]. rewrite not_elem_of_cons. done.
Qed.

Variable r : string * Track.

Lemma fetch_stream_completes now :
  fetch_stream vid now (Return r) (FS_run (next_event m0)) (begin_fetch vid m0).2
  = Some (FS_return r, resolved vid r now m0).
Proof using Type. unfold fetch_stream, resolved. by destruct r. Qed.

Lemma fetch_stream_wakes now now' ext :
  fetch_stream vid now' ext (FS_wait (next_event m0)) (resolved vid r now m0)
  = Some (FS_return r, resolved vid r now m0).
Proof using Type.
  unfold fetch_stream, resolved, release, store_result, begin_fetch. cbn.
  rewrite decide_True by (apply elem_of_union_l; by apply elem_of_singleton).
  unfold after_wait, cached_track. cbn. rewrite !lookup_insert_eq. cbn.
  by destruct r.
Qed.

Lemma resolved_calls now :
  resolve_calls (resolved vid r now m0) = resolve_calls m0 ++ [vid].
Proof using Type. done. Qed.

(** Once every request has arrived, only the leader can be resumed. *)
Lemma step_all_joined waiting a w :
  (∀ i, i < K → i ≠ leader → i ∈ waiting) →
  a_ext a = Return r →
  sched_step (mkWorld (begin_fetch vid m0).2
                (tasks_of K vid (joined_pcs leader (next_event m0) waiting))) a
  = Some w →
  a_task a = leader
  ∧ w = mkWorld (resolved vid r (a_now a) m0)
          (tasks_of K vid (served_pcs leader (next_event m0) r [])).
Proof using Hevent.
  intros Hall Hext. rewrite sched_step_tasks_of. case_decide as Hi; [|done].
  unfold joined_pcs at 1. destruct (decide (a_task a = leader)) as [Hl|Hl].
  - rewrite Hext, fetch_stream_completes. intros [= <-]. split; [done|].
    f_equal. apply tasks_of_ext. intros j Hj. unfold joined_pcs, served_pcs.
    rewrite Hl. destruct (decide (j = leader)); [done|].
    rewrite decide_True by auto. by rewrite decide_False by apply not_elem_of_nil.
  - rewrite decide_True by auto. by rewrite fetch_stream_blocked.
Qed.

(** After the call has returned, a step wakes one more waiter. *)
Lemma step_served now served a w :
  sched_step (mkWorld (resolved vid r now m0)
                (tasks_of K vid (served_pcs leader (next_event m0) r served))) a
  = Some w →
  (a_task a < K ∧ a_task a ≠ leader ∧ a_task a ∉ served)
  ∧ w = mkWorld (resolved vid r now m0)
          (tasks_of K vid (served_pcs leader (next_event m0) r (a_task a :: served))).
Proof using Type.
  rewrite sched_step_tasks_of. case_decide as Hi; [|done].
  unfold served_pcs at 1.
  destruct (decide (a_task a = leader)); [done|].
  destruct (decide (a_task a ∈ served)); [done|].
  rewrite fetch_stream_wakes. intros [= <-]. split; [done|].
  f_equal. apply tasks_of_ext. intros j Hj. unfold served_pcs.
  destruct (decide (j = a_task a)) as [->|Hne].
  - rewrite decide_False by done. by rewrite decide_True by left.
  - destruct (decide (j = leader)); [done|].
    destruct (decide (j ∈ served)).
    + by rewrite decide_True by by right.
    + rewrite decide_False; [done|]. rewrite not_elem_of_cons. done.
Qed.

Lemma step_served_enabled now served a :
  a_task a < K → a_task a ≠ leader → a_task a ∉ served →
  sched_step (mkWorld (resolved vid r now m0)
                (tasks_of K vid (served_pcs leader (next_event m0) r served))) a
  = Some (mkWorld (resolved vid r now m0)
            (tasks_of K vid (served_pcs leader (next_event m0) r (a_task a :: served)))).
Proof using Type.
  intros Hi Hl Hs.
  destruct (sched_step _ a) as [w|] eqn:Hstep.
  - by apply step_served in Hstep as [_ ->].
  - rewrite sched_step_tasks_of, decide_True in Hstep by done.
    unfold served_pcs at 1 in Hstep.
    by rewrite !decide_False, fetch_stream_wakes in Hstep.
Qed.

Lemma run_served now served (rest : list Action) w :
  NoDup served → Forall (λ i, i < K ∧ i ≠ leader) served →
  run (mkWorld (resolved vid r now m0)
         (tasks_of K vid (served_pcs leader (next_event m0) r served))) rest
  = Some w →
  ∃ served',
    w = mkWorld (resolved vid r now m0)
          (tasks_of K vid (served_pcs leader (next_event m0) r served'))
    ∧ length served' = length served + length rest
    ∧ NoDup served' ∧ Forall (λ i, i < K ∧ i ≠ leader) served'.
Proof using Type.
  revert served. induction rest as [|a rest IH]; intros served Hnd Hall.
  { intros [= <-]. exists served. simpl. split; [done|]. split; [lia|done]. }
  cbn [run]. destruct (sched_step _ a) as [w1|] eqn:Hstep; [|done].
  apply step_served in Hstep as [(Hi & Hl & Hs) ->]. intros Hrun.
  apply IH in Hrun as (served' & -> & Hlen & Hnd' & Hall').
  - exists served'. simpl in *. split; [done|]. split; [lia|done].
  - by apply NoDup_cons.
  - by apply Forall_cons.
Qed.

(** Who has an outcome in a served state, and which. *)
Lemma served_outcome served t o :
  t ∈ tasks_of K vid (served_pcs leader (next_event m0) r served) →
  outcome_of t = Some o → o = Return (Some r).
Proof using Type.
  unfold tasks_of. intros (i & -> & _)%list_elem_of_fmap.
  unfold outcome_of, served_pcs. cbn.
  repeat case_decide; by intros [= <-].
Qed.

Lemma served_all served :
  leader < K →
  NoDup served → Forall (λ i, i < K ∧ i ≠ leader) served →
  length served + 1 = K →
  Forall (λ t, outcome_of t = Some (Return (Some r)))
    (tasks_of K vid (served_pcs leader (next_event m0) r served)).
Proof using Type.
  intros Hleader Hnd Hall Hlen.
  assert (leader :: served ≡ₚ seq 0 K) as Hperm.
  { apply submseteq_length_Permutation.
    - apply NoDup_submseteq.
      + apply NoDup_cons. split; [|done]. intros Hin.
        by destruct (proj1 (Forall_forall _ _) Hall _ Hin).
      + intros i [->|Hin]%elem_of_cons; apply elem_of_seq; [lia|].
        destruct (proj1 (Forall_forall _ _) Hall _ Hin). lia.
    - rewrite length_seq. simpl. lia. }
  apply Forall_forall. unfold tasks_of. intros t (i & -> & Hi)%list_elem_of_fmap.
  unfold outcome_of, served_pcs. cbn.
  destruct (decide (i = leader)); [done|].
  rewrite decide_True; [done|].
  rewrite <-Hperm in Hi. by apply elem_of_cons in Hi as [?|?].
Qed.

(** Every waiter can be woken, in any order. *)
Lemma run_waking now (wakes : list Action) served :
  NoDup (a_task <$> wakes) →
  Forall (λ i, i < K ∧ i ≠ leader ∧ i ∉ served) (a_task <$> wakes) →
  is_Some (run (mkWorld (resolved vid r now m0)
                  (tasks_of K vid (served_pcs leader (next_event m0) r served))) wakes).
Proof using Type.
  revert served. induction wakes as [|a wakes IH]; intros served Hnd Hall; [done|].
  rewrite fmap_cons in Hnd, Hall.
  apply NoDup_cons in Hnd as [Ha Hnd].
  apply Forall_cons in Hall as [(Hi & Hl & Hs) Hall].
  cbn [run]. rewrite step_served_enabled by done. apply IH; [done|].
  apply Forall_forall. intros j Hj.
  destruct (proj1 (Forall_forall _ _) Hall j Hj) as (? & ? & ?).
  split; [done|]. split; [done|]. rewrite not_elem_of_cons. split; [|done].
  by intros ->.
Qed.
End single_flight.

(** C1, the half that holds. [K] requests for one identifier, none of
    them cached or in flight, all start before any completes; whatever
    the order of arrival and of the later wake-ups, if the external
    call returns [r] it has been submitted exactly once and every
    request that has finished has [r]; after the call and the [K - 1]
    wake-ups all of them have. *)
Lemma fetch_stream_success_coalesced K vid m0 r (starts rest : list Action) w :
  _audio_url_cache m0 !! vid = None →
  _audio_url_inflight m0 !! vid = None →
  next_event m0 ∉ events_set m0 →
  0 < K →
  a_task <$> starts ≡ₚ seq 0 K →
  Forall (λ a, a_ext a = Return r) rest →
  run (mkWorld m0 (replicate K (mkTask Request vid FS_entry))) (starts ++ rest) = Some w →
  resolve_calls (w_mem w) = resolve_calls m0 ++ [vid]
  ∧ (∀ t o, t ∈ w_tasks w → outcome_of t = Some o → o = Return (Some r))
  ∧ (length rest = K →
     Forall (λ t, outcome_of t = Some (Return (Some r))) (w_tasks w)).
Proof.
  intros Hcache Hinflight Hevent HK Hperm Hrest.
  destruct starts as [|a0 joins].
  { apply Permutation_length in Hperm. rewrite length_seq in Hperm.
    simpl in Hperm. lia. }
  assert (NoDup (a_task <$> a0 :: joins)) as Hnd.
  { rewrite Hperm. apply NoDup_seq. }
  assert (∀ i, i ∈ a_task <$> a0 :: joins ↔ i < K) as Hin.
  { intros i. rewrite Hperm, elem_of_seq. lia. }
  rewrite fmap_cons in Hnd, Hin. apply NoDup_cons in Hnd as [Ha0 Hnd].
  set (leader := a_task a0) in *.
  assert (leader < K) as Hleader by (apply Hin; left).
  rewrite <-app_comm_cons. cbn [run].
  rewrite replicate_tasks_of, sched_step_tasks_of, decide_True by done.
  rewrite fetch_stream_leads by done.
  change (begin_fetch vid m0) with (FS_run (next_event m0), (begin_fetch vid m0).2).
  cbv beta iota. fold leader.
  rewrite (tasks_of_ext K vid _ (joined_pcs leader (next_event m0) [])).
  2:{ intros j _. unfold joined_pcs.
      destruct (decide (j = leader)); [done|].
      by rewrite decide_False by apply not_elem_of_nil. }
  assert (∀ l1 l2 w', run w' (l1 ++ l2)
            = match run w' l1 with Some w'' => run w'' l2 | None => None end) as Hrun_app.
  { induction l1 as [|a l1 IH]; intros l2 w'; [done|]. simpl.
    destruct (sched_step w' a); [apply IH|done]. }
  rewrite Hrun_app.
  rewrite (run_joining K vid m0 leader Hcache Hevent joins []); [|done|].
  2:{ apply Forall_forall. intros i Hi. split; [apply Hin; by right|].
      split; [by intros ->|apply not_elem_of_nil]. }
  rewrite app_nil_r.
  assert (∀ i, i < K → i ≠ leader → i ∈ a_task <$> joins) as Hall.
  { intros i Hi Hne. apply Hin in Hi. by apply elem_of_cons in Hi as [?|?]. }
  destruct rest as [|a1 rest].
  { intros [= <-]. cbn. split; [done|]. split; [|lia].
    unfold tasks_of. intros t o (i & -> & _)%list_elem_of_fmap.
    unfold outcome_of, joined_pcs. cbn. by repeat case_decide. }
  apply Forall_cons in Hrest as [Hext Hrest].
  cbn [run]. destruct (sched_step _ a1) as [w1|] eqn:Hstep; [|done].
  eapply (step_all_joined K vid m0 leader Hevent r) in Hstep as [_ ->]; [|done..].
  intros Hrun.
  apply run_served in Hrun as (served & -> & Hlen & Hnd' & Hall');
    [|apply NoDup_nil_2|apply Forall_nil_2].
  cbn [w_mem w_tasks]. split; [done|]. split.
  - intros t o. by apply served_outcome.
  - intros HlenK. apply served_all; [done..|]. simpl in *. lia.
Qed.



(** Such runs exist: whatever the order of arrival, the leader's call
    can return and the waiters can then be woken in any order. *)
Lemma fetch_stream_success_schedule K vid m0 r a0 (joins wakes : list Action) now :
  _audio_url_cache m0 !! vid = None →
  _audio_url_inflight m0 !! vid = None →
  next_event m0 ∉ events_set m0 →
  a_task <$> a0 :: joins ≡ₚ seq 0 K →
  a_task <$> wakes ≡ₚ a_task <$> joins →
  is_Some (run (mkWorld m0 (replicate K (mkTask Request vid FS_entry)))
             ((a0 :: joins) ++ mkAction (a_task a0) now (Return r) :: wakes)).
Proof.
  intros Hcache Hinflight Hevent Hperm Hwakes.
  assert (NoDup (a_task <$> a0 :: joins)) as Hnd.
  { rewrite Hperm. apply NoDup_seq. }
  assert (∀ i, i ∈ a_task <$> a0 :: joins ↔ i < K) as Hin.
  { intros i. rewrite Hperm, elem_of_seq. lia. }
  rewrite fmap_cons in Hnd, Hin. apply NoDup_cons in Hnd as [Ha0 Hnd].
  assert (a_task a0 < K) as Hleader by (apply Hin; left).
  rewrite <-app_comm_cons. cbn [run].
  rewrite replicate_tasks_of, sched_step_tasks_of, decide_True by done.
  rewrite fetch_stream_leads by done.
  change (begin_fetch vid m0) with (FS_run (next_event m0), (begin_fetch vid m0).2).
  cbv beta iota.
  rewrite (tasks_of_ext K vid _ (joined_pcs (a_task a0) (next_event m0) [])).
  2:{ intros j _. unfold joined_pcs.
      destruct (decide (j = a_task a0)); [done|].
      by rewrite decide_False by apply not_elem_of_nil. }
  assert (∀ l1 l2 w', run w' (l1 ++ l2)
            = match run w' l1 with Some w'' => run w'' l2 | None => None end) as Hrun_app.
  { induction l1 as [|a l1 IH]; intros l2 w'; [done|]. simpl.
    destruct (sched_step w' a); [apply IH|done]. }
  rewrite Hrun_app.
  rewrite (run_joining K vid m0 (a_task a0) Hcache Hevent joins []); [|done|].
  2:{ apply Forall_forall. intros i Hi. split; [apply Hin; by right|].
      split; [by intros ->|apply not_elem_of_nil]. }
  rewrite app_nil_r. cbn [run].
  rewrite sched_step_tasks_of. cbn [a_task a_now a_ext].
  rewrite decide_True by done.
  unfold joined_pcs at 1. rewrite decide_True by done.
  rewrite fetch_stream_completes.
  rewrite (tasks_of_ext K vid _ (served_pcs (a_task a0) (next_event m0) r [])).
  2:{ intros j Hj. unfold joined_pcs, served_pcs.
      destruct (decide (j = a_task a0)); [done|].
      rewrite (decide_True (P := j ∈ a_task <$> joins)).
      - by rewrite decide_False by apply not_elem_of_nil.
      - apply Hin in Hj. by apply elem_of_cons in Hj as [?|?]. }
  apply run_waking.
  - by rewrite Hwakes.
  - apply Forall_forall. intros i Hi. rewrite Hwakes in Hi.
    split; [apply Hin; by right|]. split; [by intros ->|apply not_elem_of_nil].
Qed.

(** Three requests, the second one arriving first. *)
Example fetch_stream_three_requests :
  let info := mkTrack (IdStr "v") (Some "Song") None None None None None in
  let r := ("https://cdn/v", info) in
  let idle := Return ("", empty_track) in
  ∀ w,
    run (mkWorld (mkMem ∅ ∅ ∅ ∅ 0 []) (replicate 3 (mkTask Request "v" FS_entry)))
      ([mkAction 1 1 idle; mkAction 2 1 idle; mkAction 0 1 idle]
       ++ [mkAction 1 2 (Return r); mkAction 0 3 (Return r); mkAction 2 3 (Return r)])
    = Some w →
    resolve_calls (w_mem w) = ["v"]
    ∧ Forall (λ t, outcome_of t = Some (Return (Some r))) (w_tasks w).
Proof.
  intros info r idle w Hrun.
  eapply (fetch_stream_success_coalesced 3 "v" _ r) in Hrun as (Hcalls & _ & Hall).
  - split; [exact Hcalls|]. by apply Hall.
  - done.
  - done.
  - cbn. apply not_elem_of_empty.
  - lia.
  - cbn. apply (bool_decide_unpack _). vm_compute. exact I.
  - repeat constructor.
Qed.

(** * Further properties of the code *)

(** ** API keys: [get_user] and [manage_keys.py] *)

Section api_keys.
Implicit Types (keys : list (string * string)) (u k : string).

Lemma next_user_Some keys k u :
  next_user k keys = Some u → (u, k) ∈ keys.
Proof.
  induction keys as [|[u' k'] keys IH]; [done|]. simpl.
  case_decide as Hk.
  - intros [= ->]. subst. left.
  - intros H. right. by apply IH.
Qed.

Lemma next_user_None keys k : next_user k keys = None ↔ k ∉ keys.*2.
Proof.
  induction keys as [|[u' k'] keys IH]; simpl.
  { split; [intros _; apply not_elem_of_nil|done]. }
  rewrite not_elem_of_cons. case_decide as Hk.
  - split; [done|]. by intros [? _].
  - rewrite IH. split; [by split|by intros [_ ?]].
Qed.

Lemma get_user_403 keys api_key :
  api_key ∉ Some <$> keys.*2 →
  get_user keys api_key = HTTPException 403 "Invalid API key".
Proof. intros H. unfold get_user. by rewrite bool_decide_eq_false_2. Qed.

Lemma get_user_held keys k :
  k ∈ keys.*2 → ∃ u, get_user keys (Some k) = OK u ∧ next_user k keys = Some u.
Proof.
  intros Hk. unfold get_user.
  rewrite bool_decide_eq_true_2 by by apply list_elem_of_fmap_2.
  simpl. destruct (next_user k keys) as [u|] eqn:Hn; [by exists u|].
  by apply next_user_None in Hn.
Qed.

(** In a dict, the item list and the lookup agree. *)
Lemma od_get_elem_of {V} (d : list (string * V)) k (v : V) :
  NoDup d.*1 → od_get k d = Some v ↔ (k, v) ∈ d.
Proof.
  induction d as [|[k' v'] d IH]; simpl.
  { intros _. split; [done|]. by intros ?%elem_of_nil. }
  intros [Hk' Hnd]%NoDup_cons. rewrite elem_of_cons. case_decide as Hk.
  - subst. split; [intros [= ->]; by left|].
    intros [[= ->]|Hin]; [done|]. destruct Hk'.
    apply list_elem_of_fmap. by exists (k', v).
  - rewrite IH by done. split; [by right|]. by intros [[= ? ?]|?].
Qed.

Lemma od_get_set_eq {V} (d : list (string * V)) k (v : V) :
  od_get k (od_set k v d) = Some v.
Proof.
  induction d as [|[k' v'] d IH]; simpl; [by rewrite decide_True|].
  case_decide; simpl; [by rewrite decide_True|by rewrite decide_False].
Qed.

Lemma od_get_set_ne {V} (d : list (string * V)) k k' (v : V) :
  k ≠ k' → od_get k' (od_set k v d) = od_get k' d.
Proof.
  intros Hne. induction d as [|[k0 v0] d IH]; simpl.
  { by rewrite decide_False by done. }
  destruct (decide (k = k0)) as [->|Hk]; simpl.
  - by rewrite !decide_False by done.
  - case_decide; [done|apply IH].
Qed.

Lemma od_del_fst {V} (d : list (string * V)) k :
  NoDup d.*1 → (od_del k d).*1 = filter (λ x, x ≠ k) d.*1.
Proof.
  induction d as [|[k' v'] d IH]; [done|]. simpl.
  intros [Hk' Hnd]%NoDup_cons. case_decide as Hk.
  - subst. rewrite filter_cons_False by (intros ?; done).
    symmetry. clear IH Hnd. induction d as [|[k0 v0] d IH]; [done|].
    simpl in *. apply not_elem_of_cons in Hk' as [? ?].
    rewrite filter_cons_True by done. f_equal. by apply IH.
  - rewrite filter_cons_True by done. simpl. f_equal. by apply IH.
Qed.

Lemma od_get_del_eq {V} (d : list (string * V)) k :
  NoDup d.*1 → od_get k (od_del k d) = None.
Proof.
  intros Hnd. apply od_get_None. rewrite od_del_fst by done.
  intros [? _]%list_elem_of_filter. done.
Qed.

Lemma od_get_del_ne {V} (d : list (string * V)) k k' :
  k ≠ k' → od_get k' (od_del k d) = od_get k' d.
Proof.
  intros Hne. induction d as [|[k0 v0] d IH]; [done|]. simpl.
  destruct (decide (k = k0)) as [->|Hk]; simpl.
  - by rewrite decide_False by done.
  - case_decide; [done|apply IH].
Qed.

Lemma od_del_set_new {V} (d : list (string * V)) k (v : V) :
  k ∉ d.*1 → od_del k (od_set k v d) = d.
Proof.
  induction d as [|[k' v'] d IH]; simpl.
  { intros _. by rewrite decide_True. }
  intros [Hne Hk]%not_elem_of_cons. rewrite decide_False by done. simpl.
  rewrite decide_False by done. by rewrite IH.
Qed.

Lemma get_user_OK keys api_key u :
  get_user keys api_key = OK u → ∃ k, api_key = Some k ∧ (u, k) ∈ keys.
Proof.
  unfold get_user. case_bool_decide; [|done].
  destruct api_key as [k|]; simpl; [|done].
  destruct (next_user k keys) as [u'|] eqn:Hn; [|done].
  intros [= <-]. exists k. split; [done|]. by apply next_user_Some.
Qed.

Lemma get_user_unique keys u k :
  (u, k) ∈ keys → (∀ u', (u', k) ∈ keys → u' = u) →
  get_user keys (Some k) = OK u.
Proof.
  intros Hin Huniq.
  destruct (get_user_held keys k) as (u' & Hu' & Hn).
  { apply list_elem_of_fmap. by exists (u, k). }
  rewrite Hu'. f_equal. apply Huniq. by apply next_user_Some.
Qed.
End api_keys.

(** X1. [get_user] answers with a user name only for a key that user
    holds in the key file, and refuses with status 403 exactly when no
    user holds the presented key; a request without the header is
    always refused. It never answers in any other way. *)
Theorem get_user_sound_complete :
  ∀ (keys : list (string * string)) api_key,
    (∀ u, get_user keys api_key = OK u → ∃ k, api_key = Some k ∧ (u, k) ∈ keys)
    ∧ (get_user keys api_key = HTTPException 403 "Invalid API key"
       ↔ api_key ∉ Some <$> keys.*2)
    ∧ ((∃ u, get_user keys api_key = OK u)
       ∨ get_user keys api_key = HTTPException 403 "Invalid API key")
    ∧ get_user keys None = HTTPException 403 "Invalid API key".
Proof.
  intros keys api_key.
  assert (get_user keys None = HTTPException 403 "Invalid API key") as Hnone.
  { apply get_user_403. by intros (? & ? & _)%list_elem_of_fmap. }
  destruct (decide (api_key ∈ Some <$> keys.*2)) as [Hin|Hout].
  - destruct api_key as [k|]; [|by apply list_elem_of_fmap in Hin as (? & ? & _)].
    assert (k ∈ keys.*2) as Hk.
    { apply list_elem_of_fmap in Hin as (k' & [= ->] & ?). done. }
    destruct (get_user_held keys k Hk) as (u & Hu & Hn).
    rewrite Hu. split; [|split; [|split]]; [| |by left; exists u|done].
    + rewrite <-Hu. apply get_user_OK.
    + split; [done|]. by intros [].
  - rewrite get_user_403 by done. split; [done|]. split; [done|]. by split; [right|].
Qed.

Lemma get_user_sound_complete_witness :
  ∃ k, Some "s3cret" = Some k ∧ ("ann", k) ∈ [("bob", "hunter2"); ("ann", "s3cret")].
Proof.
  apply (proj1 (get_user_sound_complete [("bob", "hunter2"); ("ann", "s3cret")]
                  (Some "s3cret")) "ann").
  reflexivity.
Defined.

(** X2. A key held by exactly one user identifies that user. When
    several users hold the same key, [get_user] answers with the one
    that comes first in the key file. *)
Theorem get_user_identifies_holder :
  (∀ (keys : list (string * string)) u k,
     (u, k) ∈ keys → (∀ u', (u', k) ∈ keys → u' = u) →
     get_user keys (Some k) = OK u)
  ∧ (∀ (before after : list (string * string)) u k,
       k ∉ before.*2 →
       get_user (before ++ (u, k) :: after) (Some k) = OK u).
Proof.
  split.
  - apply get_user_unique.
  - intros before after u k Hk.
    destruct (get_user_held (before ++ (u, k) :: after) k) as (u' & Hu' & Hn).
    { rewrite fmap_app, elem_of_app. right. left. }
    rewrite Hu'. f_equal. clear Hu'.
    induction before as [|[u0 k0] before IH]; simpl in *.
    + rewrite decide_True in Hn by done. by injection Hn.
    + apply not_elem_of_cons in Hk as [Hne Hk].
      rewrite decide_False in Hn by done. by apply IH.
Qed.

Lemma get_user_identifies_holder_witness :
  get_user [("bob", "hunter2"); ("ann", "s3cret")] (Some "s3cret") = OK "ann"
  ∧ get_user ([("bob", "hunter2")] ++ ("ann", "shared") :: [("eve", "shared")])
      (Some "shared") = OK "ann".
Proof.
  split.
  - apply (proj1 get_user_identifies_holder).
    + apply (bool_decide_unpack _). vm_compute. exact I.
    + intros u' Hu'.
      apply elem_of_cons in Hu' as [Hu'|Hu']; [discriminate Hu'|].
      apply elem_of_cons in Hu' as [Hu'|Hu']; [by injection Hu'|].
      by apply elem_of_nil in Hu'.
  - apply (proj2 get_user_identifies_holder).
    apply (bool_decide_unpack _). vm_compute. exact I.
Defined.

(** X3. After [manage_keys.py add <user> <key>] (or [gen <user>]) the
    file maps the user to that key and leaves every other user's key as
    it was; the key then authenticates, and as that user when no other
    user holds it. Further arguments are ignored. *)
Theorem manage_keys_add_authenticates :
  ∀ file u k more token,
    NoDup (default [] file).*1 →
    let keys := default [] file in
    let added := manage_keys_main ("add" :: u :: k :: more) file token in
    let generated := manage_keys_main ("gen" :: u :: more) file token in
    mk_file added = Some (od_set u k keys)
    ∧ mk_file generated = Some (od_set u token keys)
    ∧ od_get u (od_set u k keys) = Some k
    ∧ (∀ u', u' ≠ u → od_get u' (od_set u k keys) = od_get u' keys)
    ∧ NoDup (od_set u k keys).*1
    ∧ (∃ u', get_user (od_set u k keys) (Some k) = OK u')
    ∧ ((∀ u', u' ≠ u → od_get u' keys ≠ Some k) →
       get_user (od_set u k keys) (Some k) = OK u).
Proof.
  intros file u k more token Hnd keys added generated.
  assert (NoDup (od_set u k keys).*1) as Hnd' by by apply od_set_NoDup.
  assert ((u, k) ∈ od_set u k keys) as Hin.
  { apply od_get_elem_of; [done|]. apply od_get_set_eq. }
  split; [done|]. split; [done|]. split; [apply od_get_set_eq|].
  split; [intros u' Hne; by apply od_get_set_ne|]. split; [done|]. split.
  - destruct (get_user_held (od_set u k keys) k) as (u' & Hu' & _); [|by exists u'].
    apply list_elem_of_fmap. by exists (u, k).
  - intros Hother. apply get_user_unique; [done|].
    intros u' Hu'. destruct (decide (u' = u)) as [->|Hne]; [done|].
    apply od_get_elem_of in Hu'; [|done].
    rewrite od_get_set_ne in Hu' by done. by destruct (Hother u' Hne).
Qed.

Lemma manage_keys_add_authenticates_witness :
  let file := Some [("bob", "hunter2")] in
  mk_file (manage_keys_main ["add"; "ann"; "s3cret"] file "") =
    Some [("bob", "hunter2"); ("ann", "s3cret")]
  ∧ get_user [("bob", "hunter2"); ("ann", "s3cret")] (Some "s3cret") = OK "ann".
Proof.
  intros file.
  destruct (manage_keys_add_authenticates file "ann" "s3cret" [] "")
    as (H1 & _ & _ & _ & _ & _ & H7).
  - apply (bool_decide_unpack _). vm_compute. exact I.
  - split; [exact H1|]. apply H7. intros u' Hne. simpl.
    case_decide; discriminate.
Defined.

(** X4. [manage_keys.py remove <user>]: for a user in the file, the
    user is gone afterwards, no key authenticates as that user any
    more, and the other users keep their keys; for an unknown user the
    tool prints that and does not touch the file. Removing a user that
    was just added to a file without it gives the old contents back. *)
Theorem manage_keys_remove_revokes :
  ∀ file u more token,
    NoDup (default [] file).*1 →
    let keys := default [] file in
    let removed := manage_keys_main ("remove" :: u :: more) file token in
    (od_get u keys = None →
     removed = mkRun file [L_not_found] None)
    ∧ (is_Some (od_get u keys) →
       mk_file removed = Some (od_del u keys)
       ∧ od_get u (od_del u keys) = None
       ∧ (∀ api_key, get_user (od_del u keys) api_key ≠ OK u)
       ∧ (∀ u', u' ≠ u → od_get u' (od_del u keys) = od_get u' keys))
    ∧ (∀ k, od_get u keys = None → od_del u (od_set u k keys) = keys).
Proof.
  intros file u more token Hnd keys removed. split; [|split].
  - intros Hu. subst removed. simpl. fold keys. by rewrite Hu.
  - intros [k Hu]. subst removed. simpl. fold keys. rewrite Hu.
    split; [done|]. split; [by apply od_get_del_eq|]. split.
    + intros api_key Hget.
      apply get_user_OK in Hget as (k' & _ & Hin).
      assert (u ∈ (od_del u keys).*1) as Hin'.
      { apply list_elem_of_fmap. by exists (u, k'). }
      rewrite od_del_fst in Hin' by done.
      by apply list_elem_of_filter in Hin' as [? _].
    + intros u' Hne. by apply od_get_del_ne.
  - intros k Hu. apply od_del_set_new. by apply od_get_None.
Qed.

Lemma manage_keys_remove_revokes_witness :
  let file := Some [("bob", "hunter2"); ("ann", "s3cret")] in
  mk_file (manage_keys_main ["remove"; "ann"] file "") = Some [("bob", "hunter2")]
  ∧ manage_keys_main ["remove"; "eve"] file "" = mkRun file [L_not_found] None.
Proof.
  intros file.
  destruct (manage_keys_remove_revokes file "ann" [] "") as (_ & H2 & _).
  { apply (bool_decide_unpack _). vm_compute. exact I. }
  destruct (manage_keys_remove_revokes file "eve" [] "") as (H1 & _ & _).
  { apply (bool_decide_unpack _). vm_compute. exact I. }
  split.
  - apply H2. vm_compute. eexists. reflexivity.
  - apply H1. reflexivity.
Defined.



(** ** Building tracks from what yt-dlp returns *)

Section tracks.
Implicit Types (e : Entry) (t : Track) (fmt : Format).

Lemma truthy_true v : truthy v = true ↔ ∃ s, v = Some s ∧ s ≠ "".
Proof.
  destruct v as [s|]; simpl.
  - rewrite negb_true_iff, bool_decide_eq_false. split; [by exists s|].
    by intros (? & [= <-] & ?).
  - split; [done|]. by intros (? & ? & _).
Qed.

Lemma or_empty_truthy v s : v = Some s → or_empty v = s.
Proof.
  intros ->. unfold or_empty, py_or. simpl.
  case_bool_decide; by subst.
Qed.

Lemma py_or_truthy a b : truthy b = true → truthy (py_or a b) = true.
Proof. unfold py_or. by destruct (truthy a) eqn:Ha. Qed.

(** What a track built from an entry with an identifier looks like. *)
Lemma entry_track_shape e s :
  e_id e = Some s → s ≠ "" →
  track_id (_entry_to_track e) = Some s
  ∧ track_url (_entry_to_track e) = Some ("https://www.youtube.com/watch?v=" +:+ s)
  ∧ truthy (track_thumbnail (_entry_to_track e)) = true.
Proof.
  intros He Hs. unfold _entry_to_track. simpl.
  rewrite (or_empty_truthy _ s He). split; [done|]. split; [done|].
  apply py_or_truthy, truthy_true. eexists. split; [done|].
  unfold String.append. discriminate.
Qed.

Lemma filter_fmap_list {A B} (f : A → B) (P : B → Prop) `{!∀ x, Decision (P x)}
    (l : list A) :
  filter P (f <$> l) = f <$> filter (λ x, P (f x)) l.
Proof.
  induction l as [|x l IH]; [done|]. rewrite fmap_cons.
  destruct (decide (P (f x))).
  - rewrite !filter_cons_True by done. by rewrite fmap_cons, IH.
  - by rewrite !filter_cons_False by done.
Qed.

Lemma entry_track_id e :
  truthy (e_id e) = true → track_id (_entry_to_track e) = e_id e.
Proof.
  intros (s & He & Hs)%truthy_true.
  rewrite (proj1 (entry_track_shape e s He Hs)). done.
Qed.

Lemma entry_tracks_ids (P : Entry → Prop) `{!∀ e, Decision (P e)} (entries : list Entry) :
  (∀ e, P e → truthy (e_id e) = true) →
  track_id <$> (_entry_to_track <$> filter P entries) = e_id <$> filter P entries.
Proof.
  intros HP. rewrite <-list_fmap_compose. apply list_fmap_ext.
  intros i e He. simpl. apply entry_track_id, HP.
  apply list_elem_of_lookup_2 in He. by apply list_elem_of_filter in He as [? _].
Qed.
End tracks.

(** X6. [_sync_search] keeps the entries that have a non-empty
    identifier, in the order yt-dlp gave them, and turns each into a
    track: the identifier, the title and the duration as they are, the
    uploader as channel (the entry's channel when it has no uploader),
    the entry's thumbnail, or the default one made from the identifier
    when the entry has none, the watch URL made from the identifier,
    and no description. Entries without identifier are dropped, and an
    answer that is no dict or has no entries gives the empty list. *)
Theorem sync_search_tracks :
  ∀ raw,
    let entries := default [] (i_entries (info_of raw)) in
    let kept := filter (λ e, truthy (e_id e) = true) entries in
    ∃ tracks,
      _sync_search (Return raw) = Return tracks
      ∧ track_id <$> tracks = filter (λ i, truthy i = true) (e_id <$> entries)
      ∧ Forall (λ t, ∃ s, track_id t = Some s ∧ s ≠ ""
                     ∧ track_url t = Some ("https://www.youtube.com/watch?v=" +:+ s)
                     ∧ truthy (track_thumbnail t) = true) tracks
      ∧ Forall2 (λ e t, ∃ s,
                   e_id e = Some s ∧ s ≠ ""
                   ∧ track_id_field t = IdStr s
                   ∧ track_title t = e_title e
                   ∧ track_channel t
                     = (if truthy (e_uploader e) then e_uploader e else e_channel e)
                   ∧ track_duration t = e_duration e
                   ∧ track_thumbnail t
                     = (if truthy (e_thumbnail e) then e_thumbnail e
                        else Some ("https://i.ytimg.com/vi/" +:+ s +:+ "/mqdefault.jpg"))
                   ∧ track_url t = Some ("https://www.youtube.com/watch?v=" +:+ s)
                   ∧ track_description t = None) kept tracks
      ∧ length tracks ≤ length entries
      ∧ (raw = None ∨ i_entries (info_of raw) = None → tracks = []).
Proof.
  intros raw entries kept. eexists. split; [reflexivity|]. fold entries. fold kept.
  split; [|split; [|split; [|split]]].
  - unfold kept. rewrite entry_tracks_ids by done. by rewrite filter_fmap_list.
  - apply Forall_fmap, Forall_forall. intros e [He _]%list_elem_of_filter.
    simpl. apply truthy_true in He as (s & He & Hs). exists s.
    destruct (entry_track_shape e s He Hs) as (? & ? & ?). done.
  - apply Forall2_fmap_r, Forall_Forall2_diag, Forall_forall.
    intros e [He _]%list_elem_of_filter.
    apply truthy_true in He as (s & He & Hs). exists s.
    unfold _entry_to_track. cbn. rewrite (or_empty_truthy _ s He).
    by repeat split.
  - rewrite length_fmap. apply length_filter.
  - subst kept entries. intros [->| ->]; done.
Qed.

(** X7. [_sync_related] gives at most 12 tracks, never the seed video
    and never an entry without identifier: they are the first 12 of
    the remaining entries, in order. *)
Theorem sync_related_tracks :
  ∀ video_id raw,
    let entries := default [] (i_entries (info_of raw)) in
    ∃ tracks,
      _sync_related video_id (Return raw) = Return tracks
      ∧ length tracks ≤ 12
      ∧ track_id <$> tracks
        = take 12 (filter (λ i, truthy i = true ∧ i ≠ Some video_id) (e_id <$> entries))
      ∧ Forall (λ t, ∃ s, track_id t = Some s ∧ s ≠ "" ∧ s ≠ video_id) tracks.
Proof.
  intros video_id raw entries. eexists. split; [reflexivity|]. fold entries.
  split; [|split].
  - rewrite length_take. lia.
  - rewrite fmap_take, entry_tracks_ids by (by intros ? [? _]).
    by rewrite filter_fmap_list.
  - apply Forall_take, Forall_fmap, Forall_forall.
    intros e [[He Hne] _]%list_elem_of_filter. simpl.
    apply truthy_true in He as (s & He & Hs). exists s.
    destruct (entry_track_shape e s He Hs) as (? & _).
    split; [done|]. split; [done|]. intros ->. by rewrite He in Hne.
Qed.

(** The first element with a property splits the list. *)
Lemma head_filter_split {A} (P : A → Prop) `{!∀ x, Decision (P x)} (l : list A) a :
  head (filter P l) = Some a →
  ∃ l1 l2, l = l1 ++ a :: l2 ∧ P a ∧ Forall (λ x, ¬ P x) l1.
Proof.
  induction l as [|x l IH]; [done|].
  destruct (decide (P x)) as [Hx|Hx].
  - rewrite filter_cons_True by done. intros [= ->].
    exists [], l. by repeat split.
  - rewrite filter_cons_False by done. intros (l1 & l2 & -> & Ha & Hl1)%IH.
    exists (x :: l1), l2. split; [done|]. split; [done|]. by constructor.
Qed.

Section formats.
Implicit Types (fmt x y : Format) (formats : list Format).

(** Higher bitrate first. *)
#[local] Instance abr_ge_trans :
  Transitive (λ x y : Format, (abr_key y <= abr_key x)%Q).
Proof. intros x y z Hxy Hyz. by eapply Qle_trans. Qed.

Lemma insert_by_abr_perm x formats : insert_by_abr x formats ≡ₚ x :: formats.
Proof.
  induction formats as [|y formats IH]; [done|]. simpl.
  destruct (Qle_bool _ _); [done|]. rewrite IH. apply Permutation_swap.
Qed.

Lemma sorted_by_abr_perm formats : sorted_by_abr formats ≡ₚ formats.
Proof.
  induction formats as [|x formats IH]; [done|]. simpl.
  by rewrite insert_by_abr_perm, IH.
Qed.

Lemma insert_by_abr_sorted x formats :
  StronglySorted (λ x y, (abr_key y <= abr_key x)%Q) formats →
  StronglySorted (λ x y, (abr_key y <= abr_key x)%Q) (insert_by_abr x formats).
Proof.
  induction 1 as [|y formats Hs IH Hy]; simpl.
  { by repeat constructor. }
  destruct (Qle_bool _ _) eqn:Hle.
  - apply Qle_bool_iff in Hle. constructor; [by constructor|].
    constructor; [done|]. eapply Forall_impl; [exact Hy|].
    intros z Hz. simpl in *. by eapply Qle_trans.
  - constructor; [done|]. rewrite insert_by_abr_perm. constructor; [|done].
    destruct (Qlt_le_dec (abr_key y) (abr_key x)) as [Hlt|Hge]; [|done].
    apply Qlt_le_weak, Qle_bool_iff in Hlt. congruence.
Qed.

Lemma sorted_by_abr_sorted formats :
  StronglySorted (λ x y, (abr_key y <= abr_key x)%Q) (sorted_by_abr formats).
Proof.
  induction formats as [|x formats IH]; [constructor|].
  simpl. by apply insert_by_abr_sorted.
Qed.

(** The format the loop stops at. *)
Lemma best_format formats fmt :
  head (filter (λ fmt, usable fmt = true) (sorted_by_abr formats)) = Some fmt →
  fmt ∈ formats ∧ usable fmt = true
  ∧ ∀ y, y ∈ formats → usable y = true → (abr_key y <= abr_key fmt)%Q.
Proof.
  intros (l1 & l2 & Hsplit & Hfmt & Hl1)%head_filter_split.
  pose proof (sorted_by_abr_sorted formats) as Hs.
  pose proof (sorted_by_abr_perm formats) as Hp.
  rewrite Hsplit in Hs, Hp. split; [|split; [done|]].
  - rewrite <-Hp, elem_of_app. right. left.
  - intros y Hy Huse. rewrite <-Hp, elem_of_app, elem_of_cons in Hy.
    destruct Hy as [Hy|[->|Hy]].
    + by destruct (proj1 (Forall_forall _ _) Hl1 y Hy).
    + apply Qle_refl.
    + apply StronglySorted_app_1_r in Hs.
      apply StronglySorted_inv in Hs as [_ Hall].
      by apply (proj1 (Forall_forall _ _) Hall y).
Qed.

Lemma no_format formats :
  head (filter (λ fmt, usable fmt = true) (sorted_by_abr formats)) = None
  ↔ ∀ y, y ∈ formats → usable y = false.
Proof.
  rewrite head_None. split.
  - intros Hnil y Hy. apply not_true_is_false. intros Huse.
    apply (filter_nil_not_elem_of _ _ y Hnil Huse).
    by rewrite sorted_by_abr_perm.
  - intros Hall. destruct (filter _ _) as [|x l] eqn:Hf; [done|].
    assert (x ∈ filter (λ fmt, usable fmt = true) (sorted_by_abr formats)) as Hx
      by (rewrite Hf; left).
    apply list_elem_of_filter in Hx as [Huse Hx].
    rewrite sorted_by_abr_perm in Hx. rewrite (Hall x Hx) in Huse. done.
Qed.


(** On ASCII text a character is a byte. *)
Lemma str_len_ascii s :
  Forall (λ c, Ascii.nat_of_ascii c < 128) (String.list_ascii_of_string s) →
  str_len s = String.length s.
Proof.
  induction s as [|c s IH]; [done|]. cbn [String.list_ascii_of_string].
  intros [Hc Hs]%Forall_cons. cbn [str_len String.length]. rewrite (IH Hs).
  unfold is_continuation. cbn zeta.
  destruct (128 <=? Ascii.nat_of_ascii c) eqn:Hle; [|done].
  apply Nat.leb_le in Hle. lia.
Qed.
End formats.

(** X8. [_sync_audio_url] raises [ValueError] exactly when no format
    is usable, that is, has a non-empty URL and an audio codec other
    than ["none"]. Otherwise the URL it returns is that of a usable
    format whose bitrate (a missing one counting as 0) is not below
    that of any other usable format. A failure of yt-dlp is passed on. *)
Theorem sync_audio_url_best_format :
  ∀ raw,
    let formats := default [] (i_formats (info_of raw)) in
    (_sync_audio_url (Return raw) = Raise (ValueError "No audio format found")
     ↔ ∀ y, y ∈ formats → usable y = false)
    ∧ (∀ audio_url track_info,
         _sync_audio_url (Return raw) = Return (audio_url, track_info) →
         audio_url ≠ ""
         ∧ ∃ fmt, fmt ∈ formats ∧ f_url fmt = Some audio_url
                  ∧ f_acodec fmt ≠ Some "none"
                  ∧ ∀ y, y ∈ formats → usable y = true →
                         (abr_key y <= abr_key fmt)%Q)
    ∧ (∀ e, _sync_audio_url (Raise e) = Raise e).
Proof.
  intros raw formats. unfold _sync_audio_url. fold formats.
  destruct (head _) as [fmt|] eqn:Hhead.
  - destruct (best_format formats fmt Hhead) as (Hin & Huse & Hbest).
    apply andb_true_iff in Huse as [Hcodec Hurl].
    apply truthy_true in Hurl as (s & Hs & Hne).
    split; [|split; [|done]].
    + split; [done|]. intros Hall. specialize (Hall fmt Hin).
      unfold usable in Hall. rewrite Hcodec, Hs in Hall. simpl in Hall.
      by rewrite bool_decide_eq_false_2 in Hall.
    + intros audio_url track_info [= <- _].
      rewrite (or_empty_truthy _ s Hs). split; [done|].
      exists fmt. split; [done|]. split; [done|]. split; [|done].
      apply negb_true_iff in Hcodec. by apply bool_decide_eq_false in Hcodec.
  - pose proof (proj1 (no_format formats) Hhead) as Hnone.
    split; [done|]. split; [done|done].
Qed.

Lemma sync_audio_url_best_format_witness :
  let low := mkFormat (Some 64%Q) (Some "opus") (Some "https://cdn/low") in
  let video := mkFormat (Some 900%Q) (Some "none") (Some "https://cdn/video") in
  let high := mkFormat (Some 160%Q) None (Some "https://cdn/high") in
  let raw := Some (mkInfo (Some "v") None None None None None None
                     (Some [low; video; high])) in
  "https://cdn/high" ≠ ""
  ∧ ∃ fmt, fmt ∈ [low; video; high] ∧ f_url fmt = Some "https://cdn/high"
           ∧ f_acodec fmt ≠ Some "none"
           ∧ ∀ y, y ∈ [low; video; high] → usable y = true →
                  (abr_key y <= abr_key fmt)%Q.
Proof.
  intros low video high raw.
  eapply (proj1 (proj2 (sync_audio_url_best_format raw))).
  vm_compute. reflexivity.
Defined.



(** ** Resolution: one request after another *)

Section resolution.
Implicit Types (m : Mem) (vid : string) (r : string * Track).

Lemma fetch_stream_miss vid now ext m :
  ttl_lookup ae_ts AUDIO_URL_TTL now (_audio_url_cache m !! vid) = None →
  _audio_url_inflight m !! vid = None →
  fetch_stream vid now ext FS_entry m = Some (begin_fetch vid m).
Proof. intros Hmiss Hin. unfold fetch_stream. by rewrite Hmiss, Hin. Qed.

Lemma fetch_stream_hit_resolved vid r t0 m0 now ext :
  (now - t0 < AUDIO_URL_TTL)%Q →
  fetch_stream vid now ext FS_entry (resolved vid r t0 m0)
  = Some (FS_return r, resolved vid r t0 m0).
Proof.
  intros Hlt. unfold fetch_stream, resolved, release, store_result, begin_fetch. cbn.
  rewrite lookup_insert_eq.
  rewrite (proj2 (ttl_lookup_Some ae_ts AUDIO_URL_TTL now _ (mkAudioEntry r.1 t0)))
    by done.
  unfold cached_track. cbn. rewrite lookup_insert_eq. by destruct r.
Qed.

Lemma resolved_inflight vid r t0 m0 :
  _audio_url_inflight (resolved vid r t0 m0) !! vid = None.
Proof. unfold resolved, release. cbn. apply lookup_delete_eq. Qed.

Lemma fti_of_return r : fti_of (FS_return r) = FTI_return r.2.
Proof. by destruct r. Qed.
End resolution.

(** X10. A resolution is cached. A request that finds no fresh entry
    and no fetch in flight submits one external call; when that call
    returns, any request for the identifier arriving within the TTL is
    answered with the same URL and metadata at once, without another
    call and without touching the state. From the TTL on, the next
    request resolves again. *)
Theorem fetch_stream_resolution_cached :
  ∀ vid m now0 ext0 r t0,
    ttl_lookup ae_ts AUDIO_URL_TTL now0 (_audio_url_cache m !! vid) = None →
    _audio_url_inflight m !! vid = None →
    let m2 := resolved vid r t0 m in
    fetch_stream vid now0 ext0 FS_entry m = Some (begin_fetch vid m)
    ∧ fetch_stream vid t0 (Return r) (begin_fetch vid m).1 (begin_fetch vid m).2
      = Some (FS_return r, m2)
    ∧ resolve_calls m2 = resolve_calls m ++ [vid]
    ∧ (∀ now1 ext1, (now1 - t0 < AUDIO_URL_TTL)%Q →
         fetch_stream vid now1 ext1 FS_entry m2 = Some (FS_return r, m2))
    ∧ (∀ now1 ext1, (AUDIO_URL_TTL <= now1 - t0)%Q →
         fetch_stream vid now1 ext1 FS_entry m2 = Some (begin_fetch vid m2)
         ∧ resolve_calls (begin_fetch vid m2).2 = resolve_calls m ++ [vid; vid]).
Proof.
  intros vid m now0 ext0 r t0 Hmiss Hin m2.
  split; [by apply fetch_stream_miss|]. split; [by destruct r|]. split; [done|].
  split; [intros; by apply fetch_stream_hit_resolved|].
  intros now1 ext1 Hge. split.
  - apply fetch_stream_miss; [|apply resolved_inflight].
    apply ttl_lookup_None. right. exists (mkAudioEntry r.1 t0).
    split; [|done]. subst m2. unfold resolved, release, store_result. cbn.
    apply lookup_insert_eq.
  - subst m2. cbn. by rewrite <-app_assoc.
Qed.

Lemma fetch_stream_resolution_cached_witness :
  let m := mkMem ∅ ∅ ∅ ∅ 0 [] in
  let r := ("https://cdn/v", empty_track) in
  fetch_stream "v" 100 (Raise (ValueError "")) FS_entry (resolved "v" r 10 m)
  = Some (FS_return r, resolved "v" r 10 m).
Proof.
  intros m r.
  destruct (fetch_stream_resolution_cached "v" m 1%Q (Raise (ValueError "")) r 10%Q)
    as (_ & _ & _ & H & _).
  - reflexivity.
  - reflexivity.
  - apply H. reflexivity.
Defined.

(** X11. A failed resolution is not cached and does not stay in the
    way. When the external call raises, the exception goes to the
    caller, both caches are as before, the identifier is no longer in
    flight and its event is set; the next request for it submits a
    new call. *)
Theorem fetch_stream_failure_not_cached :
  ∀ vid m e t0,
    _audio_url_cache m !! vid = None →
    let ev := next_event m in
    let mf := release vid ev (begin_fetch vid m).2 in
    fetch_stream vid t0 (Raise e) (FS_run ev) (begin_fetch vid m).2
    = Some (FS_raise e, mf)
    ∧ _audio_url_cache mf = _audio_url_cache m
    ∧ _track_info_cache mf = _track_info_cache m
    ∧ _audio_url_inflight mf !! vid = None
    ∧ ev ∈ events_set mf
    ∧ ∀ now1 ext1,
        fetch_stream vid now1 ext1 FS_entry mf = Some (begin_fetch vid mf)
        ∧ resolve_calls (begin_fetch vid mf).2 = resolve_calls m ++ [vid; vid].
Proof.
  intros vid m e t0 Hcache ev mf.
  split; [done|]. split; [done|]. split; [done|].
  split; [apply lookup_delete_eq|].
  split; [apply elem_of_union_l; by apply elem_of_singleton|].
  intros now1 ext1. split.
  - apply fetch_stream_miss; [|apply lookup_delete_eq].
    subst mf. cbn. by rewrite Hcache.
  - subst mf. cbn. by rewrite <-app_assoc.
Qed.

Lemma fetch_stream_failure_not_cached_witness :
  let m := mkMem ∅ ∅ ∅ ∅ 0 [] in
  fetch_stream "v" 5 (Raise (DownloadError "gone")) (FS_run 0) (begin_fetch "v" m).2
  = Some (FS_raise (DownloadError "gone"), release "v" 0 (begin_fetch "v" m).2).
Proof.
  intros m.
  apply (proj1 (fetch_stream_failure_not_cached "v" m (DownloadError "gone") 5%Q
                  eq_refl)).
Defined.

(** X12. A run of [fetch_stream] for one identifier leaves the cache
    entries and the in-flight entry of every other identifier as they
    were, and adds at most its own identifier to the log of external
    calls. *)
Theorem fetch_stream_other_ids_untouched :
  ∀ vid now ext pc m pc' m' vid',
    fetch_stream vid now ext pc m = Some (pc', m') →
    vid' ≠ vid →
    _audio_url_cache m' !! vid' = _audio_url_cache m !! vid'
    ∧ _track_info_cache m' !! vid' = _track_info_cache m !! vid'
    ∧ _audio_url_inflight m' !! vid' = _audio_url_inflight m !! vid'
    ∧ (resolve_calls m' = resolve_calls m
       ∨ resolve_calls m' = resolve_calls m ++ [vid]).
Proof.
  intros vid now ext pc m pc' m' vid' Hstep Hne.
  assert (∀ m0 p0 m1, begin_fetch vid m0 = (p0, m1) →
            _audio_url_cache m1 !! vid' = _audio_url_cache m0 !! vid'
            ∧ _track_info_cache m1 !! vid' = _track_info_cache m0 !! vid'
            ∧ _audio_url_inflight m1 !! vid' = _audio_url_inflight m0 !! vid'
            ∧ (resolve_calls m1 = resolve_calls m0
               ∨ resolve_calls m1 = resolve_calls m0 ++ [vid])) as Hbegin.
  { intros m0 p0 m1 [= <- <-]. cbn. rewrite lookup_insert_ne by done. auto. }
  assert (∀ m0 p0 m1, after_wait vid m0 = (p0, m1) →
            _audio_url_cache m1 !! vid' = _audio_url_cache m0 !! vid'
            ∧ _track_info_cache m1 !! vid' = _track_info_cache m0 !! vid'
            ∧ _audio_url_inflight m1 !! vid' = _audio_url_inflight m0 !! vid'
            ∧ (resolve_calls m1 = resolve_calls m0
               ∨ resolve_calls m1 = resolve_calls m0 ++ [vid])) as Hafter.
  { intros m0 p0 m1. unfold after_wait.
    destruct (_audio_url_cache m0 !! vid); [intros [= <- <-]; auto|apply Hbegin]. }
  unfold fetch_stream in Hstep. destruct pc as [|ev|ev|r|e]; [| | |done|done].
  - destruct (ttl_lookup _ _ _ _); [injection Hstep as <- <-; auto|].
    destruct (_audio_url_inflight m !! vid) as [ev|].
    + case_decide; [|injection Hstep as <- <-; auto].
      apply (inj Some) in Hstep. exact (Hafter _ _ _ Hstep).
    + apply (inj Some) in Hstep. exact (Hbegin _ _ _ Hstep).
  - case_decide; [|done]. apply (inj Some) in Hstep. exact (Hafter _ _ _ Hstep).
  - destruct ext as [[audio_url track_info]|e]; injection Hstep as <- <-; cbn.
    + rewrite !lookup_insert_ne, lookup_delete_ne by done. auto.
    + rewrite lookup_delete_ne by done. auto.
Qed.

Lemma fetch_stream_other_ids_untouched_witness :
  let m := mkMem {[ "w" := mkAudioEntry "https://cdn/w" 3 ]} ∅ ∅ ∅ 0 [] in
  _audio_url_cache (begin_fetch "v" m).2 !! "w" = _audio_url_cache m !! "w".
Proof.
  intros m.
  apply (fetch_stream_other_ids_untouched "v" 5%Q (Raise (ValueError "")) FS_entry m
           (begin_fetch "v" m).1 (begin_fetch "v" m).2 "w").
  - reflexivity.
  - discriminate.
Defined.

(** ** Invariants of the event loop *)

Section loop_invariants.
Implicit Types (w : World) (a : Action) (m : Mem) (t : Task).

Lemma run_app w (s1 s2 : list Action) :
  run w (s1 ++ s2)
  = match run w s1 with Some w' => run w' s2 | None => None end.
Proof.
  revert w. induction s1 as [|a s1 IH]; intros w; [done|]. simpl.
  destruct (sched_step w a); [apply IH|done].
Qed.

(** An invariant of single steps holds along a schedule. *)
Lemma run_invariant (I : World → Prop) :
  (∀ w a w', I w → sched_step w a = Some w' → I w') →
  ∀ sched w w', I w → run w sched = Some w' → I w'.
Proof.
  intros Hstep. induction sched as [|a sched IH]; intros w w' HI; simpl.
  { by intros [= <-]. }
  destruct (sched_step w a) as [w1|] eqn:Ha; [|done].
  apply IH. by eapply Hstep.
Qed.

(** What a step does to the task list. *)
Lemma sched_step_inv w a w' :
  sched_step w a = Some w' →
  ∃ t pc,
    w_tasks w !! a_task a = Some t
    ∧ fetch_stream (t_vid t) (a_now a) (a_ext a) (t_pc t) (w_mem w) = Some (pc, w_mem w')
    ∧ w_tasks w' = <[a_task a := mkTask (t_kind t) (t_vid t) pc]> (w_tasks w).
Proof.
  unfold sched_step. destruct (w_tasks w !! a_task a) as [t|] eqn:Ht; [|done].
  destruct (fetch_stream _ _ _ _ _) as [[pc m]|] eqn:Hf; [|done].
  intros [= <-]. by exists t, pc.
Qed.

Lemma lookup_task_after (tasks : list Task) i t' j t :
  <[i := t']> tasks !! j = Some t →
  (j = i ∧ t = t') ∨ (j ≠ i ∧ tasks !! j = Some t).
Proof.
  destruct (decide (j = i)) as [->|Hne].
  - intros Hl. left. split; [done|].
    destruct (decide (i < length tasks)).
    + rewrite list_lookup_insert_eq in Hl by done. by injection Hl.
    + rewrite list_insert_ge in Hl by lia.
      apply lookup_lt_Some in Hl. lia.
  - rewrite list_lookup_insert_ne by done. by right.
Qed.

Lemma store_result_paired vid now url info m :
  caches_paired m → caches_paired (store_result vid now url info m).
Proof.
  intros Hp vid'. unfold store_result. cbn.
  destruct (decide (vid' = vid)) as [->|Hne].
  - rewrite !lookup_insert_eq. split; by eexists.
  - rewrite !lookup_insert_ne by done. apply Hp.
Qed.

Lemma fetch_stream_paired vid now ext pc m pc' m' :
  caches_paired m → fetch_stream vid now ext pc m = Some (pc', m') →
  caches_paired m'.
Proof.
  intros Hp. unfold fetch_stream, after_wait, begin_fetch.
  destruct pc as [|ev|ev|r|e]; [| | |done|done].
  - destruct (ttl_lookup _ _ _ _); [by intros [= _ <-]|].
    destruct (_audio_url_inflight m !! vid) as [ev|]; [|by intros [= _ <-]].
    case_decide; [|by intros [= _ <-]].
    destruct (_audio_url_cache m !! vid); by intros [= _ <-].
  - case_decide; [|done].
    destruct (_audio_url_cache m !! vid); by intros [= _ <-].
  - destruct ext as [[url info]|e]; intros [= _ <-]; [|done].
    by apply (store_result_paired vid now url info).
Qed.
End loop_invariants.

(** X13. The URL cache and the metadata cache are filled together:
    along every schedule of the loop, from a state in which they hold
    the same identifiers (such as the empty caches the server starts
    with), they keep holding the same identifiers. Whenever a URL is
    served from the cache, the metadata served with it is therefore
    the stored one, never the empty fallback. *)
Theorem run_caches_paired :
  ∀ w sched w',
    caches_paired (w_mem w) →
    run w sched = Some w' →
    caches_paired (w_mem w')
    ∧ ∀ vid e, _audio_url_cache (w_mem w') !! vid = Some e →
        ∃ i, _track_info_cache (w_mem w') !! vid = Some i
             ∧ cached_track (w_mem w') vid = ie_info i.
Proof.
  intros w sched w' Hp Hrun.
  assert (caches_paired (w_mem w')) as Hp'.
  { revert Hp Hrun. apply (run_invariant (λ w, caches_paired (w_mem w))).
    intros w0 a w1 H0 (t & pc & _ & Hf & _)%sched_step_inv.
    by eapply fetch_stream_paired. }
  split; [done|]. intros vid e He.
  destruct (proj1 (Hp' vid)) as [i Hi]; [by eexists|].
  exists i. split; [done|]. unfold cached_track. by rewrite Hi.
Qed.

Lemma run_caches_paired_witness :
  let w := mkWorld (mkMem ∅ ∅ ∅ ∅ 0 []) [mkTask Request "v" FS_entry] in
  let sched := [mkAction 0 1 (Raise (ValueError ""));
                mkAction 0 2 (Return ("https://cdn/v", empty_track))] in
  ∃ w', run w sched = Some w' ∧ caches_paired (w_mem w').
Proof.
  intros w sched. eexists. split; [vm_compute; reflexivity|].
  eapply (proj1 (run_caches_paired w sched _ _ _)).
  Unshelve.
  - intros vid. cbn. rewrite !lookup_empty. split; intros [? ?]; done.
  - vm_compute. reflexivity.
Defined.

Section events.
Implicit Types (w : World) (a : Action) (m : Mem) (t : Task).

(** A task moves on without touching the memory and without entering
    the executor. *)
Lemma events_ok_same w i t pc :
  events_ok w → w_tasks w !! i = Some t →
  is_running (t_pc t) = false → is_running pc = false →
  (∀ ev, pc = FS_wait ev → ev < next_event (w_mem w)) →
  events_ok (mkWorld (w_mem w) (<[i := mkTask (t_kind t) (t_vid t) pc]> (w_tasks w))).
Proof.
  intros (H1 & H2 & H3 & H4 & H5) Ht Hold Hnew Hwait.
  unfold events_ok. cbn [w_mem w_tasks]. split; [done|]. split; [|split; [|split]].
  - intros j t' ev [[-> ->]|[Hne Hj]]%lookup_task_after Hpc.
    + cbn in Hpc. by rewrite Hpc in Hnew.
    + by eapply H2.
  - intros j t' ev [[-> ->]|[Hne Hj]]%lookup_task_after Hpc.
    + by apply Hwait.
    + by eapply H3.
  - intros j k t1 t2 ev [[-> ->]|[Hnj Hj]]%lookup_task_after
      [[-> ->]|[Hnk Hk]]%lookup_task_after Hp1 Hp2; cbn in *;
      try (by rewrite ?Hp1, ?Hp2 in Hnew).
    by eapply H4.
  - intros vid ev (j & t' & Hj & Hvid & Hpc)%H5.
    exists j, t'. split; [|done].
    rewrite list_lookup_insert_ne; [done|]. intros ->.
    rewrite Ht in Hj. injection Hj as ->. by rewrite Hpc in Hold.
Qed.

(** A task creates its event, registers it and enters the executor. *)
Lemma events_ok_begin w i t :
  events_ok w → w_tasks w !! i = Some t → is_running (t_pc t) = false →
  events_ok (mkWorld (begin_fetch (t_vid t) (w_mem w)).2
               (<[i := mkTask (t_kind t) (t_vid t) (FS_run (next_event (w_mem w)))]>
                  (w_tasks w))).
Proof.
  intros (H1 & H2 & H3 & H4 & H5) Ht Hold.
  assert (i < length (w_tasks w)) as Hi by by eapply lookup_lt_Some.
  unfold events_ok, begin_fetch. cbn [w_mem w_tasks snd events_set next_event
                                       _audio_url_inflight].
  split; [|split; [|split; [|split]]].
  - intros ev Hev. apply H1 in Hev. lia.
  - intros j t' ev [[-> ->]|[Hne Hj]]%lookup_task_after Hpc.
    + cbn in Hpc. injection Hpc as <-. split; [lia|].
      intros Hin%H1. lia.
    + destruct (H2 j t' ev Hj Hpc). split; [lia|done].
  - intros j t' ev [[-> ->]|[Hne Hj]]%lookup_task_after Hpc; [done|].
    specialize (H3 j t' ev Hj Hpc). lia.
  - intros j k t1 t2 ev [[-> ->]|[Hnj Hj]]%lookup_task_after
      [[-> ->]|[Hnk Hk]]%lookup_task_after Hp1 Hp2; cbn in *; [done| | |].
    + injection Hp1 as <-. destruct (H2 k t2 _ Hk Hp2). lia.
    + injection Hp2 as <-. destruct (H2 j t1 _ Hj Hp1). lia.
    + by eapply H4.
  - intros vid ev. destruct (decide (vid = t_vid t)) as [->|Hne].
    + rewrite lookup_insert_eq. intros [= <-]. eexists i, _.
      split; [by apply list_lookup_insert_eq|]. done.
    + rewrite lookup_insert_ne by done.
      intros (j & t' & Hj & Hvid & Hpc)%H5. exists j, t'. split; [|done].
      rewrite list_lookup_insert_ne; [done|]. intros ->.
      rewrite Ht in Hj. injection Hj as ->. by rewrite Hpc in Hold.
Qed.

(** A call comes back: the [finally] block runs and the task ends. *)
Lemma events_ok_release w i t ev m1 pc :
  events_ok w → w_tasks w !! i = Some t → t_pc t = FS_run ev →
  events_set m1 = events_set (w_mem w) →
  next_event m1 = next_event (w_mem w) →
  _audio_url_inflight m1 = _audio_url_inflight (w_mem w) →
  is_running pc = false → (∀ ev', pc ≠ FS_wait ev') →
  events_ok (mkWorld (release (t_vid t) ev m1)
               (<[i := mkTask (t_kind t) (t_vid t) pc]> (w_tasks w))).
Proof.
  intros (H1 & H2 & H3 & H4 & H5) Ht Hrun Hset Hnext Hin Hnew Hnowait.
  destruct (H2 i t ev Ht Hrun) as [Hlt Hunset].
  unfold events_ok, release. cbn [w_mem w_tasks events_set next_event
                                   _audio_url_inflight].
  rewrite Hset, Hnext, Hin. split; [|split; [|split; [|split]]].
  - intros ev' [->%elem_of_singleton|Hev]%elem_of_union; [done|by apply H1].
  - intros j t' ev' [[-> ->]|[Hne Hj]]%lookup_task_after Hpc.
    + cbn in Hpc. by rewrite Hpc in Hnew.
    + destruct (H2 j t' ev' Hj Hpc). split; [done|].
      intros [->%elem_of_singleton|Hev]%elem_of_union; [|done].
      by destruct Hne; eapply H4.
  - intros j t' ev' [[-> ->]|[Hne Hj]]%lookup_task_after Hpc.
    + cbn in Hpc. by destruct (Hnowait ev').
    + by eapply H3.
  - intros j k t1 t2 ev' [[-> ->]|[Hnj Hj]]%lookup_task_after
      [[-> ->]|[Hnk Hk]]%lookup_task_after Hp1 Hp2; cbn in *;
      try (by rewrite ?Hp1, ?Hp2 in Hnew).
    by eapply H4.
  - intros vid ev'. destruct (decide (vid = t_vid t)) as [->|Hne].
    { by rewrite lookup_delete_eq. }
    rewrite lookup_delete_ne by done.
    intros (j & t' & Hj & Hvid & Hpc)%H5. exists j, t'. split; [|done].
    rewrite list_lookup_insert_ne; [done|]. intros ->.
    rewrite Ht in Hj. injection Hj as ->. done.
Qed.

Lemma events_ok_step w a w' :
  events_ok w → sched_step w a = Some w' → events_ok w'.
Proof.
  intros Hok (t & pc & Ht & Hf & Htasks)%sched_step_inv.
  destruct w' as [m' tasks']. cbn [w_mem w_tasks] in *. subst tasks'.
  pose proof Hok as (H1 & H2 & H3 & H4 & H5).
  assert (∀ ev, _audio_url_inflight (w_mem w) !! t_vid t = Some ev →
            ev < next_event (w_mem w) ∧ ev ∉ events_set (w_mem w)) as Hfly.
  { intros ev (j & t' & Hj & _ & Hpc)%H5. by eapply H2. }
  assert (∀ p0 m0, is_running (t_pc t) = false →
            after_wait (t_vid t) (w_mem w) = (p0, m0) →
            events_ok (mkWorld m0
              (<[a_task a := mkTask (t_kind t) (t_vid t) p0]> (w_tasks w)))) as Hafter.
  { intros p0 m0 Hold. unfold after_wait.
    destruct (_audio_url_cache (w_mem w) !! t_vid t).
    - intros [= <- <-]. by apply events_ok_same.
    - intros [= <- <-]. by apply events_ok_begin. }
  unfold fetch_stream in Hf. destruct (t_pc t) as [|ev|ev|r|e] eqn:Hpc;
    [| | |done|done].
  - destruct (ttl_lookup _ _ _ _).
    { injection Hf as <- <-. apply events_ok_same; try done. by rewrite Hpc. }
    destruct (_audio_url_inflight (w_mem w) !! t_vid t) as [ev|] eqn:Hin.
    + destruct (Hfly ev eq_refl) as [Hlt Hunset].
      rewrite decide_False in Hf by done. injection Hf as <- <-.
      apply events_ok_same; try done; [by rewrite Hpc|]. by intros ? [= <-].
    + apply (inj Some) in Hf. injection Hf as <- <-.
      apply events_ok_begin; [done..|]. by rewrite Hpc.
  - case_decide; [|done]. apply (inj Some) in Hf.
    by apply Hafter.
  - destruct (a_ext a) as [[url info]|e]; injection Hf as <- <-.
    + by apply (events_ok_release w _ t ev).
    + by apply (events_ok_release w _ t ev).
Qed.

Lemma events_ok_initial c i n (tasks : list Task) :
  Forall (λ t, t_pc t = FS_entry) tasks →
  events_ok (mkWorld (mkMem c ∅ i ∅ n []) tasks).
Proof.
  intros Hall. unfold events_ok. cbn.
  assert (∀ j t, tasks !! j = Some t → t_pc t = FS_entry) as Hentry.
  { intros j t Hj. apply (proj1 (Forall_forall _ _) Hall).
    by eapply list_elem_of_lookup_2. }
  split; [by intros ? ?%not_elem_of_empty|].
  split; [intros j t ev Hj Hpc; by rewrite (Hentry j t Hj) in Hpc|].
  split; [intros j t ev Hj Hpc; by rewrite (Hentry j t Hj) in Hpc|].
  split; [intros j k t t' ev Hj _ Hpc; by rewrite (Hentry j t Hj) in Hpc|].
  intros vid ev. by rewrite lookup_empty.
Qed.

Lemma prefetch_next_tasks w (video_ids : list string) :
  w_mem (prefetch_next w video_ids) = w_mem w
  ∧ ∃ hints, w_tasks (prefetch_next w video_ids)
             = w_tasks w ++ ((λ vid, mkTask Prefetch vid FS_entry) <$> hints).
Proof.
  unfold prefetch_next. destruct (prefetch_loop w (take 3 video_ids)) as [Hm Ht].
  split; [done|]. by eexists.
Qed.
End events.

(** X14. The in-flight map never goes stale. Along every schedule of
    requests and prefetch tasks, started with nothing in flight, each
    in-flight entry names an event that is not set and belongs to a
    task that is in the executor for that identifier; no two calls
    share an event; and a request that finds an entry for its
    identifier therefore always suspends. Queuing prefetch tasks keeps
    this. *)
Theorem run_events_ok :
  ∀ c i n (tasks : list Task) sched w,
    Forall (λ t, t_pc t = FS_entry) tasks →
    run (mkWorld (mkMem c ∅ i ∅ n []) tasks) sched = Some w →
    events_ok w
    ∧ (∀ vid ev, _audio_url_inflight (w_mem w) !! vid = Some ev →
         (ev ∉ events_set (w_mem w)) ∧ 0 < length (running vid w))
    ∧ (∀ vid ev now ext,
         ttl_lookup ae_ts AUDIO_URL_TTL now (_audio_url_cache (w_mem w) !! vid) = None →
         _audio_url_inflight (w_mem w) !! vid = Some ev →
         fetch_stream vid now ext FS_entry (w_mem w) = Some (FS_wait ev, w_mem w))
    ∧ ∀ video_ids, events_ok (prefetch_next w video_ids).
Proof.
  intros c i n tasks sched w Hall Hrun.
  assert (events_ok w) as Hok.
  { revert Hrun. apply (run_invariant events_ok); [|by apply events_ok_initial].
    intros w0 a w1. apply events_ok_step. }
  split; [done|]. pose proof Hok as (H1 & H2 & H3 & H4 & H5).
  assert (∀ vid ev, _audio_url_inflight (w_mem w) !! vid = Some ev →
            (ev ∉ events_set (w_mem w)) ∧ 0 < length (running vid w)) as Hfly.
  { intros vid ev (j & t & Hj & Hvid & Hpc)%H5. split; [by eapply H2|].
    assert (t ∈ running vid w) as Hin.
    { unfold running. apply list_elem_of_filter. split.
      - by rewrite Hpc.
      - by eapply list_elem_of_lookup_2. }
    destruct (running vid w); [by apply elem_of_nil in Hin|simpl; lia]. }
  split; [done|]. split.
  - intros vid ev now ext Hmiss Hin. unfold fetch_stream.
    rewrite Hmiss, Hin. destruct (Hfly vid ev Hin) as [Hunset _].
    by rewrite decide_False.
  - intros video_ids. destruct (prefetch_next_tasks w video_ids) as [Hm [hints Ht]].
    unfold events_ok. rewrite Hm, Ht.
    assert (∀ j t, (w_tasks w ++ ((λ vid, mkTask Prefetch vid FS_entry) <$> hints)) !! j
                   = Some t →
              w_tasks w !! j = Some t ∨ t_pc t = FS_entry) as Hcase.
    { intros j t [Hl|[_ Hr]]%lookup_app_Some; [by left|right].
      apply list_lookup_fmap_Some in Hr as (vid & -> & _). done. }
    split; [done|]. split; [|split; [|split]].
    + intros j t ev [Hj|He]%Hcase Hpc; [by eapply H2|by rewrite He in Hpc].
    + intros j t ev [Hj|He]%Hcase Hpc; [by eapply H3|by rewrite He in Hpc].
    + intros j k t t' ev [Hj|He]%Hcase [Hk|He']%Hcase Hp Hp';
        [by eapply H4|by rewrite He' in Hp'|by rewrite He in Hp|by rewrite He in Hp].
    + intros vid ev (j & t & Hj & Hvid & Hpc)%H5. exists j, t.
      split; [|done]. by apply lookup_app_l_Some.
Qed.

Lemma run_events_ok_witness :
  let w0 := mkWorld (mkMem ∅ ∅ ∅ ∅ 0 []) (replicate 2 (mkTask Request "v" FS_entry)) in
  let sched := [mkAction 0 1 (Raise (ValueError ""))] in
  ∃ w, run w0 sched = Some w
       ∧ fetch_stream "v" 2 (Raise (ValueError "")) FS_entry (w_mem w)
         = Some (FS_wait 0, w_mem w).
Proof.
  intros w0 sched. eexists. split; [vm_compute; reflexivity|].
  eapply (proj1 (proj2 (proj2 (run_events_ok ∅ ∅ 0
            (replicate 2 (mkTask Request "v" FS_entry)) sched _ _ _)))).
  - vm_compute. reflexivity.
  - vm_compute. reflexivity.
  Unshelve.
  + repeat constructor.
  + vm_compute. reflexivity.
Defined.

(** ** Track information and the stream route *)

Section track_info.
Implicit Types (m : Mem) (vid : string) (r : string * Track).

Lemma info_hit_resolved vid r t0 m0 now :
  (now - t0 < AUDIO_URL_TTL)%Q →
  ttl_lookup ie_ts AUDIO_URL_TTL now (_track_info_cache (resolved vid r t0 m0) !! vid)
  = Some (mkInfoEntry r.2 t0).
Proof.
  intros Hlt. unfold resolved, release, store_result. cbn.
  rewrite lookup_insert_eq. by apply ttl_lookup_Some.
Qed.

Lemma split_comma_nonempty s : split_comma s ≠ [].
Proof.
  destruct s as [|c s]; simpl; [done|]. case_decide; [done|].
  by destruct (split_comma s).
Qed.

Lemma split_comma_join s : String.concat "," (split_comma s) = s.
Proof.
  induction s as [|c s IH]; [done|]. simpl. case_decide as Hc.
  - subst c. pose proof (split_comma_nonempty s) as Hne.
    destruct (split_comma s) as [|p ps]; [done|].
    change (String.concat "," ("" :: p :: ps))
      with (String (Ascii.ascii_of_nat 44) (String.concat "," (p :: ps))).
    by rewrite IH.
  - pose proof (split_comma_nonempty s) as Hne.
    destruct (split_comma s) as [|p ps]; [done|].
    destruct ps as [|p' ps]; [simpl in *; by rewrite IH|].
    change (String.concat "," (String c p :: p' :: ps))
      with (String c (String.concat "," (p :: p' :: ps))).
    by rewrite IH.
Qed.

Lemma split_comma_pieces s :
  Forall (λ p, Ascii.ascii_of_nat 44 ∉ String.list_ascii_of_string p) (split_comma s).
Proof.
  induction s as [|c s IH]; simpl.
  { constructor; [|done]. simpl. apply not_elem_of_nil. }
  case_decide as Hc.
  - constructor; [|done]. simpl. apply not_elem_of_nil.
  - destruct (split_comma s) as [|p ps].
    + constructor; [|done]. simpl. by intros [?|?%elem_of_nil]%elem_of_cons.
    + apply Forall_cons in IH as [Hp Hps]. constructor; [|done].
      simpl. by intros [?|?]%elem_of_cons.
Qed.
End track_info.

(** X15. The track-information route shares the resolution of the
    stream route. With nothing cached and nothing in flight,
    [fetch_track_info] goes through [fetch_stream] and submits the one
    external call; when it returns, the metadata is handed back, and
    within the TTL both [fetch_track_info] and [fetch_stream] answer
    from the caches, without a call and without touching the state. *)
Theorem fetch_track_info_shares_resolution :
  ∀ vid m now0 ext0 r t0,
    ttl_lookup ie_ts AUDIO_URL_TTL now0 (_track_info_cache m !! vid) = None →
    ttl_lookup ae_ts AUDIO_URL_TTL now0 (_audio_url_cache m !! vid) = None →
    _audio_url_inflight m !! vid = None →
    let m1 := (begin_fetch vid m).2 in
    let m2 := resolved vid r t0 m in
    fetch_track_info vid now0 ext0 FTI_entry m
    = Some (FTI_stream (FS_run (next_event m)), m1)
    ∧ fetch_track_info vid t0 (Return r) (FTI_stream (FS_run (next_event m))) m1
      = Some (FTI_return r.2, m2)
    ∧ resolve_calls m2 = resolve_calls m ++ [vid]
    ∧ ∀ now1 ext1, (now1 - t0 < AUDIO_URL_TTL)%Q →
        fetch_track_info vid now1 ext1 FTI_entry m2 = Some (FTI_return r.2, m2)
        ∧ fetch_stream vid now1 ext1 FS_entry m2 = Some (FS_return r, m2).
Proof.
  intros vid m now0 ext0 r t0 Hinfo Haudio Hin m1 m2.
  split; [|split; [|split]].
  - unfold fetch_track_info. rewrite Hinfo.
    by rewrite (fetch_stream_miss vid now0 ext0 m Haudio Hin).
  - destruct r as [url info]. done.
  - done.
  - intros now1 ext1 Hlt. split.
    + unfold fetch_track_info. subst m2. by rewrite info_hit_resolved.
    + by apply fetch_stream_hit_resolved.
Qed.

Lemma fetch_track_info_shares_resolution_witness :
  let m := mkMem ∅ ∅ ∅ ∅ 0 [] in
  let r := ("https://cdn/v", empty_track) in
  fetch_track_info "v" 100 (Raise (ValueError "")) FTI_entry (resolved "v" r 10 m)
  = Some (FTI_return empty_track, resolved "v" r 10 m).
Proof.
  intros m r.
  destruct (fetch_track_info_shares_resolution "v" m 1%Q (Raise (ValueError "")) r 10%Q)
    as (_ & _ & _ & H).
  - reflexivity.
  - reflexivity.
  - reflexivity.
  - apply H. reflexivity.
Defined.

(** X16. A track-information request joins a fetch in flight. With no
    fresh metadata and an in-flight entry whose event is not set,
    [fetch_track_info] suspends on that event without a call of its
    own; woken after the leader stored its result, it returns the
    leader's metadata, whatever the clock says by then. *)
Theorem fetch_track_info_joins_inflight :
  ∀ vid m now ext ev,
    ttl_lookup ie_ts AUDIO_URL_TTL now (_track_info_cache m !! vid) = None →
    ttl_lookup ae_ts AUDIO_URL_TTL now (_audio_url_cache m !! vid) = None →
    _audio_url_inflight m !! vid = Some ev →
    ev ∉ events_set m →
    fetch_track_info vid now ext FTI_entry m = Some (FTI_stream (FS_wait ev), m)
    ∧ fetch_track_info vid now ext (FTI_stream (FS_wait ev)) m = None
    ∧ ∀ url info t0 now1 ext1,
        let m' := release vid ev (store_result vid t0 url info m) in
        fetch_track_info vid now1 ext1 (FTI_stream (FS_wait ev)) m'
        = Some (FTI_return info, m')
        ∧ resolve_calls m' = resolve_calls m.
Proof.
  intros vid m now ext ev Hinfo Haudio Hin Hunset. split; [|split].
  - unfold fetch_track_info, fetch_stream. rewrite Hinfo, Haudio, Hin.
    by rewrite decide_False.
  - unfold fetch_track_info, fetch_stream. by rewrite decide_False.
  - intros url info t0 now1 ext1 m'. split; [|done].
    unfold fetch_track_info, fetch_stream.
    rewrite decide_True by (subst m'; unfold release; cbn; set_solver).
    unfold after_wait, cached_track. subst m'. unfold release, store_result. cbn.
    by rewrite !lookup_insert_eq.
Qed.

Lemma fetch_track_info_joins_inflight_witness :
  let m := (begin_fetch "v" (mkMem ∅ ∅ ∅ ∅ 0 [])).2 in
  fetch_track_info "v" 1 (Raise (ValueError "")) FTI_entry m
  = Some (FTI_stream (FS_wait 0), m).
Proof.
  intros m.
  apply (proj1 (fetch_track_info_joins_inflight "v" m 1%Q (Raise (ValueError "")) 0
                  eq_refl eq_refl eq_refl (not_elem_of_empty 0))).
Defined.

(** X17. The stream route. When [fetch_stream] returned, the response
    carries its URL and metadata, the track is recorded at the head of
    the caller's history (no other user's file is touched), and a
    prefetch task is queued for each of the first three non-empty
    comma-separated pieces of [next_ids] that has no cache entry; the
    caches are not touched. When [fetch_stream] raised, the response
    is a 500 carrying the message, and nothing is recorded or queued.
    The pieces are those of [str.split]: free of commas, and joined by
    commas they give [next_ids] back. *)
Theorem stream_audio_records_and_prefetches :
  ∀ username next_ids fs w,
    let hints := filter (λ v, v ≠ "") (split_comma next_ids) in
    let launched :=
      filter (λ vid, _audio_url_cache (w_mem w) !! vid = None) (take 3 hints) in
    (∀ url track, ∃ fs' w',
        stream_audio username next_ids (Return (url, track)) fs w
        = (OK (url, track), fs', w')
        ∧ history (load_user fs' username)
          = played (history (load_user fs username)) track
        ∧ get_history fs' username !! 0 = Some track
        ∧ (∀ u, u ≠ username → fs' !! u = fs !! u)
        ∧ w_mem w' = w_mem w
        ∧ w_tasks w' = w_tasks w ++ ((λ vid, mkTask Prefetch vid FS_entry) <$> launched))
    ∧ length launched ≤ 3
    ∧ ("" ∉ launched)
    ∧ (∀ e, stream_audio username next_ids (Raise e) fs w
            = (HTTPException 500 (exn_message e), fs, w))
    ∧ String.concat "," (split_comma next_ids) = next_ids
    ∧ Forall (λ p, Ascii.ascii_of_nat 44 ∉ String.list_ascii_of_string p)
        (split_comma next_ids).
Proof.
  intros username next_ids fs w hints launched.
  split; [|split; [|split; [|split; [|split]]]].
  - intros url track. eexists _, _. split; [reflexivity|].
    split; [apply record_play_history|]. split.
    { unfold get_history. by rewrite record_play_history. }
    split.
    { intros u Hu. unfold record_play, save_user. by rewrite lookup_insert_ne. }
    case_bool_decide as Hempty.
    + subst next_ids. split; [done|]. by rewrite app_nil_r.
    + unfold prefetch_next. apply prefetch_loop.
  - subst launched. etrans; [apply length_filter|]. rewrite length_take. lia.
  - subst launched hints. intros [_ Hin]%list_elem_of_filter.
    apply subseteq_take in Hin. by apply list_elem_of_filter in Hin as [? _].
  - done.
  - apply split_comma_join.
  - apply split_comma_pieces.
Qed.

(** ** The per-user store under all routes *)

Section store.
Implicit Types (fs : UserFiles) (d : UserData) (u v pid : string) (r : Route).

Lemma save_user_other fs u d u' : u ≠ u' → save_user fs u d !! u' = fs !! u'.
Proof. intros. unfold save_user. by rewrite lookup_insert_ne. Qed.

Lemma cached_search_other fs u q now ext now' u' :
  u ≠ u' → (cached_search fs u q now ext now').2 !! u' = fs !! u'.
Proof.
  intros Hne. unfold cached_search. destruct (ttl_lookup _ _ _ _); [done|].
  destruct ext; [|done]. by apply save_user_other.
Qed.

Lemma cached_search_fields fs u q now ext now' :
  let d := load_user fs u in
  let d' := load_user (cached_search fs u q now ext now').2 u in
  history d' = history d ∧ liked d' = liked d ∧ playlists d' = playlists d.
Proof.
  unfold cached_search. destruct (ttl_lookup _ _ _ _); [done|].
  destruct ext; [|done]. cbn [snd]. by rewrite load_save_user.
Qed.

(** The suggestions route writes what its search writes, if it makes one. *)
Lemma suggestions_store fs u related now ext now' :
  (suggestions fs u related now ext now').2 = fs
  ∨ ∃ q, (suggestions fs u related now ext now').2
         = (cached_search fs u q now ext now').2.
Proof.
  unfold suggestions. destruct (history _) as [|seed h].
  - right. exists "trending music 2025".
    by destruct (cached_search _ _ _ _ _ _) as [[?|?] ?].
  - destruct related as [[|t related]|e]; [|by left..].
    right. exists (or_empty (py_or (track_channel seed) (Some "music")) +:+ " music").
    by destruct (cached_search _ _ _ _ _ _) as [[?|?] ?].
Qed.

Lemma apply_op_other fs op u' : op_user op ≠ u' → apply_op fs op !! u' = fs !! u'.
Proof.
  destruct op; simpl; intros Hne.
  - by apply save_user_other.
  - by apply cached_search_other.
  - by apply save_user_other.
  - by apply save_user_other.
  - by apply save_user_other.
  - unfold add_to_playlist. destruct (playlists _ !! _); [|done]. by apply save_user_other.
  - unfold remove_from_playlist. destruct (playlists _ !! _); [|done]. by apply save_user_other.
  - unfold reorder_playlist. destruct (playlists _ !! _); [|done].
    destruct (forallb _ _); [|done]. by apply save_user_other.
Qed.

Lemma handle_other fs r u' : route_user r ≠ u' → handle fs r !! u' = fs !! u'.
Proof.
  destruct r as [op|pid u|pid name u|u related now ext now']; simpl; intros Hne.
  - by apply apply_op_other.
  - unfold delete_playlist. destruct (playlists _ !! _); [|done]. by apply save_user_other.
  - unfold rename_playlist. destruct (playlists _ !! _); [|done]. by apply save_user_other.
  - destruct (suggestions_store fs u related now ext now') as [->|[q ->]]; [done|].
    by apply cached_search_other.
Qed.

Lemma load_user_other fs fs' u : fs' !! u = fs !! u → load_user fs' u = load_user fs u.
Proof. unfold load_user. by intros ->. Qed.

Lemma handle_bounded fs r u :
  bounded (load_user fs u) → bounded (load_user (handle fs r) u).
Proof.
  intros Hb. destruct (decide (route_user r = u)) as [Hu|Hne].
  2:{ by rewrite (load_user_other fs _ u (handle_other fs r u Hne)). }
  destruct r as [op|pid u0|pid name u0|u0 related now ext now']; simpl in *.
  - by apply apply_op_bounded.
  - subst u0. unfold delete_playlist. destruct (playlists _ !! _); [|done]. cbn [snd].
    by rewrite load_save_user.
  - subst u0. unfold rename_playlist. destruct (playlists _ !! _); [|done]. cbn [snd].
    by rewrite load_save_user.
  - subst u0. destruct (suggestions_store fs u related now ext now') as [->|[q ->]].
    + done.
    + by apply cached_search_bounded.
Qed.

(** With nothing served in between, the two halves are [cached_search]. *)
Lemma cached_search_split fs u q now ext now' :
  cached_search fs u q now ext now'
  = match cached_search_begin fs u q now with
    | CS_return results => (Return results, fs)
    | CS_run data key => cached_search_resume fs u data key ext now'
    end.
Proof.
  unfold cached_search, cached_search_begin, cached_search_resume.
  by destruct (ttl_lookup _ _ _ _).
Qed.

Lemma cached_search_begin_run fs u q now data key :
  cached_search_begin fs u q now = CS_run data key →
  data = load_user fs u ∧ key = search_key q.
Proof.
  unfold cached_search_begin. destruct (ttl_lookup _ _ _ _); [done|].
  by intros [= <- <-].
Qed.

Lemma cached_search_resume_bounded fs u d key ext now' u' :
  bounded d → bounded (load_user fs u') →
  bounded (load_user (cached_search_resume fs u d key ext now').2 u').
Proof.
  intros Hd Hb. unfold cached_search_resume. destruct ext as [results|e]; [|done].
  cbn [snd]. destruct (decide (u = u')) as [->|Hne].
  2:{ by rewrite load_save_user_ne. }
  rewrite load_save_user.
  destruct Hd as (? & ? & ? & Hnd & ? & ?). unfold bounded. simpl.
  split; [done|]. split; [done|]. split; [|split; [|done]].
  - destruct (_ <? _) eqn:Hlen.
    + rewrite dict_of_NoDup by by apply evicted_kept_NoDup, od_set_NoDup.
      rewrite last_n_length. lia.
    + by apply Nat.ltb_ge in Hlen.
  - destruct (_ <? _).
    + rewrite dict_of_NoDup by by apply evicted_kept_NoDup, od_set_NoDup.
      by apply evicted_kept_NoDup, od_set_NoDup.
    + by apply od_set_NoDup.
Qed.

Lemma step_bounded (s : UserFiles * list Pending) (e : Step) :
  (∀ u, bounded (load_user s.1 u)) → Forall (λ p, bounded (p_data p)) s.2 →
  (∀ u, bounded (load_user (step s e).1 u))
  ∧ Forall (λ p, bounded (p_data p)) (step s e).2.
Proof.
  destruct s as [fs pending]. cbn [fst snd]. intros Hfs Hp.
  destruct e as [r|u q now|i ext now']; cbn [step].
  - split; [|done]. intros u. by apply handle_bounded.
  - destruct (cached_search_begin fs u q now) as [results|data key] eqn:Hbegin;
      [done|].
    split; [done|]. apply Forall_app. split; [done|].
    apply Forall_singleton. cbn.
    apply cached_search_begin_run in Hbegin as [-> _]. apply Hfs.
  - destruct (pending !! i) as [p|] eqn:Hi; [|done]. cbn [fst snd]. split.
    + intros u. apply cached_search_resume_bounded; [|done].
      apply (proj1 (Forall_forall _ _) Hp). by eapply list_elem_of_lookup_2.
    + apply Forall_forall. intros p' Hp'%list_elem_of_delete_inv.
      by apply (proj1 (Forall_forall _ _) Hp).
Qed.
End store.

(** X18. The caps hold under every interleaving. Starting with no
    files, let the loop serve requests from start to end, start
    searches and resume suspended searches in any order, the searches
    succeeding or failing: every user's record stays within the caps
    and free of repeats (at most 200 history tracks with distinct
    identifiers, at most 50 search-cache keys, at most 500 distinct
    liked identifiers). *)
Theorem interleaved_requests_keep_bounds :
  ∀ (steps : list Step) u, bounded (load_user (foldl step (∅, []) steps).1 u).
Proof.
  intros steps.
  enough ((∀ u, bounded (load_user (foldl step (∅, []) steps).1 u))
          ∧ Forall (λ p, bounded (p_data p)) (foldl step (∅, []) steps).2) as [H _].
  { exact H. }
  induction steps as [|e steps [IHfs IHp]] using rev_ind.
  - split; [|done]. intros u. apply bounded_empty.
  - rewrite foldl_snoc. by apply step_bounded.
Qed.

(** X19. A request touches the file of the user it runs as and no
    other: every other user's file is as it was, and none is created. *)
Theorem routes_write_own_file :
  ∀ fs (routes : list Route) u,
    Forall (λ r, route_user r ≠ u) routes →
    foldl handle fs routes !! u = fs !! u
    ∧ load_user (foldl handle fs routes) u = load_user fs u.
Proof.
  intros fs routes u Hall.
  assert (foldl handle fs routes !! u = fs !! u) as Heq.
  { induction routes as [|r routes IH] using rev_ind; [done|].
    apply Forall_app in Hall as [Hall [Hr _]%Forall_cons].
    rewrite foldl_snoc. rewrite handle_other by done. by apply IH. }
  split; [done|]. by apply load_user_other.
Qed.

Lemma routes_write_own_file_witness :
  let routes := [Rt_op (Op_like "v" "ann"); Rt_delete "p" "ann";
                 Rt_op (Op_play "ann" empty_track)] in
  foldl handle ∅ routes !! "bob" = (∅ : UserFiles) !! "bob".
Proof.
  intros routes. apply (proj1 (routes_write_own_file ∅ routes "bob"
    ltac:(repeat constructor; discriminate))).
Defined.

(** X20. Each route writes one field of the record: a play the
    history, a search (also one made by the suggestions route) the
    search cache, like and unlike the liked list, and a playlist route
    the one playlist it names. *)
Theorem routes_write_one_field :
  ∀ fs r,
    let d := load_user fs (route_user r) in
    let d' := load_user (handle fs r) (route_user r) in
    let others pid := ∀ pid', pid' ≠ pid → playlists d' !! pid' = playlists d !! pid' in
    match r with
    | Rt_op (Op_play _ _) =>
        search_cache d' = search_cache d ∧ liked d' = liked d
        ∧ playlists d' = playlists d
    | Rt_op (Op_search _ _ _ _ _) | Rt_suggestions _ _ _ _ _ =>
        history d' = history d ∧ liked d' = liked d ∧ playlists d' = playlists d
    | Rt_op (Op_like _ _) | Rt_op (Op_unlike _ _) =>
        history d' = history d ∧ search_cache d' = search_cache d
        ∧ playlists d' = playlists d
    | Rt_op (Op_create _ _ pid _) | Rt_op (Op_add pid _ _) | Rt_op (Op_remove pid _ _)
    | Rt_op (Op_reorder pid _ _) | Rt_delete pid _ | Rt_rename pid _ _ =>
        history d' = history d ∧ search_cache d' = search_cache d
        ∧ liked d' = liked d ∧ others pid
    end.
Proof.
  intros fs r d d' others. subst d d' others.
  destruct r as [[u t|u q now ext now'|v u|v u|name u pid now|pid t u|pid v u|pid ids u]
                |pid u|pid name u|u related now ext now']; cbn [route_user op_user handle apply_op].
  - unfold record_play. by rewrite load_save_user.
  - apply cached_search_fields.
  - unfold like_track. by rewrite load_save_user.
  - unfold unlike_track. by rewrite load_save_user.
  - unfold create_playlist. rewrite load_save_user. cbn.
    repeat split. intros pid' Hne. by rewrite lookup_insert_ne.
  - unfold add_to_playlist. destruct (playlists _ !! _) eqn:Hpl; [|done]. cbn [snd].
    rewrite load_save_user. cbn.
    repeat split. intros pid' Hne. by rewrite lookup_insert_ne.
  - unfold remove_from_playlist. destruct (playlists _ !! _) eqn:Hpl; [|done]. cbn [snd].
    rewrite load_save_user. cbn.
    repeat split. intros pid' Hne. by rewrite lookup_insert_ne.
  - unfold reorder_playlist. destruct (playlists _ !! _) eqn:Hpl; [|done].
    destruct (forallb _ _); [|done]. cbn [snd].
    rewrite load_save_user. cbn.
    repeat split. intros pid' Hne. by rewrite lookup_insert_ne.
  - unfold delete_playlist. destruct (playlists _ !! _) eqn:Hpl; [|done]. cbn [snd].
    rewrite load_save_user. cbn.
    repeat split. intros pid' Hne. by rewrite lookup_delete_ne.
  - unfold rename_playlist. destruct (playlists _ !! _) eqn:Hpl; [|done]. cbn [snd].
    rewrite load_save_user. cbn.
    repeat split. intros pid' Hne. by rewrite lookup_insert_ne.
  - destruct (suggestions_store fs u related now ext now') as [->|[q ->]]; [done|].
    apply cached_search_fields.
Qed.

(** ** Likes and playlists *)

Section likes_playlists.
Implicit Types (fs : UserFiles) (l : list string) (u v pid : string) (pl : Playlist).

Lemma filter_ne_absent l v : v ∉ l → filter (λ x, x ≠ v) l = l.
Proof.
  induction l as [|x l IH]; [done|].
  intros [Hx Hl]%not_elem_of_cons. rewrite filter_cons_True by done.
  by rewrite IH.
Qed.

Lemma filter_ne_twice l v :
  filter (λ x, x ≠ v) (filter (λ x, x ≠ v) l) = filter (λ x, x ≠ v) l.
Proof.
  apply filter_ne_absent. by intros [? _]%list_elem_of_filter.
Qed.

Lemma filter_id_absent (tracks : list Track) v :
  Some v ∉ track_id <$> tracks → filter (λ x, track_id x ≠ Some v) tracks = tracks.
Proof.
  induction tracks as [|x tracks IH]; [done|].
  rewrite fmap_cons. intros [Hx Hl]%not_elem_of_cons.
  rewrite filter_cons_True by congruence. by rewrite IH.
Qed.

Lemma filter_id_twice (tracks : list Track) v :
  filter (λ x, track_id x ≠ Some v) (filter (λ x, track_id x ≠ Some v) tracks)
  = filter (λ x, track_id x ≠ Some v) tracks.
Proof.
  apply filter_id_absent. intros (x & Hid & Hx)%list_elem_of_fmap.
  apply list_elem_of_filter in Hx as [Hx _]. congruence.
Qed.

Lemma get_playlist_saved fs u (p : gmap string Playlist) pid :
  get_playlist (save_user fs u (set_playlists p (load_user fs u))) pid u
  = match p !! pid with
    | Some pl => OK pl
    | None => HTTPException 404 "Playlist not found"
    end.
Proof. unfold get_playlist. rewrite load_save_user. simpl. by destruct (p !! pid). Qed.
End likes_playlists.

(** X21. Unlike removes the identifier and nothing else: the other
    liked identifiers stay, in their order; unliking twice is unliking
    once; unliking an identifier that is not liked leaves the list as
    it is. An unlike followed by a like puts the identifier at the
    front, which a like alone does not do for a liked identifier. *)
Theorem unlike_track_removes :
  ∀ fs v u,
    let fs' := unlike_track fs v u in
    (v ∉ get_liked fs' u)
    ∧ (∀ x, x ≠ v → x ∈ get_liked fs' u ↔ x ∈ get_liked fs u)
    ∧ sublist (get_liked fs' u) (get_liked fs u)
    ∧ unlike_track fs' v u = fs'
    ∧ (v ∉ get_liked fs u → get_liked fs' u = get_liked fs u)
    ∧ get_liked (like_track fs' v u) u
      = v :: take 499 (filter (λ x, x ≠ v) (get_liked fs u)).
Proof.
  intros fs v u fs'. subst fs'.
  split; [|split; [|split; [|split; [|split]]]].
  - rewrite get_liked_unlike. by intros [? _]%list_elem_of_filter.
  - intros x Hx. rewrite get_liked_unlike, list_elem_of_filter. tauto.
  - rewrite get_liked_unlike. apply sublist_filter.
  - unfold unlike_track at 1. unfold unlike_track at 3.
    pose proof (get_liked_unlike fs v u) as Hl. unfold get_liked in Hl.
    rewrite Hl, filter_ne_twice.
    unfold unlike_track. rewrite load_save_user. unfold save_user.
    by rewrite insert_insert_eq.
  - intros Hv. rewrite get_liked_unlike. by apply filter_ne_absent.
  - rewrite get_liked_like_absent.
    + by rewrite get_liked_unlike.
    + rewrite get_liked_unlike. by intros [? _]%list_elem_of_filter.
Qed.

(** X22. Liking an identifier that is not liked and unliking it again
    gives the liked list back as long as it held fewer than 500
    entries. At the cap the like drops the oldest entry for good: the
    500th identifier is gone after the like and stays gone after the
    unlike. *)
Theorem like_unlike_round_trip :
  ∀ fs v u,
    v ∉ get_liked fs u →
    (length (get_liked fs u) < 500 →
       get_liked (unlike_track (like_track fs v u) v u) u = get_liked fs u)
    ∧ (∀ oldest, get_liked fs u !! 499 = Some oldest → NoDup (get_liked fs u) →
         (oldest ∉ get_liked (like_track fs v u) u)
         ∧ length (get_liked (like_track fs v u) u) = 500
         ∧ get_liked (unlike_track (like_track fs v u) v u) u
           = take 499 (get_liked fs u)
         ∧ (oldest ∉ get_liked (unlike_track (like_track fs v u) v u) u)).
Proof.
  intros fs v u Hv.
  assert (get_liked (unlike_track (like_track fs v u) v u) u
          = take 499 (get_liked fs u)) as Hround.
  { rewrite get_liked_unlike, get_liked_like_absent by done.
    rewrite filter_cons_False by (by intros H; apply H).
    apply filter_ne_absent. intros Hin. by apply subseteq_take in Hin. }
  split.
  - intros Hlen. rewrite Hround. apply take_ge. lia.
  - intros oldest Hold Hnd.
    assert (oldest ∉ take 499 (get_liked fs u)) as Hgone.
    { intros (i & Hi)%list_elem_of_lookup.
      apply lookup_take_Some in Hi as [Hi Hlt].
      pose proof (NoDup_lookup _ _ _ _ Hnd Hi Hold). lia. }
    split; [|split; [|split]].
    + rewrite get_liked_like_absent by done.
      intros [->|Hin]%elem_of_cons; [|done].
      apply Hv. by eapply list_elem_of_lookup_2.
    + rewrite get_liked_like_absent by done. simpl. rewrite length_take.
      apply lookup_lt_Some in Hold. lia.
    + done.
    + by rewrite Hround.
Qed.

Lemma like_unlike_round_trip_witness :
  let fs := like_track (like_track ∅ "a" "ann") "b" "ann" in
  get_liked (unlike_track (like_track fs "c" "ann") "c" "ann") "ann" = get_liked fs "ann".
Proof.
  intros fs. apply (proj1 (like_unlike_round_trip fs "c" "ann"
    ltac:(apply (bool_decide_unpack _); vm_compute; exact I))).
  vm_compute. lia.
Defined.

(** X23. A created playlist is empty and carries its name and creation
    time; renaming it changes the name only; deleting it makes every
    later request for it a 404; creating and deleting a playlist
    leaves the user's record as it was when the token was fresh. A
    token that is already a playlist id replaces that playlist, tracks
    included. *)
Theorem create_playlist_lifecycle :
  ∀ fs name u pid now,
    let fs1 := create_playlist fs name u pid now in
    get_playlist fs1 pid u = OK (mkPlaylist name [] now)
    ∧ (∀ name',
         (rename_playlist fs1 pid name' u).1 = OK (pid, name')
         ∧ get_playlist (rename_playlist fs1 pid name' u).2 pid u
           = OK (mkPlaylist name' [] now))
    ∧ (delete_playlist fs1 pid u).1 = OK true
    ∧ get_playlist (delete_playlist fs1 pid u).2 pid u
      = HTTPException 404 "Playlist not found"
    ∧ (playlists (load_user fs u) !! pid = None →
         load_user (delete_playlist fs1 pid u).2 u = load_user fs u)
    ∧ (∀ t, (add_to_playlist fs1 pid t u).1 = OK 1
            ∧ playlist_tracks (add_to_playlist fs1 pid t u).2 pid u = [t]).
Proof.
  intros fs name u pid now fs1.
  assert (playlists (load_user fs1 u) !! pid = Some (mkPlaylist name [] now)) as Hpl.
  { subst fs1. unfold create_playlist. rewrite load_save_user. simpl.
    by rewrite lookup_insert_eq. }
  split; [|split; [|split; [|split; [|split]]]].
  - unfold get_playlist. by rewrite Hpl.
  - intros name'. unfold rename_playlist. rewrite Hpl. cbn [fst snd].
    split; [done|]. rewrite get_playlist_saved. by rewrite lookup_insert_eq.
  - unfold delete_playlist. by rewrite Hpl.
  - unfold delete_playlist. rewrite Hpl. cbn [snd].
    rewrite get_playlist_saved. by rewrite lookup_delete_eq.
  - intros Hfresh. unfold delete_playlist. rewrite Hpl. cbn [snd].
    rewrite load_save_user. subst fs1. unfold create_playlist.
    rewrite load_save_user. cbn.
    rewrite delete_insert_eq, delete_id by done.
    by destruct (load_user fs u).
  - intros t. destruct (add_to_playlist_tracks fs1 pid t u _ Hpl) as [Ht Hr].
    rewrite Hr, Ht. cbn [pl_tracks].
    by rewrite bool_decide_eq_false_2 by (by intros ?%Exists_nil).
Qed.


(** X25. Adding a track whose identifier is not in the playlist puts
    it last and answers the new count; removing that identifier again
    gives the playlist back as it was, name and creation time
    included. *)
Theorem add_remove_round_trip :
  ∀ fs pid t v u pl,
    playlists (load_user fs u) !! pid = Some pl →
    track_id t = Some v →
    Some v ∉ track_id <$> pl_tracks pl →
    let added := add_to_playlist fs pid t u in
    let removed := remove_from_playlist added.2 pid v u in
    added.1 = OK (S (length (pl_tracks pl)))
    ∧ playlist_tracks added.2 pid u = pl_tracks pl ++ [t]
    ∧ removed.1 = OK (length (pl_tracks pl))
    ∧ get_playlist removed.2 pid u = OK pl
    ∧ load_user removed.2 u = load_user fs u.
Proof.
  intros fs pid t v u pl Hpl Hid Hnew added removed.
  assert (¬ Exists (λ x, track_id x = track_id t) (pl_tracks pl)) as Hex.
  { intros (x & Hx & Hxid)%Exists_exists. apply Hnew.
    apply list_elem_of_fmap. exists x. split; [congruence|done]. }
  assert (filter (λ x, track_id x ≠ Some v) (pl_tracks pl ++ [t]) = pl_tracks pl) as Hf.
  { rewrite filter_app, filter_cons_False, filter_nil, app_nil_r
      by (by intros H; apply H).
    by apply filter_id_absent. }
  assert (added.2 = save_user fs u
            (set_playlists (<[pid := set_tracks (pl_tracks pl ++ [t]) pl]>
                              (playlists (load_user fs u))) (load_user fs u))
          ∧ added.1 = OK (length (pl_tracks pl ++ [t]))) as [Hadded Hcount].
  { subst added. unfold add_to_playlist. rewrite Hpl. cbn [fst snd].
    by rewrite bool_decide_eq_false_2. }
  assert (removed = (OK (length (pl_tracks pl)), save_user fs u (load_user fs u)))
    as Hremoved.
  { subst removed. unfold remove_from_playlist. rewrite Hadded, load_save_user.
    cbn [playlists set_playlists]. rewrite lookup_insert_eq.
    cbn [pl_tracks set_tracks]. rewrite Hf. f_equal.
    unfold save_user. rewrite insert_insert_eq. f_equal.
    rewrite insert_insert_eq.
    replace (set_tracks (pl_tracks pl) (set_tracks (pl_tracks pl ++ [t]) pl))
      with pl by by destruct pl.
    rewrite insert_id by done. by destruct (load_user fs u). }
  split; [|split; [|split; [|split]]].
  - rewrite Hcount, length_app. simpl. f_equal. lia.
  - rewrite Hadded. apply playlist_tracks_saved.
  - by rewrite Hremoved.
  - rewrite Hremoved. cbn [snd]. unfold get_playlist.
    rewrite load_save_user. by rewrite Hpl.
  - rewrite Hremoved. cbn [snd]. apply load_save_user.
Qed.

Lemma add_remove_round_trip_witness :
  let fs := create_playlist ∅ "mix" "ann" "p1" 7 in
  let t := mkTrack (IdStr "v") None None None None None None in
  get_playlist (remove_from_playlist (add_to_playlist fs "p1" t "ann").2 "p1" "v" "ann").2
    "p1" "ann"
  = OK (mkPlaylist "mix" [] 7).
Proof.
  intros fs t.
  apply (proj1 (proj2 (proj2 (proj2
    (add_remove_round_trip fs "p1" t "v" "ann" (mkPlaylist "mix" [] 7%Q)
       eq_refl eq_refl (not_elem_of_nil _)))))).
Defined.

(** X26. Removing an identifier drops exactly the tracks that carry
    it, keeps the others in their order and answers the new count; a
    second removal changes nothing more; a track stored without an
    identifier is out of reach of the route. *)
Theorem remove_from_playlist_exact :
  ∀ fs pid v u pl,
    playlists (load_user fs u) !! pid = Some pl →
    let removed := remove_from_playlist fs pid v u in
    let tracks' := playlist_tracks removed.2 pid u in
    removed.1 = OK (length tracks')
    ∧ (∀ t, t ∈ tracks' ↔ t ∈ pl_tracks pl ∧ track_id t ≠ Some v)
    ∧ sublist tracks' (pl_tracks pl)
    ∧ (∀ t, t ∈ pl_tracks pl → track_id t = None → t ∈ tracks')
    ∧ playlist_tracks (remove_from_playlist removed.2 pid v u).2 pid u = tracks'
    ∧ (Some v ∉ track_id <$> pl_tracks pl → tracks' = pl_tracks pl).
Proof.
  intros fs pid v u pl Hpl removed tracks'.
  assert (tracks' = filter (λ x, track_id x ≠ Some v) (pl_tracks pl)) as Ht.
  { apply remove_from_playlist_tracks, Hpl. }
  assert (playlists (load_user removed.2 u) !! pid
          = Some (set_tracks tracks' pl)) as Hpl'.
  { rewrite Ht. subst removed. unfold remove_from_playlist. rewrite Hpl. cbn [snd].
    rewrite load_save_user. simpl. by rewrite lookup_insert_eq. }
  split; [|split; [|split; [|split; [|split]]]].
  - rewrite Ht. subst removed. unfold remove_from_playlist. by rewrite Hpl.
  - intros t. rewrite Ht, list_elem_of_filter. tauto.
  - rewrite Ht. apply sublist_filter.
  - intros t Hin Hid. rewrite Ht. apply list_elem_of_filter. split; [|done].
    by rewrite Hid.
  - rewrite (remove_from_playlist_tracks _ pid v u _ Hpl'). simpl.
    rewrite Ht. apply filter_id_twice.
  - intros Hnew. rewrite Ht. by apply filter_id_absent.
Qed.

Lemma remove_from_playlist_exact_witness :
  let t := mkTrack (IdStr "v") None None None None None None in
  let fs := (add_to_playlist (create_playlist ∅ "mix" "ann" "p1" 7) "p1" t "ann").2 in
  (remove_from_playlist fs "p1" "v" "ann").1
  = OK (length (playlist_tracks (remove_from_playlist fs "p1" "v" "ann").2 "p1" "ann")).
Proof.
  intros t fs.
  apply (proj1 (remove_from_playlist_exact fs "p1" "v" "ann"
                  (mkPlaylist "mix" [t] 7%Q) eq_refl)).
Defined.

(** ** Searches, suggestions, start-up and prefetch *)

Section searches.
Implicit Types (d : list (string * SearchEntry)) (x : string * SearchEntry)
  (fs : UserFiles) (u : string).

Lemma insert_by_ts_snoc y d x :
  ts_le y x → insert_by_ts y (d ++ [x]) = insert_by_ts y d ++ [x].
Proof.
  intros Hyx. induction d as [|z d IH]; simpl.
  - apply Qle_bool_ts_le in Hyx. by rewrite Hyx.
  - destruct (Qle_bool _ _); [done|]. by rewrite IH.
Qed.

(** An item stamped no earlier than the others stays last when sorted. *)
Lemma sorted_by_ts_snoc d x :
  Forall (λ y, ts_le y x) d → sorted_by_ts (d ++ [x]) = sorted_by_ts d ++ [x].
Proof.
  induction 1 as [|y d Hy Hd IH]; [done|].
  unfold sorted_by_ts in *. cbn [app foldr]. rewrite IH.
  by apply insert_by_ts_snoc.
Qed.

Lemma od_set_length_present {V} k (v : V) (c : list (string * V)) :
  k ∈ c.*1 → length (od_set k v c) = length c.
Proof.
  intros Hk. rewrite <-(length_fmap fst (od_set k v c)), od_set_fst.
  rewrite decide_True by done. apply length_fmap.
Qed.

(** What a miss stores can be read back under its key. *)
Lemma stored_entry_kept d k e :
  NoDup d.*1 → length d ≤ 50 → Forall (λ y, (se_ts y.2 <= se_ts e)%Q) d →
  let stored := od_set k e d in
  od_get k (if (50 <? length stored)%nat
            then dict_of (last_n 50 (sorted_by_ts stored)) else stored) = Some e.
Proof.
  intros Hnd Hlen Hts stored. destruct (_ <? _) eqn:Hbig.
  2:{ apply od_get_set_eq. }
  apply Nat.ltb_lt in Hbig.
  assert (k ∉ d.*1) as Hnew.
  { intros Hk. subst stored. rewrite od_set_length_present in Hbig by done. lia. }
  assert (NoDup (last_n 50 (sorted_by_ts stored)).*1) as Hnd'.
  { by apply evicted_kept_NoDup, od_set_NoDup. }
  rewrite dict_of_NoDup by done. apply od_get_elem_of; [done|].
  subst stored. rewrite od_set_new by done.
  rewrite sorted_by_ts_snoc by done.
  unfold last_n. rewrite length_app. simpl.
  rewrite drop_app_le by lia. apply elem_of_app. right. left.
Qed.

(** *** Strings *)

Lemma str_app_nil_r (s : string) : s +:+ "" = s.
Proof.
  induction s as [|c s IH]; [done|].
  change (String c s +:+ "") with (String c (s +:+ "")). by rewrite IH.
Qed.

Lemma str_app_assoc (s t r : string) : (s +:+ t) +:+ r = s +:+ (t +:+ r).
Proof.
  induction s as [|c s IH]; [done|].
  change ((String c s +:+ t) +:+ r) with (String c ((s +:+ t) +:+ r)).
  change (String c s +:+ (t +:+ r)) with (String c (s +:+ (t +:+ r))).
  by rewrite IH.
Qed.

Lemma str_rev_app_acc (s t : string) : String.rev_app s t = String.rev s +:+ t.
Proof.
  unfold String.rev. revert t. induction s as [|c s IH]; intros t; [done|].
  cbn [String.rev_app]. rewrite (IH (String c t)), (IH (String c "")).
  by rewrite str_app_assoc.
Qed.

Lemma str_rev_cons c (s : string) : String.rev (String c s) = String.rev s +:+ String c "".
Proof. unfold String.rev at 1. cbn [String.rev_app]. apply str_rev_app_acc. Qed.

Lemma str_rev_app (s t : string) : String.rev (s +:+ t) = String.rev t +:+ String.rev s.
Proof.
  induction s as [|c s IH].
  { change (String.rev "") with "". change ("" +:+ t) with t.
    by rewrite str_app_nil_r. }
  change (String c s +:+ t) with (String c (s +:+ t)).
  by rewrite !str_rev_cons, IH, str_app_assoc.
Qed.

Lemma all_chars_app P (s t : string) :
  all_chars P (s +:+ t) = all_chars P s && all_chars P t.
Proof.
  induction s as [|c s IH]; [done|].
  change (String c s +:+ t) with (String c (s +:+ t)).
  cbn [all_chars]. by rewrite IH, andb_assoc.
Qed.

Lemma blank_text_rev (s : string) : blank_text s = true → blank_text (String.rev s) = true.
Proof.
  unfold blank_text. induction s as [|c s IH]; [done|].
  cbn [all_chars]. intros [Hc Hs]%andb_true_iff.
  rewrite str_rev_cons, all_chars_app, (IH Hs). cbn [all_chars].
  by rewrite Hc.
Qed.

Lemma blank_text_cons c (s : string) :
  blank_text (String c s) = true ↔ is_space c = true ∧ blank_text s = true.
Proof. unfold blank_text. cbn [all_chars]. by rewrite andb_true_iff. Qed.

Lemma str_lstrip_blank (r : string) : blank_text r = true → str_lstrip r = "".
Proof.
  induction r as [|c r IH]; [done|]. intros [Hc Hr]%blank_text_cons.
  cbn [str_lstrip]. rewrite Hc. auto.
Qed.

Lemma str_lstrip_blank_app (l s : string) :
  blank_text l = true → str_lstrip (l +:+ s) = str_lstrip s.
Proof.
  induction l as [|c l IH]; [done|]. intros [Hc Hl]%blank_text_cons.
  change (String c l +:+ s) with (String c (l +:+ s)).
  cbn [str_lstrip]. rewrite Hc. auto.
Qed.

Lemma str_lstrip_app_blank (x r : string) :
  blank_text r = true →
  str_lstrip (x +:+ r)
  = match str_lstrip x with
    | EmptyString => EmptyString
    | String c y => String c y +:+ r
    end.
Proof.
  intros Hr. induction x as [|c x IH].
  { change ("" +:+ r) with r. by rewrite (str_lstrip_blank r Hr). }
  change (String c x +:+ r) with (String c (x +:+ r)).
  cbn [str_lstrip]. by destruct (is_space c).
Qed.

(** Blanks around a text do not change what [strip] gives. *)
Lemma str_strip_padded (l x r : string) :
  blank_text l = true → blank_text r = true →
  str_strip (l +:+ x +:+ r) = str_strip x.
Proof.
  intros Hl Hr. unfold str_strip.
  rewrite (str_lstrip_blank_app l _ Hl), (str_lstrip_app_blank x r Hr).
  destruct (str_lstrip x) as [|c y]; [done|].
  rewrite str_rev_app.
  by rewrite (str_lstrip_blank_app _ _ (blank_text_rev r Hr)).
Qed.

Lemma str_lower_app (s t : string) : str_lower (s +:+ t) = str_lower s +:+ str_lower t.
Proof.
  induction s as [|c s IH]; [done|].
  change (String c s +:+ t) with (String c (s +:+ t)).
  cbn [str_lower]. by rewrite IH.
Qed.

Lemma lower_char_space c : is_space c = true → lower_char c = c.
Proof.
  unfold is_space, lower_char. cbn zeta. intros Hc.
  destruct (65 <=? Ascii.nat_of_ascii c) eqn:H1; [|done].
  destruct (Ascii.nat_of_ascii c <=? 90) eqn:H2; [|done].
  apply Nat.leb_le in H1, H2. exfalso.
  apply orb_true_iff in Hc as [[H3 H4]%andb_true_iff|[H3 H4]%andb_true_iff];
    apply Nat.leb_le in H3, H4; lia.
Qed.

Lemma str_lower_blank (s : string) : blank_text s = true → str_lower s = s.
Proof.
  induction s as [|c s IH]; [done|]. intros [Hc Hs]%blank_text_cons.
  cbn [str_lower]. by rewrite (lower_char_space c Hc), (IH Hs).
Qed.

Lemma blank_text_lower (s : string) : blank_text s = true → blank_text (str_lower s) = true.
Proof. intros Hs. by rewrite (str_lower_blank s Hs). Qed.

Lemma same_letter_lower a b : same_letter a b = true → lower_char a = lower_char b.
Proof.
  unfold same_letter, lower_char. cbn zeta.
  pose proof (Ascii.ascii_nat_embedding a) as Ha.
  pose proof (Ascii.ascii_nat_embedding b) as Hb.
  revert Ha Hb. generalize (Ascii.nat_of_ascii a) (Ascii.nat_of_ascii b).
  intros m n <- <-.
  destruct (Nat.leb_spec 65 m), (Nat.leb_spec m 90), (Nat.leb_spec 65 n),
    (Nat.leb_spec n 90), (Nat.eqb_spec m n), (Nat.eqb_spec n (m + 32)),
    (Nat.eqb_spec m (n + 32));
    cbn; intros; try discriminate; subst; try lia; reflexivity.
Qed.

Lemma str_lower_same (s1 s2 : string) :
  same_letters s1 s2 = true → str_lower s1 = str_lower s2.
Proof.
  revert s2. induction s1 as [|a s1 IH]; intros [|b s2]; try done.
  cbn [same_letters str_lower]. intros [Hab Hs]%andb_true_iff.
  by rewrite (same_letter_lower a b Hab), (IH s2 Hs).
Qed.

(** Queries that differ in letter case and surrounding blanks have
    the same search key. *)
Lemma search_key_same_query q1 q2 : same_query q1 q2 → search_key q1 = search_key q2.
Proof.
  intros (_ & _ & l1 & c1 & r1 & l2 & c2 & r2 & -> & -> & Hl1 & Hr1 & Hl2 & Hr2 & Hc).
  unfold search_key. rewrite !str_lower_app.
  rewrite !str_strip_padded by by apply blank_text_lower.
  by rewrite (str_lower_same c1 c2 Hc).
Qed.

Lemma insert_last_task (tasks : list Task) (t t' : Task) :
  <[length tasks := t']> (tasks ++ [t]) = tasks ++ [t'].
Proof. rewrite insert_app_r_alt by lia. by rewrite Nat.sub_diag. Qed.

Lemma lookup_last_task (tasks : list Task) (t : Task) :
  (tasks ++ [t]) !! length tasks = Some t.
Proof. by apply list_lookup_middle. Qed.
End searches.

(** X27. ASCII queries that differ only in letter case and in
    surrounding blanks share one cache entry: their search keys are
    equal. After a search was stored, such a query is answered from
    the cache until the TTL has passed: with the stored results,
    without an external call and without a write. The clock does not
    run backwards between the stored entries and the new one. *)
Theorem cached_search_normalized_hit :
  ∀ fs u q1 q2 now results now' now2 ext2 now2',
    same_query q1 q2 →
    bounded (load_user fs u) →
    Forall (λ y, (se_ts y.2 <= now')%Q) (search_cache (load_user fs u)) →
    ttl_lookup se_ts SEARCH_CACHE_TTL now
      (od_get (search_key q1) (search_cache (load_user fs u))) = None →
    (now2 - now' < SEARCH_CACHE_TTL)%Q →
    let fs1 := (cached_search fs u q1 now (Return results) now').2 in
    search_key q2 = search_key q1
    ∧ cached_search fs u q1 now (Return results) now' = (Return results, fs1)
    ∧ od_get (search_key q1) (search_cache (load_user fs1 u))
      = Some (mkSearchEntry now' results)
    ∧ cached_search fs1 u q2 now2 ext2 now2' = (Return results, fs1).
Proof.
  intros fs u q1 q2 now results now' now2 ext2 now2' Hsame Hb Hmono Hmiss Hfresh fs1.
  pose proof (search_key_same_query q1 q2 Hsame) as Hkey.
  destruct Hb as (_ & _ & Hlen & Hnd & _).
  pose proof (cached_search_miss fs u q1 now results now' Hmiss) as Hstore.
  cbn zeta in Hstore.
  assert (od_get (search_key q1) (search_cache (load_user fs1 u))
          = Some (mkSearchEntry now' results)) as Hget.
  { subst fs1. rewrite Hstore. cbn [snd]. rewrite search_cache_saved.
    by apply stored_entry_kept. }
  split; [done|]. split; [subst fs1; by rewrite Hstore|]. split; [done|].
  unfold cached_search. rewrite <-Hkey, Hget.
  by rewrite (proj2 (ttl_lookup_Some se_ts SEARCH_CACHE_TTL now2 _
                      (mkSearchEntry now' results))).
Qed.

Lemma cached_search_normalized_hit_witness :
  let fs1 := (cached_search ∅ "ann" "  Daft Punk " 10 (Return []) 11).2 in
  cached_search fs1 "ann" "daft PUNK" 100 (Raise (DownloadError "offline")) 101
  = (Return [], fs1).
Proof.
  intros fs1.
  refine (proj2 (proj2 (proj2 (cached_search_normalized_hit ∅ "ann" "  Daft Punk "
    "daft PUNK" 10%Q [] 11%Q 100%Q (Raise (DownloadError "offline")) 101%Q _ _ _ _ _)))).
  - split; [reflexivity|]. split; [reflexivity|].
    exists "  ", "Daft Punk", " ", "", "daft PUNK", "".
    repeat split; reflexivity.
  - apply (apply_ops_bounded [] "ann").
  - vm_compute. constructor.
  - vm_compute. reflexivity.
  - vm_compute. reflexivity.
Defined.

(** X28. Suggestions follow the last play. After a play was recorded,
    the seed is that track: a non-empty related list is handed on as
    it is and nothing is written; an empty one is replaced by a search
    for the track's channel (or for [music] when the track has none)
    followed by [ music]; in both cases the answer is based on the
    track's title. A user without history gets the trending search,
    whatever the related list would have been. *)
Theorem suggestions_follow_last_play :
  ∀ fs u t now ext now',
    let fs1 := record_play fs u t in
    let channel := match track_channel t with
                   | Some c => if bool_decide (c = "") then "music" else c
                   | None => "music"
                   end in
    let found := cached_search fs1 u (channel +:+ " music") now ext now' in
    let trending := cached_search fs u "trending music 2025" now ext now' in
    (∀ rel, rel ≠ [] →
       suggestions fs1 u (Return rel) now ext now' = (Return (rel, track_title t), fs1))
    ∧ (suggestions fs1 u (Return []) now ext now').2 = found.2
    ∧ (∀ results, found.1 = Return results →
         (suggestions fs1 u (Return []) now ext now').1
         = Return (results, track_title t))
    ∧ (∀ e, found.1 = Raise e →
         (suggestions fs1 u (Return []) now ext now').1 = Raise e)
    ∧ (history (load_user fs u) = [] → ∀ rel,
         (suggestions fs u rel now ext now').2 = trending.2
         ∧ (∀ results, trending.1 = Return results →
              (suggestions fs u rel now ext now').1 = Return (results, Some "trending"))
         ∧ (∀ e, trending.1 = Raise e →
              (suggestions fs u rel now ext now').1 = Raise e)).
Proof.
  intros fs u t now ext now' fs1 channel found trending.
  assert (∃ h, history (load_user fs1 u) = t :: h) as [h Hh].
  { subst fs1. rewrite record_play_history. unfold played. simpl. by eexists. }
  assert (or_empty (py_or (track_channel t) (Some "music")) = channel) as Hch.
  { subst channel. unfold or_empty, py_or, truthy.
    destruct (track_channel t) as [c|]; [|done].
    case_bool_decide as Hc; [done|]. simpl.
    by rewrite bool_decide_eq_false_2. }
  assert (suggestions fs1 u (Return []) now ext now'
          = match found with
            | (Return results, fs') => (Return (results, track_title t), fs')
            | (Raise e, fs') => (Raise e, fs')
            end) as Hsearch.
  { unfold suggestions. rewrite Hh. cbn zeta. by rewrite Hch. }
  split; [|split; [|split; [|split]]].
  - intros rel Hrel. unfold suggestions. rewrite Hh.
    by destruct rel.
  - rewrite Hsearch. by destruct found as [[?|?] ?].
  - intros results Hfound. rewrite Hsearch.
    destruct found as [[?|?] ?]; simpl in *; congruence.
  - intros e Hfound. rewrite Hsearch.
    destruct found as [[?|?] ?]; simpl in *; congruence.
  - intros Hempty rel. unfold suggestions. rewrite Hempty. fold trending.
    destruct trending as [[?|?] ?]; simpl; repeat split; congruence.
Qed.

(** First start: without a key file the server creates one that holds
    the drawn key under [admin]; that key, and no other, is accepted.
    An existing key file is used as it is. *)
Lemma startup_admin_key :
  ∀ key,
    (∀ api_key,
       get_user (startup_keys None key) api_key
       = if bool_decide (api_key = Some key) then OK "admin"
         else HTTPException 403 "Invalid API key")
    ∧ ∀ keys, startup_keys (Some keys) key = keys.
Proof.
  intros key. split; [|done]. intros api_key.
  destruct (decide (api_key = Some key)) as [->|Hk].
  - rewrite (bool_decide_eq_true_2 (Some key = Some key)) by done.
    unfold startup_keys, get_user.
    rewrite bool_decide_eq_true_2 by (simpl; left).
    simpl. by rewrite decide_True.
  - rewrite (bool_decide_eq_false_2 (api_key = Some key)) by done.
    apply get_user_403. simpl. by intros ->%list_elem_of_singleton.
Qed.

(** X29. A search that misses writes back the record it read before
    the external call. Whatever other requests stored in the user's
    file while the search was out (a like, a play, a playlist) is
    undone when the search stores its result: history, liked list and
    playlists are again what they were when the search began. A failed
    search writes nothing, and the files of other users are never
    touched. *)
Theorem cached_search_overwrites_record :
  ∀ fs u q now data key,
    cached_search_begin fs u q now = CS_run data key →
    (∀ ext now',
       cached_search fs u q now ext now' = cached_search_resume fs u data key ext now')
    ∧ (∀ fs_mid results now',
         let fs' := (cached_search_resume fs_mid u data key (Return results) now').2 in
         history (load_user fs' u) = history (load_user fs u)
         ∧ liked (load_user fs' u) = liked (load_user fs u)
         ∧ playlists (load_user fs' u) = playlists (load_user fs u)
         ∧ ∀ u', u' ≠ u → fs' !! u' = fs_mid !! u')
    ∧ (∀ v results now',
         v ∉ get_liked fs u →
         v ∈ get_liked (like_track fs v u) u
         ∧ v ∉ get_liked
               (cached_search_resume (like_track fs v u) u data key
                  (Return results) now').2 u)
    ∧ ∀ fs_mid e now',
        cached_search_resume fs_mid u data key (Raise e) now' = (Raise e, fs_mid).
Proof.
  intros fs u q now data key Hbegin.
  pose proof (cached_search_begin_run _ _ _ _ _ _ Hbegin) as [-> ->].
  assert (∀ fs_mid results now',
            let fs' := (cached_search_resume fs_mid u (load_user fs u) (search_key q)
                          (Return results) now').2 in
            history (load_user fs' u) = history (load_user fs u)
            ∧ liked (load_user fs' u) = liked (load_user fs u)
            ∧ playlists (load_user fs' u) = playlists (load_user fs u)) as Hback.
  { intros fs_mid results now'. cbn [cached_search_resume snd].
    by rewrite load_save_user. }
  split; [|split; [|split]].
  - intros ext now'. by rewrite cached_search_split, Hbegin.
  - intros fs_mid results now' fs'.
    destruct (Hback fs_mid results now') as (Hh & Hl & Hp).
    split; [done|]. split; [done|]. split; [done|].
    intros u' Hne. subst fs'. cbn [cached_search_resume snd].
    by apply save_user_other.
  - intros v results now' Hv. split.
    + rewrite get_liked_like_absent by done. left.
    + destruct (Hback (like_track fs v u) results now') as (_ & Hl & _).
      unfold get_liked in *. by rewrite Hl.
  - done.
Qed.

Lemma cached_search_overwrites_record_witness :
  let data := load_user ∅ "ann" in
  let fs_mid := like_track ∅ "v" "ann" in
  get_liked fs_mid "ann" = ["v"]
  ∧ liked (load_user
             (cached_search_resume fs_mid "ann" data (search_key "x") (Return []) 2).2
             "ann")
    = liked (load_user ∅ "ann").
Proof.
  intros data fs_mid. split; [vm_compute; reflexivity|].
  refine (proj1 (proj2 (proj1 (proj2
    (cached_search_overwrites_record ∅ "ann" "x" 1%Q data (search_key "x") _))
    fs_mid [] 2%Q))).
  vm_compute. reflexivity.
Defined.

(** X30. A prefetch warms the cache and keeps quiet. The task queued
    by [prefetch_next] for an identifier that is neither cached nor in
    flight makes the one external call; its result is dropped by
    [_prefetch_one] but stays in the caches, so that a stream request
    within the TTL is answered without a call. When the call fails,
    the exception is swallowed and the caches are as they were. *)
Theorem prefetch_warms_cache :
  ∀ w vid now0 ext0 t0,
    _audio_url_cache (w_mem w) !! vid = None →
    _audio_url_inflight (w_mem w) !! vid = None →
    let i := length (w_tasks w) in
    let w1 := prefetch_next w [vid] in
    w_tasks w1 = w_tasks w ++ [mkTask Prefetch vid FS_entry]
    ∧ (∀ r, ∃ w3,
         run w1 [mkAction i now0 ext0; mkAction i t0 (Return r)] = Some w3
         ∧ w_tasks w3 !! i ≫= outcome_of = Some (Return None)
         ∧ w_mem w3 = resolved vid r t0 (w_mem w)
         ∧ ∀ now1 ext1, (now1 - t0 < AUDIO_URL_TTL)%Q →
             fetch_stream vid now1 ext1 FS_entry (w_mem w3)
             = Some (FS_return r, w_mem w3))
    ∧ (∀ e, ∃ w3,
         run w1 [mkAction i now0 ext0; mkAction i t0 (Raise e)] = Some w3
         ∧ w_tasks w3 !! i ≫= outcome_of = Some (Return None)
         ∧ _audio_url_cache (w_mem w3) = _audio_url_cache (w_mem w)
         ∧ _track_info_cache (w_mem w3) = _track_info_cache (w_mem w)
         ∧ _audio_url_inflight (w_mem w3) !! vid = None).
Proof.
  intros w vid now0 ext0 t0 Hcache Hin i w1.
  assert (w1 = mkWorld (w_mem w) (w_tasks w ++ [mkTask Prefetch vid FS_entry])) as Hw1.
  { subst w1. unfold prefetch_next. simpl. by rewrite decide_True. }
  assert (sched_step w1 (mkAction i now0 ext0)
          = Some (mkWorld (begin_fetch vid (w_mem w)).2
                    (w_tasks w ++ [mkTask Prefetch vid (FS_run (next_event (w_mem w)))])))
    as Hstep1.
  { rewrite Hw1. unfold sched_step. cbn [a_task a_now a_ext w_tasks w_mem].
    subst i. rewrite lookup_last_task. cbn [t_vid t_pc t_kind].
    rewrite fetch_stream_miss; [|by rewrite Hcache|done].
    unfold begin_fetch. cbn [snd]. by rewrite insert_last_task. }
  split; [by rewrite Hw1|]. split.
  - intros [url info]. eexists. split; [|split; [|split]].
    + cbn [run]. rewrite Hstep1. unfold sched_step.
      cbn [a_task a_now a_ext w_tasks w_mem].
      subst i. rewrite lookup_last_task. cbn [t_vid t_pc t_kind fetch_stream].
      rewrite insert_last_task. reflexivity.
    + cbn [w_tasks]. subst i. by rewrite lookup_last_task.
    + done.
    + intros now1 ext1 Hlt. cbn [w_mem].
      by apply (fetch_stream_hit_resolved vid (url, info)).
  - intros e. eexists. split; [|split; [|split; [|split]]].
    + cbn [run]. rewrite Hstep1. unfold sched_step.
      cbn [a_task a_now a_ext w_tasks w_mem].
      subst i. rewrite lookup_last_task. cbn [t_vid t_pc t_kind fetch_stream].
      rewrite insert_last_task. reflexivity.
    + cbn [w_tasks]. subst i. by rewrite lookup_last_task.
    + done.
    + done.
    + cbn. apply lookup_delete_eq.
Qed.

Lemma prefetch_warms_cache_witness :
  let w := mkWorld (mkMem ∅ ∅ ∅ ∅ 0 []) [] in
  w_tasks (prefetch_next w ["v"]) = w_tasks w ++ [mkTask Prefetch "v" FS_entry].
Proof.
  intros w.
  apply (proj1 (prefetch_warms_cache w "v" 1%Q (Raise (ValueError "")) 2%Q
                  eq_refl eq_refl)).
Defined.
